(** * Smart-Split: the balance accumulator and the settlement simplifier

    A shallow embedding of [server/utils/graphAlgo.js]
    ([calculateNetBalances] and [simplifyDebts]) and the properties the
    specification states about them.

    JavaScript numbers are IEEE 754 binary64 values: the two functions are
    read on Rocq's primitive floats, bit for bit what JavaScript computes.
    They are written over an interface [Arith] of the number operations
    they use, so that what holds by the structure of the code alone is
    stated once, whatever the operations do; [binary64] is its instance.

    [simplifyDebts] is embedded twice: as a function of the balance map,
    and as a computation on a heap of objects and arrays, where the map is
    one object among others and the function allocates and assigns as the
    source does. *)

From Stdlib Require Import ZArith List String Bool Lia.
From Stdlib Require Import Floats Zpower.
From stdpp Require Import base list.

Set Warnings "-inexact-float".

Open Scope string_scope.
Open Scope list_scope.

(** ** Numbers *)

(** The operations of JavaScript's Number type used by the source. *)
Class Arith (num : Type) := {
  zero : num;                       (* the literal [0] *)
  eps : num;                        (* the literal [0.01] *)
  neg_eps : num;                    (* the literal [-0.01] *)
  add : num -> num -> num;          (* [x + y] *)
  sub : num -> num -> num;          (* [x - y] *)
  div : num -> num -> num;          (* [x / y] *)
  ltb : num -> num -> bool;         (* [x < y]; [x > y] is [ltb y x] *)
  abs : num -> num;                 (* [Math.abs(x)] *)
  min : num -> num -> num;          (* [Math.min(x, y)] *)
  of_length : nat -> num;           (* an array's [.length] as a number *)
  toFixed2 : num -> num             (* [Number(x.toFixed(2))] *)
}.

(** *** binary64 *)

Module JS.

(** [Math.min(x, y)]: NaN if either is NaN; -0 is smaller than +0. *)
Definition Math_min (x y : float) : float :=
  if PrimFloat.is_nan x || PrimFloat.is_nan y then PrimFloat.nan
  else if PrimFloat.ltb x y then x
  else if PrimFloat.ltb y x then y
  else if PrimFloat.get_sign x then x else y.

(** [floor(m * 2^e * 100 + 1/2)]: the integer [n] for which [n / 100] is
    closest to [m * 2^e], the larger one on a tie
    (Number.prototype.toFixed, step "let n be an integer for which
    n / 10^f - x is as close to zero as possible"). *)
Definition hundredths (m : positive) (e : Z) : Z :=
  match e with
  | Zneg k => Z.shiftr (200 * Zpos m + 2 ^ Zpos k) (Zpos k + 1)
  | _ => 100 * Zpos m * 2 ^ e
  end.

(** Whether [m * 2^e >= 10^21], where toFixed falls back to ToString. *)
Definition at_least_1e21 (m : positive) (e : Z) : bool :=
  match e with
  | Zneg k => (10 ^ 21 * 2 ^ Zpos k <=? Zpos m)%Z
  | _ => (10 ^ 21 <=? Zpos m * 2 ^ e)%Z
  end.

(** [Number(x.toFixed(2))]: the binary64 value nearest to the decimal
    with two fraction digits nearest to [x]. *)
Definition toFixed2 (x : float) : float :=
  match Prim2SF x with
  | S754_finite s m e =>
      if at_least_1e21 m e then x
      else match hundredths m e with
           | Zpos n =>
               SF2Prim (SF64div (S754_finite s n 0) (S754_finite false 100 0))
           | _ => if s then PrimFloat.neg_zero else PrimFloat.zero
           end
  | S754_zero _ => PrimFloat.zero
  | _ => x
  end.

Definition of_length (n : nat) : float :=
  PrimFloat.of_uint63 (Uint63.of_Z (Z.of_nat n)).

End JS.

#[export] Instance binary64 : Arith float := {|
  zero := PrimFloat.zero;
  eps := 0.01%float;
  neg_eps := (-0.01)%float;
  add := PrimFloat.add;
  sub := PrimFloat.sub;
  div := PrimFloat.div;
  ltb := PrimFloat.ltb;
  abs := PrimFloat.abs;
  min := JS.Math_min;
  of_length := JS.of_length;
  toFixed2 := JS.toFixed2
|}.


(** ** Data model *)

(** A document of the [Expense] collection, as far as the engine reads it.
    Identifiers are the strings [toString()] yields.  Mongoose materialises
    [splitBetween] as an array, so the guard [splitBetween &&] never sees
    [undefined]. *)
Module Expense.
Record t (num : Type) := mk {
  amount : num;
  paidBy : string;
  splitBetween : list string
}.
Arguments mk {num}.
Arguments amount {num}.
Arguments paidBy {num}.
Arguments splitBetween {num}.
End Expense.

(** The object [balances] / [netBalances]: string keys in insertion order,
    which is the order [Object.entries] enumerates them in (identifiers are
    ObjectId strings, never array indices). *)
Definition Balances (num : Type) := list (string * num).

(** An element [{ member, amount }] of [givers] or [receivers]. *)
Module Entry.
Record t (num : Type) := mk { member : string; amount : num }.
Arguments mk {num}.
Arguments member {num}.
Arguments amount {num}.
End Entry.

(** A settlement [{ from, to, amount }] pushed on [results]. *)
Module Edge.
Record t (num : Type) := mk { from : string; to : string; amount : num }.
Arguments mk {num}.
Arguments from {num}.
Arguments to {num}.
Arguments amount {num}.
End Edge.

Section Engine.
Context {num : Type} {A : Arith num}.

(** *** Objects used as maps *)

(** [balances[k]], [undefined] when the key is absent. *)
Fixpoint get (k : string) (b : Balances num) : option num :=
  match b with
  | [] => None
  | (k', v) :: b' => if String.eqb k k' then Some v else get k b'
  end.

(** [balances[k] = v]: overwrite in place, or append a new key. *)
Fixpoint set (k : string) (v : num) (b : Balances num) : Balances num :=
  match b with
  | [] => [(k, v)]
  | (k', v') :: b' =>
      if String.eqb k k' then (k', v) :: b' else (k', v') :: set k v b'
  end.

(** [if (balances[k] !== undefined) balances[k] = f(balances[k])]. *)
Definition update_if_defined (k : string) (f : num -> num) (b : Balances num)
  : Balances num :=
  match get k b with
  | Some v => set k (f v) b
  | None => b
  end.

(** *** calculateNetBalances *)

(** Step 1: [groupMembers.forEach(m => balances[m.toString()] = 0)]. *)
Definition init_balances (groupMembers : list string) : Balances num :=
  fold_left (fun balances memberId => set memberId zero balances)
            groupMembers [].

(** [involvedIds] of one expense. *)
Definition involvedIds (groupMembers : list string) (expense : Expense.t num)
  : list string :=
  match Expense.splitBetween expense with
  | [] => groupMembers
  | ids => ids
  end.

(** The body of [expenses.forEach]. *)
Definition process_expense (groupMembers : list string)
    (balances : Balances num) (expense : Expense.t num) : Balances num :=
  let amount := Expense.amount expense in
  let payerId := Expense.paidBy expense in
  let involved := involvedIds groupMembers expense in
  let splitAmount := div amount (of_length (length involved)) in
  let balances := update_if_defined payerId (fun v => add v amount) balances in
  fold_left (fun balances id =>
               update_if_defined id (fun v => sub v splitAmount) balances)
            involved balances.

Definition calculateNetBalances (expenses : list (Expense.t num))
    (groupMembers : list string) : Balances num :=
  fold_left (process_expense groupMembers) expenses
            (init_balances groupMembers).

(** *** simplifyDebts *)

(** Step 1: the [for ... of Object.entries(netBalances)] loop. *)
Definition separate (netBalances : Balances num)
  : list (Entry.t num) * list (Entry.t num) :=
  fold_left
    (fun '(givers, receivers) '(member, amount) =>
       if ltb amount neg_eps then (givers ++ [Entry.mk member amount], receivers)
       else if ltb eps amount then (givers, receivers ++ [Entry.mk member amount])
       else (givers, receivers))
    netBalances ([], []).

(** Step 2: [Array.prototype.sort(comparefn)].  The sort is stable, and
    for a comparator that orders its arguments consistently the result
    does not depend on the engine's algorithm; it is written here as an
    insertion sort, an element moving behind another only when
    [comparefn] of the two is positive. *)
Fixpoint insert_sorted (comparefn : Entry.t num -> Entry.t num -> num)
    (x : Entry.t num) (l : list (Entry.t num)) : list (Entry.t num) :=
  match l with
  | [] => [x]
  | y :: l' =>
      if ltb zero (comparefn x y) then y :: insert_sorted comparefn x l'
      else x :: l
  end.

Definition sort (comparefn : Entry.t num -> Entry.t num -> num)
    (l : list (Entry.t num)) : list (Entry.t num) :=
  fold_right (insert_sorted comparefn) [] l.

Definition ascending (a b : Entry.t num) : num :=
  sub (Entry.amount a) (Entry.amount b).
Definition descending (a b : Entry.t num) : num :=
  sub (Entry.amount b) (Entry.amount a).

(** Step 3: the variables of the matching loop.  [netBalances] is part of
    the state: it stays in scope and the loop could write to it. *)
Record State := mkState {
  netBalances : Balances num;
  givers : list (Entry.t num);
  receivers : list (Entry.t num);
  results : list (Edge.t num);
  giverIdx : nat;
  receiverIdx : nat
}.

(** The loop condition
    [giverIdx < givers.length && receiverIdx < receivers.length]. *)
Definition running (st : State) : bool :=
  (giverIdx st <? length (givers st))%nat
  && (receiverIdx st <? length (receivers st))%nat.

(** One iteration of the loop body.  [giver] and [receiver] are distinct
    objects, each held by one array only, so the two assignments to
    [.amount] are the two array updates. *)
Definition step (st : State) : State :=
  match givers st !! giverIdx st, receivers st !! receiverIdx st with
  | Some giver, Some receiver =>
      let amountToSettle :=
        min (abs (Entry.amount giver)) (Entry.amount receiver) in
      let results' :=
        if ltb eps amountToSettle
        then results st ++
             [Edge.mk (Entry.member giver) (Entry.member receiver)
                      (toFixed2 amountToSettle)]
        else results st in
      let giver' :=
        Entry.mk (Entry.member giver)
                 (add (Entry.amount giver) amountToSettle) in
      let receiver' :=
        Entry.mk (Entry.member receiver)
                 (sub (Entry.amount receiver) amountToSettle) in
      mkState (netBalances st)
              (<[giverIdx st := giver']> (givers st))
              (<[receiverIdx st := receiver']> (receivers st))
              results'
              (if ltb (abs (Entry.amount giver')) eps
               then S (giverIdx st) else giverIdx st)
              (if ltb (Entry.amount receiver') eps
               then S (receiverIdx st) else receiverIdx st)
  | _, _ => st
  end.

(** The [while] loop, with a bound on the number of iterations: [None]
    when the bound is reached with the condition still true. *)
Fixpoint while (fuel : nat) (st : State) : option State :=
  if running st then
    match fuel with
    | O => None
    | S fuel' => while fuel' (step st)
    end
  else Some st.

(** The state on entry to the loop. *)
Definition initial (nb : Balances num) : State :=
  let '(givers, receivers) := separate nb in
  mkState nb (sort ascending givers) (sort descending receivers) [] 0 0.

(** [simplifyDebts(netBalances)], run for at most [fuel] iterations. *)
Definition simplifyDebts (fuel : nat) (nb : Balances num)
  : option (list (Edge.t num)) :=
  option_map results (while fuel (initial nb)).

End Engine.

Arguments State : clear implicits.

Definition keys {num : Type} (b : Balances num) : list string := map fst b.

(** ** The specification's reading of the settlement simplifier *)

(** The algorithm of section 4.2 as the specification words it, on the list
    of open debtors and the list of open creditors: partition by the
    thresholds, order by balance, match the two heads, drop a head once it
    is within the tolerance of zero. *)
Module Spec.
Section Spec.
Context {num : Type} {A : Arith num}.

Definition entry (kv : string * num) : Entry.t num :=
  Entry.mk (fst kv) (snd kv).

(** Debtors have a balance below [-eps], creditors one above [+eps]. *)
Definition debtors (nb : Balances num) : list (Entry.t num) :=
  map entry (List.filter (fun kv => ltb (snd kv) neg_eps) nb).
Definition creditors (nb : Balances num) : list (Entry.t num) :=
  map entry (List.filter (fun kv => ltb eps (snd kv)) nb).

(** Stable ordering by balance: [x] goes in front of the first element
    that [goes_first] does not put strictly before it. *)
Fixpoint insert_by (goes_first : num -> num -> bool) (x : Entry.t num)
    (l : list (Entry.t num)) : list (Entry.t num) :=
  match l with
  | [] => [x]
  | y :: l' =>
      if goes_first (Entry.amount y) (Entry.amount x)
      then y :: insert_by goes_first x l'
      else x :: l
  end.
Definition order_by (goes_first : num -> num -> bool)
    (l : list (Entry.t num)) : list (Entry.t num) :=
  fold_right (insert_by goes_first) [] l.

(** Ascending: the smaller balance first.  Descending: the larger first. *)
Definition ascending_by_balance := order_by (fun x y => ltb x y).
Definition descending_by_balance := order_by (fun x y => ltb y x).

Definition within_eps (x : num) : bool := ltb (abs x) eps.

(** The greedy matching loop. *)
Fixpoint matching (fuel : nat) (ds cs : list (Entry.t num))
  : option (list (Edge.t num)) :=
  match ds, cs with
  | d :: ds', c :: cs' =>
      match fuel with
      | O => None
      | S fuel' =>
          let amountToSettle := min (abs (Entry.amount d)) (Entry.amount c) in
          let emitted :=
            if ltb eps amountToSettle
            then [Edge.mk (Entry.member d) (Entry.member c)
                          (toFixed2 amountToSettle)]
            else [] in
          let d' := add (Entry.amount d) amountToSettle in
          let c' := sub (Entry.amount c) amountToSettle in
          let ds'' := if within_eps d' then ds'
                      else Entry.mk (Entry.member d) d' :: ds' in
          let cs'' := if within_eps c' then cs'
                      else Entry.mk (Entry.member c) c' :: cs' in
          option_map (app emitted) (matching fuel' ds'' cs'')
      end
  | _, _ => Some []
  end.

Definition simplifyDebts (fuel : nat) (nb : Balances num)
  : option (list (Edge.t num)) :=
  matching fuel (ascending_by_balance (debtors nb))
                (descending_by_balance (creditors nb)).

End Spec.
End Spec.

(** ** Applying a settlement plan *)

Section Settle.
Context {num : Type} {A : Arith num}.

(** One edge against a balance map: the debtor's balance gains the amount,
    the creditor's loses it. *)
Definition apply_edge (b : Balances num) (e : Edge.t num) : Balances num :=
  update_if_defined (Edge.to e) (fun v => sub v (Edge.amount e))
    (update_if_defined (Edge.from e) (fun v => add v (Edge.amount e)) b).

Definition settle (b : Balances num) (edges : list (Edge.t num))
  : Balances num :=
  fold_left apply_edge edges b.

(** The sum of all entries, added up in key order. *)
Definition total (b : Balances num) : num :=
  fold_left (fun acc kv => add acc (snd kv)) b zero.

End Settle.

Definition members {num : Type} (l : list (Entry.t num)) : list string :=
  map Entry.member l.

Definition no_self_edge {num : Type} (e : Edge.t num) : Prop :=
  Edge.from e <> Edge.to e.

(** A map of finite binary64 balances: no NaN and no infinity. *)
Definition all_finite (nb : Balances float) : Prop :=
  List.Forall (fun kv => PrimFloat.is_finite (snd kv) = true) nb.

(** ** Objects used as maps: reading after writing *)

Section MapFacts.
Context {num : Type} {A : Arith num}.
Implicit Types (b : Balances num) (k : string) (v : num).

Lemma get_Some_In_keys b k v : get k b = Some v -> In k (keys b).
Proof.
  induction b as [|[k' v'] b IH]; simpl; [discriminate|].
  destruct (String.eqb_spec k k') as [->|Hne]; auto.
Qed.

Lemma get_None_not_In_keys b k : get k b = None <-> ~ In k (keys b).
Proof.
  induction b as [|[k' v'] b IH]; simpl; [tauto|].
  destruct (String.eqb_spec k k') as [->|Hne].
  - split; [discriminate|]. intros H. exfalso. apply H. now left.
  - rewrite IH. split; [intros H [E|I]; [congruence|auto] | tauto].
Qed.

Lemma In_keys_get b k : In k (keys b) -> exists v, get k b = Some v.
Proof.
  intros HIn. destruct (get k b) as [v|] eqn:E; [eauto|].
  apply get_None_not_In_keys in E. contradiction.
Qed.

Lemma get_set b k k' v :
  get k (set k' v b) = if String.eqb k k' then Some v else get k b.
Proof.
  induction b as [|[k0 v0] b IH]; simpl.
  - destruct (String.eqb_spec k k'); reflexivity.
  - destruct (String.eqb_spec k' k0) as [->|Hne]; simpl.
    + destruct (String.eqb_spec k k0); reflexivity.
    + rewrite IH.
      destruct (String.eqb_spec k k0) as [->|Hne'];
        destruct (String.eqb_spec k0 k'); congruence.
Qed.

Lemma keys_set_present b k v : In k (keys b) -> keys (set k v b) = keys b.
Proof.
  induction b as [|[k0 v0] b IH]; simpl; [tauto|].
  intros HIn. destruct (String.eqb_spec k k0) as [->|Hne]; simpl; [reflexivity|].
  f_equal. apply IH. destruct HIn; congruence.
Qed.

Lemma keys_set_absent b k v : ~ In k (keys b) -> keys (set k v b) = keys b ++ [k].
Proof.
  induction b as [|[k0 v0] b IH]; simpl; [reflexivity|].
  intros HIn. destruct (String.eqb_spec k k0) as [->|Hne]; simpl; [tauto|].
  f_equal. apply IH. tauto.
Qed.

Lemma update_if_defined_absent b k f :
  ~ In k (keys b) -> update_if_defined k f b = b.
Proof.
  intros H. apply get_None_not_In_keys in H.
  unfold update_if_defined. now rewrite H.
Qed.

Lemma keys_update_if_defined b k f : keys (update_if_defined k f b) = keys b.
Proof.
  unfold update_if_defined. destruct (get k b) as [v|] eqn:E; [|reflexivity].
  apply keys_set_present. eapply get_Some_In_keys; eauto.
Qed.

Lemma get_update_if_defined b k k' f :
  get k (update_if_defined k' f b) =
  if String.eqb k k' then option_map f (get k b) else get k b.
Proof.
  unfold update_if_defined. destruct (get k' b) as [v|] eqn:E.
  - rewrite get_set. destruct (String.eqb_spec k k') as [->|]; [|reflexivity].
    now rewrite E.
  - destruct (String.eqb_spec k k') as [->|]; [|reflexivity]. now rewrite E.
Qed.

(** *** The keys of [calculateNetBalances] *)

Lemma keys_fold_update (f : string -> num -> num) ids b :
  keys (fold_left (fun b id => update_if_defined id (f id) b) ids b) = keys b.
Proof.
  revert b. induction ids as [|id ids IH]; intros b; simpl; [reflexivity|].
  now rewrite IH, keys_update_if_defined.
Qed.

Lemma keys_process_expense gm b e : keys (process_expense gm b e) = keys b.
Proof.
  unfold process_expense.
  rewrite (keys_fold_update
             (fun _ v => sub v (div (Expense.amount e)
                                    (of_length (length (involvedIds gm e)))))).
  apply keys_update_if_defined.
Qed.

Lemma keys_fold_process gm es b :
  keys (fold_left (process_expense gm) es b) = keys b.
Proof.
  revert b. induction es as [|e es IH]; intros b; simpl; [reflexivity|].
  now rewrite IH, keys_process_expense.
Qed.

Lemma In_keys_fold_set (gm : list string) b k :
  In k (keys (fold_left (fun b m => set m zero b) gm b)) <->
  In k (keys b) \/ In k gm.
Proof.
  revert b. induction gm as [|m gm IH]; intros b; simpl; [tauto|].
  rewrite IH. destruct (in_dec string_dec m (keys b)) as [Hin|Hout].
  - rewrite keys_set_present by assumption.
    split; [tauto|]. intros [H|[->|H]]; auto.
  - rewrite keys_set_absent, in_app_iff by assumption. simpl. tauto.
Qed.

Lemma NoDup_keys_fold_set (gm : list string) b :
  List.NoDup (keys b) ->
  List.NoDup (keys (fold_left (fun b m => set m zero b) gm b)).
Proof.
  revert b. induction gm as [|m gm IH]; intros b Hb; simpl; [assumption|].
  apply IH. destruct (in_dec string_dec m (keys b)) as [Hin|Hout].
  - now rewrite keys_set_present.
  - rewrite keys_set_absent by assumption.
    apply NoDup_ListNoDup, NoDup_app. repeat split.
    + now apply NoDup_ListNoDup.
    + intros x Hx Hx'. apply list_elem_of_In in Hx.
      apply list_elem_of_singleton in Hx'. congruence.
    + apply NoDup_singleton.
Qed.

Lemma In_keys_calculateNetBalances es gm k :
  In k (keys (calculateNetBalances es gm)) <-> In k gm.
Proof.
  unfold calculateNetBalances, init_balances.
  rewrite keys_fold_process, In_keys_fold_set. simpl. tauto.
Qed.

Lemma NoDup_keys_calculateNetBalances es gm :
  List.NoDup (keys (calculateNetBalances es gm)).
Proof.
  unfold calculateNetBalances, init_balances.
  rewrite keys_fold_process. apply NoDup_keys_fold_set. constructor.
Qed.

Lemma calculateNetBalances_snoc es e gm :
  calculateNetBalances (es ++ [e]) gm =
  process_expense gm (calculateNetBalances es gm) e.
Proof. unfold calculateNetBalances. now rewrite fold_left_app. Qed.

(** *** One expense, read key by key *)

Lemma get_fold_debit (d : num -> num) ids b k :
  get k (fold_left (fun b id => update_if_defined id d b) ids b) =
  option_map (Nat.iter (count_occ string_dec ids k) d) (get k b).
Proof.
  revert b. induction ids as [|id ids IH]; intros b; simpl.
  - now destruct (get k b).
  - rewrite IH, get_update_if_defined.
    destruct (string_dec id k) as [->|Hne].
    + rewrite String.eqb_refl. destruct (get k b); simpl; [|reflexivity].
      f_equal. symmetry. apply Nat.iter_succ_r.
    + destruct (String.eqb_spec k id); congruence.
Qed.

Lemma get_process_expense gm b e k :
  get k (process_expense gm b e) =
  option_map
    (fun v =>
       Nat.iter (count_occ string_dec (involvedIds gm e) k)
         (fun w => sub w (div (Expense.amount e)
                              (of_length (length (involvedIds gm e)))))
         (if String.eqb k (Expense.paidBy e)
          then add v (Expense.amount e) else v))
    (get k b).
Proof.
  unfold process_expense. rewrite get_fold_debit, get_update_if_defined.
  destruct (String.eqb k (Expense.paidBy e)), (get k b); reflexivity.
Qed.

End MapFacts.

(** ** The settlement simplifier: structure *)

Section EngineFacts.
Context {num : Type} {A : Arith num}.
Implicit Types (st : State num) (nb : Balances num).

(** *** Separation *)

Definition is_giver (kv : string * num) : bool := ltb (snd kv) neg_eps.
Definition is_receiver (kv : string * num) : bool :=
  negb (ltb (snd kv) neg_eps) && ltb eps (snd kv).

Lemma separate_from nb g0 r0 :
  fold_left
    (fun '(givers, receivers) '(member, amount) =>
       if ltb amount neg_eps then (givers ++ [Entry.mk member amount], receivers)
       else if ltb eps amount then (givers, receivers ++ [Entry.mk member amount])
       else (givers, receivers))
    nb (g0, r0)
  = (g0 ++ map Spec.entry (List.filter is_giver nb),
     r0 ++ map Spec.entry (List.filter is_receiver nb)).
Proof.
  revert g0 r0. induction nb as [|[k v] nb IH]; intros g0 r0; simpl.
  - now rewrite !app_nil_r.
  - unfold is_giver, is_receiver; simpl.
    destruct (ltb v neg_eps); simpl.
    + rewrite IH. now rewrite <- app_assoc.
    + destruct (ltb eps v); simpl; rewrite IH; [|reflexivity].
      now rewrite <- app_assoc.
Qed.

Lemma separate_filter nb :
  separate nb = (map Spec.entry (List.filter is_giver nb),
                 map Spec.entry (List.filter is_receiver nb)).
Proof. unfold separate. now rewrite separate_from. Qed.

Lemma members_entries (l : Balances num) : members (map Spec.entry l) = keys l.
Proof. unfold members, keys. rewrite map_map. reflexivity. Qed.

(** *** Sorting *)

Lemma insert_sorted_perm cmp x l : Permutation (insert_sorted cmp x l) (x :: l).
Proof.
  induction l as [|y l IH]; simpl; [reflexivity|].
  destruct (ltb zero (cmp x y)); [|reflexivity].
  rewrite IH. apply perm_swap.
Qed.

Lemma sort_perm cmp l : Permutation (sort cmp l) l.
Proof.
  induction l as [|x l IH]; simpl; [reflexivity|].
  rewrite insert_sorted_perm. now constructor.
Qed.

Lemma length_sort cmp l : length (sort cmp l) = length l.
Proof. apply Permutation_length, sort_perm. Qed.

Lemma In_members_sort cmp l k : In k (members (sort cmp l)) <-> In k (members l).
Proof.
  unfold members. split; apply Permutation_in, Permutation_map;
    [|symmetry]; apply sort_perm.
Qed.

(** *** The initial state *)

Lemma givers_initial nb :
  givers (initial nb) = sort ascending (map Spec.entry (List.filter is_giver nb)).
Proof. unfold initial. now rewrite separate_filter. Qed.

Lemma receivers_initial nb :
  receivers (initial nb) =
  sort descending (map Spec.entry (List.filter is_receiver nb)).
Proof. unfold initial. now rewrite separate_filter. Qed.

Lemma results_initial nb : results (initial nb) = [].
Proof. unfold initial. now rewrite separate_filter. Qed.

Lemma giverIdx_initial nb : giverIdx (initial nb) = 0.
Proof. unfold initial. now rewrite separate_filter. Qed.

Lemma receiverIdx_initial nb : receiverIdx (initial nb) = 0.
Proof. unfold initial. now rewrite separate_filter. Qed.

(** *** One iteration *)

Lemma running_lookup st :
  running st = true <->
  exists g r, givers st !! giverIdx st = Some g
              /\ receivers st !! receiverIdx st = Some r.
Proof.
  unfold running. rewrite andb_true_iff, !Nat.ltb_lt. split.
  - intros [Hg Hr].
    apply lookup_lt_is_Some_2 in Hg as [g Hg].
    apply lookup_lt_is_Some_2 in Hr as [r Hr]. eauto.
  - intros (g & r & Hg & Hr). split; eapply lookup_lt_Some; eauto.
Qed.

Lemma step_not_running st : running st = false -> step st = st.
Proof.
  intros H. unfold step.
  destruct (givers st !! giverIdx st) as [g|] eqn:Hg; [|reflexivity].
  destruct (receivers st !! receiverIdx st) as [r|] eqn:Hr; [|reflexivity].
  assert (running st = true) by (apply running_lookup; eauto). congruence.
Qed.

Lemma members_insert_same (l : list (Entry.t num)) i g x :
  l !! i = Some g -> members (<[i := Entry.mk (Entry.member g) x]> l) = members l.
Proof.
  revert i. induction l as [|y l IH]; intros [|i]; simpl; try discriminate.
  - now intros [= ->].
  - intros H. f_equal. now apply IH.
Qed.

Lemma members_givers_step st : members (givers (step st)) = members (givers st).
Proof.
  unfold step. destruct (givers st !! giverIdx st) as [g|] eqn:Hg; [|reflexivity].
  destruct (receivers st !! receiverIdx st); [|reflexivity].
  simpl. now apply members_insert_same.
Qed.

Lemma members_receivers_step st :
  members (receivers (step st)) = members (receivers st).
Proof.
  unfold step. destruct (givers st !! giverIdx st) as [g|] eqn:Hg; [|reflexivity].
  destruct (receivers st !! receiverIdx st) as [r|] eqn:Hr; [|reflexivity].
  simpl. now apply members_insert_same.
Qed.

Lemma length_givers_step st : length (givers (step st)) = length (givers st).
Proof.
  rewrite <- (length_map Entry.member (givers (step st))).
  fold (members (givers (step st))). rewrite members_givers_step.
  apply length_map.
Qed.

Lemma length_receivers_step st :
  length (receivers (step st)) = length (receivers st).
Proof.
  rewrite <- (length_map Entry.member (receivers (step st))).
  fold (members (receivers (step st))). rewrite members_receivers_step.
  apply length_map.
Qed.

(** Every edge goes from a giver to a receiver. *)
Definition edges_between (st : State num) : Prop :=
  List.Forall (fun e => In (Edge.from e) (members (givers st))
                        /\ In (Edge.to e) (members (receivers st)))
              (results st).

Lemma In_members_lookup (l : list (Entry.t num)) i g :
  l !! i = Some g -> In (Entry.member g) (members l).
Proof.
  intros H. unfold members. apply in_map, list_elem_of_In.
  eapply list_elem_of_lookup_2; eauto.
Qed.

Lemma edges_between_step st : edges_between st -> edges_between (step st).
Proof.
  unfold edges_between. intros H.
  rewrite members_givers_step, members_receivers_step.
  unfold step. destruct (givers st !! giverIdx st) as [g|] eqn:Hg; [|assumption].
  destruct (receivers st !! receiverIdx st) as [r|] eqn:Hr; [|assumption].
  simpl. destruct (ltb eps _); [|assumption].
  apply Forall_app. split; [assumption|].
  constructor; [|constructor]. simpl.
  split; eapply In_members_lookup; eauto.
Qed.

(** *** The loop *)

Lemma while_unfold fuel st :
  while fuel st
  = if running st
    then match fuel with
         | O => None
         | S fuel' => while fuel' (step st)
         end
    else Some st.
Proof. now destruct fuel. Qed.

Lemma while_more_fuel fuel fuel' st st' :
  while fuel st = Some st' -> fuel <= fuel' -> while fuel' st = Some st'.
Proof.
  revert fuel' st. induction fuel as [|fuel IH]; intros fuel' st; simpl.
  - destruct (running st) eqn:Hr; [discriminate|].
    intros H _. destruct fuel'; simpl; now rewrite Hr.
  - destruct (running st) eqn:Hr.
    + intros H Hle. destruct fuel' as [|fuel']; [lia|]. simpl. rewrite Hr.
      apply IH; [assumption|lia].
    + intros H _. destruct fuel'; simpl; now rewrite Hr.
Qed.

(** What one iteration preserves, the whole loop preserves. *)
Lemma while_invariant (P : State num -> Prop) :
  (forall st, P st -> P (step st)) ->
  forall fuel st st', P st -> while fuel st = Some st' ->
                      P st' /\ running st' = false.
Proof.
  intros Hstep. induction fuel as [|fuel IH]; intros st st' HP; simpl;
    destruct (running st) eqn:Hr; try discriminate.
  - intros [= <-]. auto.
  - intros H. eapply IH; [|eassumption]. auto.
  - intros [= <-]. auto.
Qed.

Lemma simplifyDebts_while fuel nb edges :
  simplifyDebts fuel nb = Some edges <->
  exists st, while fuel (initial nb) = Some st /\ results st = edges.
Proof.
  unfold simplifyDebts. destruct (while fuel (initial nb)) as [st|]; simpl.
  - split; [intros [= <-]; eauto | intros (s & [= <-] & <-); reflexivity].
  - split; [discriminate | intros (s & H & _); discriminate].
Qed.

(** *** Givers and receivers are different participants *)

Lemma giver_not_receiver kv : is_giver kv = true -> is_receiver kv = false.
Proof. unfold is_giver, is_receiver. now intros ->. Qed.

Lemma keys_filter_disjoint nb k :
  List.NoDup (keys nb) ->
  In k (keys (List.filter is_giver nb)) ->
  In k (keys (List.filter is_receiver nb)) -> False.
Proof.
  unfold keys. induction nb as [|[k0 v0] nb IH]; simpl; [tauto|].
  intros Hnd. inversion Hnd as [|? ? Hnotin Hnd']; subst.
  assert (Hsub : forall f k', In k' (map fst (List.filter f nb)) -> In k' (map fst nb)).
  { intros f k' H. apply in_map_iff in H as ([k1 v1] & <- & H).
    apply List.filter_In in H as [H _]. apply in_map_iff. now exists (k1, v1). }
  destruct (is_giver (k0, v0)) eqn:Hg.
  - rewrite (giver_not_receiver _ Hg). simpl. intros [->|H1] H2.
    + apply Hnotin. eapply Hsub; eauto.
    + eapply IH; eauto.
  - destruct (is_receiver (k0, v0)); simpl.
    + intros H1 [->|H2]; [apply Hnotin; eapply Hsub; eauto | eapply IH; eauto].
    + apply IH; assumption.
Qed.

Lemma In_givers_initial nb g :
  In g (givers (initial nb)) ->
  In (Entry.member g, Entry.amount g) nb
  /\ is_giver (Entry.member g, Entry.amount g) = true.
Proof.
  rewrite givers_initial. intros H.
  apply (Permutation_in _ (sort_perm _ _)) in H.
  apply in_map_iff in H as ([k v] & <- & H). now apply List.filter_In in H.
Qed.

Lemma In_receivers_initial nb r :
  In r (receivers (initial nb)) ->
  In (Entry.member r, Entry.amount r) nb
  /\ is_receiver (Entry.member r, Entry.amount r) = true.
Proof.
  rewrite receivers_initial. intros H.
  apply (Permutation_in _ (sort_perm _ _)) in H.
  apply in_map_iff in H as ([k v] & <- & H). now apply List.filter_In in H.
Qed.

Lemma initial_disjoint nb k :
  List.NoDup (keys nb) ->
  In k (members (givers (initial nb))) ->
  In k (members (receivers (initial nb))) -> False.
Proof.
  rewrite givers_initial, receivers_initial, !In_members_sort, !members_entries.
  apply keys_filter_disjoint.
Qed.

Lemma classified_le_length nb :
  length (givers (initial nb)) + length (receivers (initial nb)) <= length nb.
Proof.
  rewrite givers_initial, receivers_initial, !length_sort, !length_map.
  induction nb as [|kv nb IH]; cbn [List.filter length]; [lia|].
  destruct (is_giver kv) eqn:E.
  - rewrite (giver_not_receiver _ E). cbn [length]. lia.
  - destruct (is_receiver kv); cbn [length]; lia.
Qed.

(** *** Every state the loop goes through *)

Lemma iter_step_S n st : Nat.iter (S n) step st = Nat.iter n step (step st).
Proof. apply Nat.iter_succ_r. Qed.

Lemma while_iter fuel : forall st st',
    while fuel st = Some st' -> exists n, st' = Nat.iter n step st.
Proof.
  induction fuel as [|fuel IH]; intros st st'; simpl;
    destruct (running st); try discriminate.
  - intros [= <-]. now exists 0.
  - intros H. apply IH in H as [n ->]. exists (S n).
    symmetry. apply iter_step_S.
  - intros [= <-]. now exists 0.
Qed.

Lemma iter_invariant (P : State num -> Prop) :
  (forall st, P st -> P (step st)) ->
  forall n st, P st -> P (Nat.iter n step st).
Proof. intros Hstep. induction n as [|n IH]; intros st HP; simpl; auto. Qed.

Lemma no_self_edges_iter nb n :
  List.NoDup (keys nb) ->
  List.Forall no_self_edge (results (Nat.iter n step (initial nb))).
Proof.
  intros Hnd.
  pose (P := fun st : State num =>
               edges_between st
               /\ members (givers st) = members (givers (initial nb))
               /\ members (receivers st) = members (receivers (initial nb))).
  assert (HP : P (Nat.iter n step (initial nb))).
  { apply iter_invariant.
    - intros st (H1 & H2 & H3). repeat split.
      + now apply edges_between_step.
      + now rewrite members_givers_step.
      + now rewrite members_receivers_step.
    - repeat split. unfold edges_between. rewrite results_initial. constructor. }
  destruct HP as (H1 & H2 & H3). unfold edges_between in H1.
  rewrite H2, H3 in H1. eapply List.Forall_impl; [|exact H1].
  intros e [Hf Ht] Heq. unfold no_self_edge in *. rewrite Heq in Hf.
  eapply initial_disjoint; eauto.
Qed.

(** *** Transactions that name nobody on the roster *)

Lemma fold_update_absent (f : num -> num) ids (b : Balances num) :
  (forall id, In id ids -> ~ In id (keys b)) ->
  fold_left (fun b id => update_if_defined id f b) ids b = b.
Proof.
  induction ids as [|id ids IH]; intros H; simpl; [reflexivity|].
  rewrite update_if_defined_absent by (apply H; now left).
  apply IH. intros id' Hin. apply H. now right.
Qed.

Lemma process_expense_off_roster gm (b : Balances num) e :
  ~ In (Expense.paidBy e) (keys b) ->
  (forall id, In id (involvedIds gm e) -> ~ In id (keys b)) ->
  process_expense gm b e = b.
Proof.
  intros Hp Hi. unfold process_expense.
  rewrite update_if_defined_absent by assumption.
  now apply fold_update_absent.
Qed.

End EngineFacts.

(** ** The source against the specification's wording *)

(** What the comparison needs of the arithmetic: a difference is positive
    exactly when its first operand is the larger one; what is left of a
    creditor's balance after a settlement is not negative, so the source's
    one-sided test [receiver.amount < 0.01] is the two-sided one; and no
    balance is below [-eps] and above [+eps] at once. *)
Class ArithLaws {num : Type} (A : Arith num) : Prop := {
  sub_positive : forall x y, ltb zero (sub x y) = ltb y x;
  remainder_within : forall g r,
      ltb (sub r (min (abs g) r)) eps = ltb (abs (sub r (min (abs g) r))) eps;
  thresholds_exclusive : forall x, ltb x neg_eps = true -> ltb eps x = false
}.

Section Refinement.
Context {num : Type} {A : Arith num} {L : ArithLaws A}.
Implicit Types (st : State num) (nb : Balances num).

Lemma sort_ascending l : sort ascending l = Spec.ascending_by_balance l.
Proof.
  unfold sort, Spec.ascending_by_balance, Spec.order_by.
  induction l as [|x l IH]; simpl; [reflexivity|]. rewrite IH.
  generalize (fold_right (Spec.insert_by (fun x y => ltb x y)) [] l).
  intros s. induction s as [|y s IHs]; simpl; [reflexivity|].
  unfold ascending at 1. rewrite sub_positive, IHs. reflexivity.
Qed.

Lemma sort_descending l : sort descending l = Spec.descending_by_balance l.
Proof.
  unfold sort, Spec.descending_by_balance, Spec.order_by.
  induction l as [|x l IH]; simpl; [reflexivity|]. rewrite IH.
  generalize (fold_right (Spec.insert_by (fun x y => ltb y x)) [] l).
  intros s. induction s as [|y s IHs]; simpl; [reflexivity|].
  unfold descending at 1. rewrite sub_positive, IHs. reflexivity.
Qed.

Lemma is_receiver_creditor kv : is_receiver kv = ltb eps (snd kv).
Proof.
  unfold is_receiver. destruct (ltb (snd kv) neg_eps) eqn:E; simpl; [|reflexivity].
  symmetry. now apply thresholds_exclusive.
Qed.

Lemma initial_spec nb :
  givers (initial nb) = Spec.ascending_by_balance (Spec.debtors nb)
  /\ receivers (initial nb) = Spec.descending_by_balance (Spec.creditors nb).
Proof.
  rewrite givers_initial, receivers_initial, sort_ascending, sort_descending.
  split; [reflexivity|]. unfold Spec.creditors. do 2 f_equal.
  apply List.filter_ext. intros kv. apply is_receiver_creditor.
Qed.

(** The arrays from the two indices on are the specification's two lists. *)
Lemma while_matching fuel st :
  option_map results (while fuel st) =
  option_map (app (results st))
    (Spec.matching fuel (drop (giverIdx st) (givers st))
                        (drop (receiverIdx st) (receivers st))).
Proof.
  revert st. induction fuel as [|fuel IH]; intros st.
  - simpl. destruct (running st) eqn:Hr.
    + apply running_lookup in Hr as (g & r & Hg & Hr).
      rewrite (drop_S _ _ _ Hg), (drop_S _ _ _ Hr). reflexivity.
    + unfold running in Hr. apply andb_false_iff in Hr.
      rewrite !Nat.ltb_ge in Hr. destruct Hr as [Hr|Hr].
      * rewrite (drop_ge (givers st)) by assumption. simpl.
        now rewrite app_nil_r.
      * rewrite (drop_ge (receivers st)) by assumption.
        destruct (drop _ (givers st)); simpl; now rewrite app_nil_r.
  - simpl. destruct (running st) eqn:Hrun.
    + rewrite IH. apply running_lookup in Hrun as (g & r & Hg & Hr).
      rewrite (drop_S _ _ _ Hg), (drop_S _ _ _ Hr).
      unfold step. rewrite Hg, Hr. cbn [givers receivers results giverIdx receiverIdx].
      cbn [Spec.matching].
      set (a := min (abs (Entry.amount g)) (Entry.amount r)).
      unfold Spec.within_eps.
      assert (Hrem : ltb (sub (Entry.amount r) a) eps
                     = ltb (abs (sub (Entry.amount r) a)) eps)
        by apply remainder_within.
      cbn [Entry.amount]. rewrite <- Hrem.
      assert (HG : drop (if ltb (abs (add (Entry.amount g) a)) eps
                         then S (giverIdx st) else giverIdx st)
                        (<[giverIdx st := Entry.mk (Entry.member g)
                                            (add (Entry.amount g) a)]> (givers st))
                   = if ltb (abs (add (Entry.amount g) a)) eps
                     then drop (S (giverIdx st)) (givers st)
                     else Entry.mk (Entry.member g) (add (Entry.amount g) a)
                            :: drop (S (giverIdx st)) (givers st)).
      { destruct (ltb (abs (add (Entry.amount g) a)) eps).
        - apply drop_insert_lt. lia.
        - erewrite drop_S; [rewrite drop_insert_lt by lia; reflexivity|].
          apply list_lookup_insert_eq. eapply lookup_lt_Some; eauto. }
      assert (HR : drop (if ltb (sub (Entry.amount r) a) eps
                         then S (receiverIdx st) else receiverIdx st)
                        (<[receiverIdx st := Entry.mk (Entry.member r)
                                            (sub (Entry.amount r) a)]> (receivers st))
                   = if ltb (sub (Entry.amount r) a) eps
                     then drop (S (receiverIdx st)) (receivers st)
                     else Entry.mk (Entry.member r) (sub (Entry.amount r) a)
                            :: drop (S (receiverIdx st)) (receivers st)).
      { destruct (ltb (sub (Entry.amount r) a) eps).
        - apply drop_insert_lt. lia.
        - erewrite drop_S; [rewrite drop_insert_lt by lia; reflexivity|].
          apply list_lookup_insert_eq. eapply lookup_lt_Some; eauto. }
      rewrite HG, HR.
      destruct (Spec.matching fuel _ _) as [edges|]; simpl; [|reflexivity].
      destruct (ltb eps a); simpl; [now rewrite <- app_assoc | reflexivity].
    + unfold running in Hrun. apply andb_false_iff in Hrun.
      rewrite !Nat.ltb_ge in Hrun. destruct Hrun as [Hr|Hr].
      * rewrite (drop_ge (givers st)) by assumption. simpl.
        now rewrite app_nil_r.
      * rewrite (drop_ge (receivers st)) by assumption.
        destruct (drop _ (givers st)); simpl; now rewrite app_nil_r.
Qed.

Lemma simplifyDebts_refines fuel nb :
  simplifyDebts fuel nb = Spec.simplifyDebts fuel nb.
Proof.
  unfold simplifyDebts, Spec.simplifyDebts. rewrite while_matching.
  destruct (initial_spec nb) as [<- <-].
  rewrite results_initial, giverIdx_initial, receiverIdx_initial. simpl.
  now destruct (Spec.matching _ _ _).
Qed.

End Refinement.

(** ** binary64 arithmetic: what the matching loop relies on *)

(** Facts about the specification of binary64 operations ([SpecFloat]):
    rounding keeps the sign of what it rounds, does not turn a non-zero
    quantity whose exponent is in range into zero, and the order of two
    finite numbers is the order of their mantissas once aligned. *)
Module SF.
Local Open Scope Z_scope.

(** Results with the sign [sx]: anything but NaN. *)
Definition signed (sx : bool) (r : spec_float) : Prop :=
  match r with
  | S754_zero s | S754_infinity s | S754_finite s _ _ => s = sx
  | S754_nan => False
  end.

Definition nonzero (r : spec_float) : Prop :=
  match r with
  | S754_infinity _ | S754_finite _ _ _ => True
  | _ => False
  end.

Lemma iter_pos_invariant {T : Type} (P : T -> Prop) (f : T -> T) :
  (forall x, P x -> P (f x)) -> forall n x, P x -> P (SpecFloat.iter_pos f n x).
Proof.
  intros Hf. induction n as [n IH|n IH|]; intros x Hx; simpl; auto.
Qed.

Lemma shr_1_nonneg mrs : 0 <= shr_m mrs -> 0 <= shr_m (shr_1 mrs).
Proof. destruct mrs as [[|[p|p|]|[p|p|]] r s]; cbn [shr_1 shr_m]; lia. Qed.

Lemma shr_1_half mrs k : 0 <= k -> 2 * k <= shr_m mrs -> k <= shr_m (shr_1 mrs).
Proof. destruct mrs as [[|[p|p|]|[p|p|]] r s]; cbn [shr_1 shr_m]; lia. Qed.

Lemma pow2_xI n : 2 ^ Zpos n~1 = 2 * (2 ^ Zpos n * 2 ^ Zpos n).
Proof.
  replace (Zpos n~1) with (Zpos n + Zpos n + 1) by lia.
  rewrite !Z.pow_add_r by lia. lia.
Qed.

Lemma pow2_xO n : 2 ^ Zpos n~0 = 2 ^ Zpos n * 2 ^ Zpos n.
Proof.
  replace (Zpos n~0) with (Zpos n + Zpos n) by lia.
  now rewrite !Z.pow_add_r by lia.
Qed.

Lemma iter_shr_1_lower n : forall mrs k,
    0 <= k -> 2 ^ Zpos n * k <= shr_m mrs -> k <= shr_m (SpecFloat.iter_pos shr_1 n mrs).
Proof.
  induction n as [n IH|n IH|]; intros mrs k Hk H; simpl.
  - assert (0 < 2 ^ Zpos n) by (apply Z.pow_pos_nonneg; lia).
    rewrite pow2_xI in H.
    apply IH; [assumption|]. apply IH; [nia|]. apply shr_1_half; nia.
  - assert (0 < 2 ^ Zpos n) by (apply Z.pow_pos_nonneg; lia).
    rewrite pow2_xO in H.
    apply IH; [assumption|]. apply IH; nia.
  - apply shr_1_half; [assumption|]. change (2 ^ 1) with 2 in H. lia.
Qed.

Lemma shr_record_of_loc_m m l : shr_m (shr_record_of_loc m l) = m.
Proof. destruct l as [|[]]; reflexivity. Qed.

Lemma shr_fexp_nonneg m e l : 0 <= m -> 0 <= shr_m (fst (shr_fexp prec emax m e l)).
Proof.
  intros Hm. unfold shr_fexp, shr.
  destruct (fexp prec emax (Zdigits2 m + e) - e) as [|n|n]; simpl;
    rewrite ?shr_record_of_loc_m; try assumption.
  apply (iter_pos_invariant (fun r => 0 <= shr_m r)).
  - apply shr_1_nonneg.
  - now rewrite shr_record_of_loc_m.
Qed.

Lemma round_nearest_even_bounds m l :
  m <= round_nearest_even m l <= m + 1.
Proof. destruct l as [|[]]; simpl; try lia. destruct (Z.even m); lia. Qed.

Lemma binary_round_aux_signed sx mx ex lx :
  0 <= mx -> signed sx (binary_round_aux prec emax sx mx ex lx).
Proof.
  intros Hm. unfold binary_round_aux.
  pose proof (shr_fexp_nonneg mx ex lx Hm) as H1.
  destruct (shr_fexp prec emax mx ex lx) as [mrs' e']. simpl in H1.
  pose proof (round_nearest_even_bounds (shr_m mrs') (loc_of_shr_record mrs')) as Hr.
  pose proof (shr_fexp_nonneg (round_nearest_even (shr_m mrs') (loc_of_shr_record mrs'))
                e' loc_Exact ltac:(lia)) as H2.
  destruct (shr_fexp prec emax _ e' loc_Exact) as [mrs'' e'']. simpl in H2.
  destruct (shr_m mrs'') as [|p|p]; [reflexivity| |lia].
  destruct (e'' <=? emax - prec); reflexivity.
Qed.

Lemma binary_round_signed sx mx ex : signed sx (binary_round prec emax sx mx ex).
Proof.
  unfold binary_round. destruct (shl_align _ _ _) as [mz ez].
  apply binary_round_aux_signed. lia.
Qed.

Lemma binary_normalize_pos m e : 0 < m -> signed false (binary_normalize prec emax m e false).
Proof. destruct m; simpl; try lia. intros _. apply binary_round_signed. Qed.

Lemma binary_normalize_neg m e : m < 0 -> signed true (binary_normalize prec emax m e false).
Proof. destruct m; simpl; try lia. intros _. apply binary_round_signed. Qed.


(** *** No underflow to zero *)

Lemma digits2_pos_bounds m :
  2 ^ (Zpos (digits2_pos m) - 1) <= Zpos m < 2 ^ Zpos (digits2_pos m).
Proof.
  induction m as [m IH|m IH|]; simpl digits2_pos.
  - rewrite Pos2Z.inj_succ.
    replace (Z.succ (Zpos (digits2_pos m)) - 1) with (Zpos (digits2_pos m) - 1 + 1) by lia.
    rewrite Z.pow_succ_r, Z.pow_add_r by lia. change (2 ^ 1) with 2. lia.
  - rewrite Pos2Z.inj_succ.
    replace (Z.succ (Zpos (digits2_pos m)) - 1) with (Zpos (digits2_pos m) - 1 + 1) by lia.
    rewrite Z.pow_succ_r, Z.pow_add_r by lia. change (2 ^ 1) with 2. lia.
  - change (2 ^ (1 - 1)) with 1. change (2 ^ 1) with 2. lia.
Qed.

Lemma fexp_ge_emin k : emin <= fexp prec emax k.
Proof. unfold fexp, SpecFloat.emin. lia. Qed.

Lemma shr_fexp_positive m e l :
  emin <= e ->
  1 <= shr_m (fst (shr_fexp prec emax (Zpos m) e l))
  /\ emin <= snd (shr_fexp prec emax (Zpos m) e l).
Proof.
  intros He. unfold shr_fexp, shr. cbn [Zdigits2].
  destruct (fexp prec emax (Zpos (digits2_pos m) + e) - e) as [|n|n] eqn:En;
    cbn [fst snd]; rewrite ?shr_record_of_loc_m; try lia.
  split.
  - apply iter_shr_1_lower; [lia|]. rewrite shr_record_of_loc_m, Z.mul_1_r.
    pose proof (digits2_pos_bounds m) as [Hd _].
    etransitivity; [|exact Hd]. apply Z.pow_le_mono_r; [lia|].
    revert En He. unfold fexp, SpecFloat.emin, prec, emax. lia.
  - rewrite <- En. pose proof (fexp_ge_emin (Zpos (digits2_pos m) + e)). lia.
Qed.

Lemma binary_round_aux_nonzero sx m e l :
  emin <= e -> nonzero (binary_round_aux prec emax sx (Zpos m) e l).
Proof.
  intros He. unfold binary_round_aux.
  pose proof (shr_fexp_positive m e l He) as [H1 H1'].
  destruct (shr_fexp prec emax (Zpos m) e l) as [mrs' e']. cbn [fst snd] in *.
  pose proof (round_nearest_even_bounds (shr_m mrs') (loc_of_shr_record mrs')) as Hr.
  destruct (round_nearest_even (shr_m mrs') (loc_of_shr_record mrs')) as [|q|q];
    try lia.
  pose proof (shr_fexp_positive q e' loc_Exact H1') as [H2 _].
  destruct (shr_fexp prec emax (Zpos q) e' loc_Exact) as [mrs'' e''].
  cbn [fst] in H2.
  destruct (shr_m mrs'') as [|p|p]; try lia.
  destruct (e'' <=? emax - prec); exact I.
Qed.

Lemma shl_align_exponent m e e' : emin <= e -> emin <= e' -> emin <= snd (shl_align m e e').
Proof. intros. unfold shl_align. destruct (e' - e); simpl; lia. Qed.

Lemma binary_round_nonzero sx m e :
  emin <= e -> nonzero (binary_round prec emax sx m e).
Proof.
  intros He. unfold binary_round.
  pose proof (shl_align_exponent m e (fexp prec emax (Zpos (digits2_pos m) + e)) He
                (fexp_ge_emin _)) as H.
  destruct (shl_align _ _ _) as [mz ez]. now apply binary_round_aux_nonzero.
Qed.

Lemma binary_normalize_nonzero m e :
  m <> 0 -> emin <= e -> nonzero (binary_normalize prec emax m e false).
Proof. destruct m; simpl; [tauto| |]; intros _; apply binary_round_nonzero. Qed.

(** *** Comparison is comparison of the aligned mantissas *)

Lemma shl_align_value m e e' :
  e' <= e -> Zpos (fst (shl_align m e e')) = Zpos m * 2 ^ (e - e').
Proof.
  intros Hle. unfold shl_align. destruct (e' - e) as [|d|d] eqn:E; cbn [fst]; try lia.
  - replace (e - e') with 0 by lia. simpl. lia.
  - replace (e - e') with (Zpos d) by lia.
    change (Pos.iter xO m d) with (shift_pos d m).
    rewrite shift_pos_correct, Z.pow_pos_fold. lia.
Qed.

Lemma bounded_canonical m e :
  bounded prec emax m e = true ->
  e = Z.max (Zpos (digits2_pos m) + e - prec) emin.
Proof.
  unfold bounded, canonical_mantissa, fexp. intros H.
  apply andb_true_iff in H as [H _]. apply Z.eqb_eq in H. lia.
Qed.

Lemma bounded_emin m e : bounded prec emax m e = true -> emin <= e.
Proof. intros H. apply bounded_canonical in H. lia. Qed.

Lemma aligned_compare m1 e1 m2 e2 :
  bounded prec emax m1 e1 = true -> bounded prec emax m2 e2 = true ->
  (Zpos (fst (shl_align m1 e1 (Z.min e1 e2)))
     ?= Zpos (fst (shl_align m2 e2 (Z.min e1 e2))))
  = match e1 ?= e2 with
    | Lt => Lt
    | Gt => Gt
    | Eq => Pos.compare_cont Eq m1 m2
    end.
Proof.
  intros H1 H2. rewrite !shl_align_value by lia.
  apply bounded_canonical in H1, H2.
  pose proof (digits2_pos_bounds m1) as [L1 U1].
  pose proof (digits2_pos_bounds m2) as [L2 U2].
  unfold SpecFloat.emin, prec, emax in H1, H2.
  destruct (Z.compare_spec e1 e2) as [E|E|E].
  - subst e2. rewrite Z.min_id, Z.sub_diag, Z.pow_0_r, !Z.mul_1_r. reflexivity.
  - rewrite Z.min_l, Z.sub_diag, Z.pow_0_r, Z.mul_1_r by lia.
    apply Z.compare_lt_iff.
    assert (D2 : Zpos (digits2_pos m2) = 53) by lia.
    assert (D1 : Zpos (digits2_pos m1) <= 53) by lia.
    rewrite D2 in L2. change (2 ^ (53 - 1)) with 4503599627370496 in L2.
    assert (P1 : 2 ^ Zpos (digits2_pos m1) <= 2 ^ 53)
      by (apply Z.pow_le_mono_r; lia).
    change (2 ^ 53) with 9007199254740992 in P1.
    assert (P : 2 ^ 1 <= 2 ^ (e2 - e1)) by (apply Z.pow_le_mono_r; lia).
    change (2 ^ 1) with 2 in P. nia.
  - rewrite Z.min_r, Z.sub_diag, Z.pow_0_r, Z.mul_1_r by lia.
    apply Z.compare_gt_iff.
    assert (D1 : Zpos (digits2_pos m1) = 53) by lia.
    assert (D2 : Zpos (digits2_pos m2) <= 53) by lia.
    rewrite D1 in L1. change (2 ^ (53 - 1)) with 4503599627370496 in L1.
    assert (P2 : 2 ^ Zpos (digits2_pos m2) <= 2 ^ 53)
      by (apply Z.pow_le_mono_r; lia).
    change (2 ^ 53) with 9007199254740992 in P2.
    assert (P : 2 ^ 1 <= 2 ^ (e1 - e2)) by (apply Z.pow_le_mono_r; lia).
    change (2 ^ 1) with 2 in P. nia.
Qed.

(** The signed mantissa of a finite number at exponent [ez]. *)
Definition mantissa_at (ez : Z) (s : bool) (m : positive) (e : Z) : Z :=
  cond_Zopp s (Zpos (fst (shl_align m e ez))).

Lemma SFcompare_finite s1 m1 e1 s2 m2 e2 :
  bounded prec emax m1 e1 = true -> bounded prec emax m2 e2 = true ->
  SFcompare (S754_finite s1 m1 e1) (S754_finite s2 m2 e2)
  = Some (mantissa_at (Z.min e1 e2) s1 m1 e1 ?= mantissa_at (Z.min e1 e2) s2 m2 e2).
Proof.
  intros H1 H2. pose proof (aligned_compare m1 e1 m2 e2 H1 H2) as HA.
  unfold mantissa_at, SFcompare. destruct s1, s2; cbn [cond_Zopp].
  - f_equal.
    change (- Zpos (fst (shl_align m1 e1 (Z.min e1 e2)))
              ?= - Zpos (fst (shl_align m2 e2 (Z.min e1 e2))))
      with (CompOpp (Zpos (fst (shl_align m1 e1 (Z.min e1 e2)))
                       ?= Zpos (fst (shl_align m2 e2 (Z.min e1 e2))))).
    rewrite HA. now destruct (e1 ?= e2).
  - reflexivity.
  - reflexivity.
  - f_equal. now rewrite HA.
Qed.

Lemma SFsub_finite s1 m1 e1 s2 m2 e2 :
  bounded prec emax m1 e1 = true -> bounded prec emax m2 e2 = true ->
  let r := SFsub prec emax (S754_finite s1 m1 e1) (S754_finite s2 m2 e2) in
  match SFcompare (S754_finite s1 m1 e1) (S754_finite s2 m2 e2) with
  | Some Lt => signed true r /\ nonzero r
  | Some Eq => r = S754_zero false
  | Some Gt => signed false r /\ nonzero r
  | None => False
  end.
Proof.
  intros H1 H2 r. rewrite SFcompare_finite by assumption.
  subst r. unfold SFsub. fold (mantissa_at (Z.min e1 e2) s1 m1 e1).
  fold (mantissa_at (Z.min e1 e2) s2 m2 e2).
  apply bounded_emin in H1, H2.
  destruct (Z.compare_spec (mantissa_at (Z.min e1 e2) s1 m1 e1)
                           (mantissa_at (Z.min e1 e2) s2 m2 e2)) as [E|E|E].
  - rewrite E, Z.sub_diag. reflexivity.
  - split; [apply binary_normalize_neg | apply binary_normalize_nonzero]; lia.
  - split; [apply binary_normalize_pos | apply binary_normalize_nonzero]; lia.
Qed.

Lemma SFadd_finite s1 m1 e1 s2 m2 e2 :
  SFadd prec emax (S754_finite s1 m1 e1) (S754_finite s2 m2 e2)
  = SFsub prec emax (S754_finite s1 m1 e1) (S754_finite (negb s2) m2 e2).
Proof. unfold SFadd, SFsub. f_equal. destruct s2; cbn [negb cond_Zopp]; lia. Qed.

End SF.

(** Facts about JavaScript's numbers: the primitive floats, read through
    the axioms that tie them to [SpecFloat]. *)
Module Binary64.
Import SF.
Local Open Scope Z_scope.

Definition valid (x : spec_float) : Prop := valid_binary x = true.

(** Signs that exclude zero and NaN. *)
Definition strictly_negative (x : spec_float) : Prop :=
  match x with
  | S754_finite true _ _ | S754_infinity true => True
  | _ => False
  end.
Definition strictly_positive (x : spec_float) : Prop :=
  match x with
  | S754_finite false _ _ | S754_infinity false => True
  | _ => False
  end.
Definition finite (x : spec_float) : Prop :=
  match x with
  | S754_finite _ _ _ | S754_zero _ => True
  | _ => False
  end.

Lemma SFcompare_refl x : x <> S754_nan -> SFcompare x x = Some Eq.
Proof.
  destruct x as [[]|[]| |[] m e]; try reflexivity; try congruence; intros _;
    cbn [SFcompare]; now rewrite Z.compare_refl, Pos.compare_cont_refl.
Qed.

Lemma SFcompare_antisym x y :
  valid x -> valid y -> SFcompare y x = option_map CompOpp (SFcompare x y).
Proof.
  unfold valid.
  destruct x as [sx|sx| |sx mx ex], y as [sy|sy| |sy my ey];
    try (destruct sx); try (destruct sy); try reflexivity;
    cbn [valid_binary]; intros Hx Hy;
    rewrite !SFcompare_finite by assumption; cbn [option_map]; f_equal;
    rewrite (Z.min_comm ey ex); apply Z.compare_antisym.
Qed.

Lemma SFcompare_Eq_finite s1 m1 e1 s2 m2 e2 :
  SFcompare (S754_finite s1 m1 e1) (S754_finite s2 m2 e2) = Some Eq ->
  S754_finite s1 m1 e1 = S754_finite s2 m2 e2.
Proof.
  cbn [SFcompare]. destruct s1, s2; try discriminate;
    destruct (Z.compare_spec e1 e2) as [->| |]; try discriminate;
    intros [= H]; f_equal.
  - apply Pos.compare_eq. unfold Pos.compare.
    destruct (Pos.compare_cont Eq m1 m2); simpl in H; congruence.
  - now apply Pos.compare_eq.
Qed.

Lemma SFcompare_neg_neg m1 e1 m2 e2 :
  SFcompare (S754_finite true m1 e1) (S754_finite true m2 e2)
  = option_map CompOpp
      (SFcompare (S754_finite false m1 e1) (S754_finite false m2 e2)).
Proof. cbn [SFcompare option_map]. now destruct (e1 ?= e2)%Z. Qed.

(** *** The primitive operations through their specification *)

Lemma SF_zero : Prim2SF PrimFloat.zero = S754_zero false.
Proof. reflexivity. Qed.

Lemma SF_eps : Prim2SF eps = S754_finite false 5764607523034235 (-59).
Proof. vm_compute. reflexivity. Qed.

Lemma SF_neg_eps : Prim2SF neg_eps = S754_finite true 5764607523034235 (-59).
Proof. vm_compute. reflexivity. Qed.

Lemma is_nan_spec x :
  PrimFloat.is_nan x = match Prim2SF x with S754_nan => true | _ => false end.
Proof.
  unfold PrimFloat.is_nan. rewrite FloatAxioms.eqb_spec. unfold SFeqb.
  destruct (Prim2SF x) as [s|s| |s m e] eqn:E; try reflexivity;
    rewrite SFcompare_refl by discriminate; reflexivity.
Qed.

Lemma is_finite_spec x : PrimFloat.is_finite x = true -> finite (Prim2SF x).
Proof.
  unfold PrimFloat.is_finite, PrimFloat.is_infinity.
  rewrite is_nan_spec, FloatAxioms.eqb_spec, FloatAxioms.abs_spec.
  change (Prim2SF infinity) with (S754_infinity false).
  destruct (Prim2SF x) as [s|s| |s m e]; simpl; try discriminate; auto.
Qed.

Lemma valid_SF x : valid (Prim2SF x).
Proof. apply Prim2SF_valid. Qed.

Lemma valid_SFabs x : valid x -> valid (SFabs x).
Proof. now destruct x. Qed.


(** *** Differences *)

(** The sign of a difference of two finite numbers, from their order. *)
Lemma SFsub_finite_cases x y :
  valid x -> valid y ->
  match x, y with
  | S754_finite _ _ _, S754_finite _ _ _ =>
      match SFcompare x y with
      | Some Lt => strictly_negative (SF64sub x y)
      | Some Eq => SF64sub x y = S754_zero false
      | Some Gt => strictly_positive (SF64sub x y)
      | None => False
      end
  | _, _ => True
  end.
Proof.
  intros Hx Hy. destruct x as [| | |sx mx ex]; try exact I.
  destruct y as [| | |sy my ey]; try exact I.
  pose proof (SFsub_finite sx mx ex sy my ey Hx Hy) as H. cbv zeta in H.
  fold SF64sub in H.
  destruct (SFcompare (S754_finite sx mx ex) (S754_finite sy my ey)) as [[]|];
    try assumption; destruct H as [Hs Hn];
    destruct (SF64sub _ _) as [|[]| |[]]; simpl in *;
    try contradiction; try discriminate; exact I.
Qed.

Lemma SFsub_positive x y :
  valid x -> valid y ->
  SFltb (S754_zero false) (SF64sub x y) = SFltb y x.
Proof.
  intros Hx Hy. unfold SFltb. rewrite (SFcompare_antisym x y Hx Hy).
  pose proof (SFsub_finite_cases x y Hx Hy) as H.
  destruct x as [sx|sx| |sx mx ex], y as [sy|sy| |sy my ey];
    try (destruct sx; destruct sy; reflexivity);
    try (destruct sx; reflexivity); try (destruct sy; reflexivity);
    try reflexivity.
  destruct (SFcompare _ _) as [[]|]; try contradiction.
  - rewrite H. reflexivity.
  - destruct (SF64sub _ _) as [|[]| |[]]; simpl in H; try contradiction; reflexivity.
  - destruct (SF64sub _ _) as [|[]| |[]]; simpl in H; try contradiction; reflexivity.
Qed.

Lemma SFsub_not_negative a r :
  valid a -> valid r -> SFleb a r = true -> ~ strictly_negative (SF64sub r a).
Proof.
  intros Ha Hr. unfold SFleb. rewrite (SFcompare_antisym r a Hr Ha).
  pose proof (SFsub_finite_cases r a Hr Ha) as H.
  destruct r as [sr|sr| |sr mr er], a as [sa|sa| |sa ma ea];
    try solve [destruct sr; destruct sa; simpl; (discriminate || auto)];
    try solve [destruct sr; simpl; (discriminate || auto)];
    try solve [destruct sa; simpl; (discriminate || auto)];
    try solve [simpl; (discriminate || auto)].
  destruct (SFcompare _ _) as [[]|]; try contradiction;
    cbn [CompOpp option_map]; try discriminate; intros _.
  - rewrite H. auto.
  - destruct (SF64sub _ _) as [|[]| |[]]; simpl in *; auto.
Qed.


(** *** [Math.min] *)

Lemma Math_min_cases x y :
  match SFcompare (Prim2SF x) (Prim2SF y) with
  | None => JS.Math_min x y = PrimFloat.nan
  | Some Lt => JS.Math_min x y = x
  | Some Gt => JS.Math_min x y = y
  | Some Eq => JS.Math_min x y = x \/ JS.Math_min x y = y
  end.
Proof.
  unfold JS.Math_min. rewrite !is_nan_spec, !FloatAxioms.ltb_spec. unfold SFltb.
  rewrite (SFcompare_antisym (Prim2SF x) (Prim2SF y)) by apply valid_SF.
  destruct (Prim2SF x) as [sx|sx| |sx mx ex], (Prim2SF y) as [sy|sy| |sy my ey];
    try solve [destruct sx; destruct sy; simpl; destruct (get_sign x); auto];
    try solve [destruct sx; simpl; destruct (get_sign x); auto];
    try solve [destruct sy; simpl; destruct (get_sign x); auto];
    try solve [simpl; destruct (get_sign x); auto].
  cbn [orb]. destruct (SFcompare _ _) as [[]|] eqn:E;
    cbn [CompOpp option_map]; try (destruct (get_sign x)); auto.
  all: destruct sx, sy; discriminate.
Qed.

(** [Math.min(x, y)] is NaN or at most [y]. *)
Lemma Math_min_le x y :
  Prim2SF (JS.Math_min x y) = S754_nan
  \/ SFleb (Prim2SF (JS.Math_min x y)) (Prim2SF y) = true.
Proof.
  pose proof (Math_min_cases x y) as H. unfold SFleb.
  destruct (SFcompare (Prim2SF x) (Prim2SF y)) as [[]|] eqn:E.
  - destruct H as [-> | ->]; [right; now rewrite E|].
    destruct (Prim2SF y) eqn:Ey; try (right; now rewrite SFcompare_refl).
    destruct (Prim2SF x); discriminate.
  - rewrite H. right. now rewrite E.
  - rewrite H.
    destruct (Prim2SF y) eqn:Ey; try (right; now rewrite SFcompare_refl).
    destruct (Prim2SF x); discriminate.
  - rewrite H. now left.
Qed.

(** *** The three laws *)

Lemma difference_positive x y :
  PrimFloat.ltb PrimFloat.zero (PrimFloat.sub x y) = PrimFloat.ltb y x.
Proof.
  rewrite !FloatAxioms.ltb_spec, FloatAxioms.sub_spec, SF_zero.
  apply SFsub_positive; apply valid_SF.
Qed.

Lemma not_negative_abs x :
  ~ strictly_negative (Prim2SF x) ->
  PrimFloat.ltb x eps = PrimFloat.ltb (PrimFloat.abs x) eps.
Proof.
  rewrite !FloatAxioms.ltb_spec, FloatAxioms.abs_spec, SF_eps.
  destruct (Prim2SF x) as [[]|[]| |[] m e]; simpl; tauto.
Qed.

Lemma remainder_not_negative g r :
  ~ strictly_negative (Prim2SF (PrimFloat.sub r (JS.Math_min (PrimFloat.abs g) r))).
Proof.
  rewrite FloatAxioms.sub_spec.
  destruct (Math_min_le (PrimFloat.abs g) r) as [H|H].
  - rewrite H. destruct (Prim2SF r); simpl; tauto.
  - apply SFsub_not_negative; auto using valid_SF.
Qed.

Lemma thresholds_apart x :
  PrimFloat.ltb x neg_eps = true -> PrimFloat.ltb eps x = false.
Proof.
  rewrite !FloatAxioms.ltb_spec, SF_eps, SF_neg_eps.
  destruct (Prim2SF x) as [[]|[]| |[] m e]; intros H;
    first [reflexivity | discriminate H].
Qed.


(** *** One settlement between a debtor and a creditor *)

Lemma SFsub_diag m e s :
  bounded prec emax m e = true ->
  SF64sub (S754_finite s m e) (S754_finite s m e) = S754_zero false.
Proof.
  intros H.
  pose proof (SFsub_finite_cases (S754_finite s m e) (S754_finite s m e) H H) as HC.
  cbv iota in HC. now rewrite SFcompare_refl in HC.
Qed.

Lemma SFsettle G R :
  valid G -> valid R -> strictly_negative G -> strictly_positive R -> finite G \/ finite R ->
  match SFcompare (SFabs G) R with
  | Some Lt =>
      SF64add G (SFabs G) = S754_zero false /\ strictly_positive (SF64sub R (SFabs G))
  | Some Gt =>
      SF64sub R R = S754_zero false /\ strictly_negative (SF64add G R)
  | Some Eq =>
      SFabs G = R /\ SF64add G R = S754_zero false
      /\ SF64sub R R = S754_zero false
  | None => False
  end.
Proof.
  intros HG HR HnG HpR Hfin.
  destruct G as [|[]| |[] mg eg]; try contradiction;
    destruct R as [|[]| |[] mr er]; try contradiction.
  - (* both infinite *) destruct Hfin as [[]|[]].
  - (* an infinite debt, a finite credit *)
    cbn [SFabs SFcompare]. split; [now apply SFsub_diag | exact I].
  - (* a finite debt, an infinite credit *)
    cbn [SFabs SFcompare]. split; [|exact I].
    unfold SF64add. rewrite SFadd_finite. now apply SFsub_diag.
  - (* both finite *)
    cbn [SFabs]. unfold SF64add. rewrite !SFadd_finite. cbn [negb].
    pose proof (SFsub_finite_cases (S754_finite false mr er)
                  (S754_finite false mg eg) HR HG) as H1.
    pose proof (SFsub_finite_cases (S754_finite true mg eg)
                  (S754_finite true mr er) HG HR) as H2.
    cbv iota in H1, H2.
    rewrite SFcompare_neg_neg in H2.
    rewrite (SFcompare_antisym (S754_finite false mg eg)
               (S754_finite false mr er) HG HR) in H1.
    destruct (SFcompare (S754_finite false mg eg) (S754_finite false mr er))
      as [[]|] eqn:E; cbn [option_map CompOpp] in H1, H2.
    + apply SFcompare_Eq_finite in E. injection E as -> ->.
      repeat split; now apply SFsub_diag.
    + split; [now apply SFsub_diag | assumption].
    + split; [now apply SFsub_diag | assumption].
    + assumption.
Qed.

(** The three outcomes of one iteration on a debtor [g] and a creditor
    [r]: the debtor is settled, the creditor is, or both are; the one
    settled holds exactly [+0]. *)
Lemma settle_cases g r :
  strictly_negative (Prim2SF g) -> strictly_positive (Prim2SF r) ->
  finite (Prim2SF g) \/ finite (Prim2SF r) ->
  let a := JS.Math_min (PrimFloat.abs g) r in
  (PrimFloat.add g a = PrimFloat.zero
   /\ (PrimFloat.sub r a = PrimFloat.zero
       \/ strictly_positive (Prim2SF (PrimFloat.sub r a))))
  \/ (PrimFloat.sub r a = PrimFloat.zero
      /\ strictly_negative (Prim2SF (PrimFloat.add g a))).
Proof.
  intros HnG HpR Hfin a.
  pose proof (SFsettle _ _ (valid_SF g) (valid_SF r) HnG HpR Hfin) as H.
  pose proof (Math_min_cases (PrimFloat.abs g) r) as Hmin. fold a in Hmin.
  rewrite FloatAxioms.abs_spec in Hmin.
  assert (Hz : forall x, Prim2SF x = S754_zero false -> x = PrimFloat.zero)
    by (intros x Hx; apply Prim2SF_inj; now rewrite Hx).
  destruct (SFcompare (SFabs (Prim2SF g)) (Prim2SF r)) as [[]|];
    try contradiction.
  - destruct H as (Habs & Hg & Hr).
    assert (Ha : a = r).
    { destruct Hmin as [->| ->]; [|reflexivity].
      apply Prim2SF_inj. now rewrite FloatAxioms.abs_spec. }
    rewrite Ha. left. split; [|left]; apply Hz.
    + now rewrite FloatAxioms.add_spec.
    + now rewrite FloatAxioms.sub_spec.
  - destruct H as (Hg & Hr). rewrite Hmin. left. split.
    + apply Hz. now rewrite FloatAxioms.add_spec, FloatAxioms.abs_spec.
    + right. now rewrite FloatAxioms.sub_spec, FloatAxioms.abs_spec.
  - destruct H as (Hr & Hg). rewrite Hmin. right. split.
    + apply Hz. now rewrite FloatAxioms.sub_spec.
    + now rewrite FloatAxioms.add_spec.
Qed.

(** *** Reading the thresholds *)

Lemma giver_negative x :
  PrimFloat.ltb x neg_eps = true -> strictly_negative (Prim2SF x).
Proof.
  rewrite FloatAxioms.ltb_spec, SF_neg_eps.
  destruct (Prim2SF x) as [[]|[]| |[] m e]; intros H;
    first [exact I | discriminate H].
Qed.

Lemma receiver_positive x :
  PrimFloat.ltb eps x = true -> strictly_positive (Prim2SF x).
Proof.
  rewrite FloatAxioms.ltb_spec, SF_eps.
  destruct (Prim2SF x) as [[]|[]| |[] m e]; intros H;
    first [exact I | discriminate H].
Qed.

Lemma negative_unsettled x :
  strictly_negative (Prim2SF x) \/ x = PrimFloat.zero ->
  PrimFloat.ltb (PrimFloat.abs x) eps = false -> strictly_negative (Prim2SF x).
Proof. intros [H| ->]; [auto|]. vm_compute. discriminate. Qed.

Lemma positive_unsettled x :
  strictly_positive (Prim2SF x) \/ x = PrimFloat.zero ->
  PrimFloat.ltb x eps = false -> strictly_positive (Prim2SF x).
Proof. intros [H| ->]; [auto|]. vm_compute. discriminate. Qed.

End Binary64.

#[export] Instance binary64_laws : ArithLaws binary64.
Proof.
  split.
  - apply Binary64.difference_positive.
  - intros g r. apply Binary64.not_negative_abs, Binary64.remainder_not_negative.
  - apply Binary64.thresholds_apart.
Qed.

(** ** The matching loop on binary64 balances *)

Section Matching64.
Import Binary64.
Implicit Types (st : State float) (nb : Balances float).

(** Debtors from the current one on are negative and creditors positive. *)
Definition signs_kept (st : State float) : Prop :=
  (forall i g, givers st !! i = Some g -> giverIdx st <= i ->
               strictly_negative (Prim2SF (Entry.amount g)))
  /\ (forall j r, receivers st !! j = Some r -> receiverIdx st <= j ->
                  strictly_positive (Prim2SF (Entry.amount r))).

(** The current debtor and creditor are not both infinite. *)
Definition heads_settle (st : State float) : Prop :=
  forall g r,
    givers st !! giverIdx st = Some g ->
    receivers st !! receiverIdx st = Some r ->
    finite (Prim2SF (Entry.amount g)) \/ finite (Prim2SF (Entry.amount r)).

(** Those not reached yet are finite. *)
Definition rest_finite (st : State float) : Prop :=
  (forall i g, givers st !! i = Some g -> giverIdx st < i ->
               finite (Prim2SF (Entry.amount g)))
  /\ (forall j r, receivers st !! j = Some r -> receiverIdx st < j ->
                  finite (Prim2SF (Entry.amount r))).

Definition matching_inv (st : State float) : Prop :=
  signs_kept st /\ rest_finite st /\ heads_settle st.

(** What one iteration does to the indices and to [results]: the entry
    it leaves behind holds exactly [+0]. *)
Definition advances (st st' : State float) : Prop :=
  giverIdx st <= giverIdx st' /\ receiverIdx st <= receiverIdx st'
  /\ length (results st') <= S (length (results st))
  /\ ((giverIdx st' = S (giverIdx st)
       /\ exists g, givers st' !! giverIdx st = Some g
                    /\ Entry.amount g = PrimFloat.zero)
      \/ (receiverIdx st' = S (receiverIdx st)
          /\ exists r, receivers st' !! receiverIdx st = Some r
                       /\ Entry.amount r = PrimFloat.zero)).

Lemma zero_settled :
  PrimFloat.ltb (PrimFloat.abs PrimFloat.zero) eps = true
  /\ PrimFloat.ltb PrimFloat.zero eps = true.
Proof. split; reflexivity. Qed.

(** The iteration written out on the current giver and receiver. *)
Lemma step_running st g r :
  givers st !! giverIdx st = Some g ->
  receivers st !! receiverIdx st = Some r ->
  let a := JS.Math_min (PrimFloat.abs (Entry.amount g)) (Entry.amount r) in
  let g' := PrimFloat.add (Entry.amount g) a in
  let r' := PrimFloat.sub (Entry.amount r) a in
  step st
  = mkState (netBalances st)
      (<[giverIdx st := Entry.mk (Entry.member g) g']> (givers st))
      (<[receiverIdx st := Entry.mk (Entry.member r) r']> (receivers st))
      (if PrimFloat.ltb eps a
       then results st ++ [Edge.mk (Entry.member g) (Entry.member r) (JS.toFixed2 a)]
       else results st)
      (if PrimFloat.ltb (PrimFloat.abs g') eps
       then S (giverIdx st) else giverIdx st)
      (if PrimFloat.ltb r' eps then S (receiverIdx st) else receiverIdx st).
Proof. intros Hg Hr. unfold step. rewrite Hg, Hr. reflexivity. Qed.

Lemma step_signs_kept st :
  signs_kept st -> heads_settle st ->
  signs_kept (step st) /\ (running st = true -> advances st (step st)).
Proof.
  intros [HG HR] HH. destruct (running st) eqn:Hrun.
  2:{ rewrite step_not_running by assumption. split; [now split|discriminate]. }
  apply running_lookup in Hrun as (g & r & Hg & Hr).
  pose proof (HG _ _ Hg (Nat.le_refl _)) as Hneg.
  pose proof (HR _ _ Hr (Nat.le_refl _)) as Hpos.
  pose proof (settle_cases _ _ Hneg Hpos (HH _ _ Hg Hr)) as Hcases.
  cbv zeta in Hcases.
  assert (Hlg := lookup_lt_Some _ _ _ Hg). assert (Hlr := lookup_lt_Some _ _ _ Hr).
  rewrite (step_running st g r Hg Hr). cbv zeta.
  set (a := JS.Math_min (PrimFloat.abs (Entry.amount g)) (Entry.amount r)) in *.
  set (g' := PrimFloat.add (Entry.amount g) a) in *.
  set (r' := PrimFloat.sub (Entry.amount r) a) in *.
  assert (Hg' : strictly_negative (Prim2SF g') \/ g' = PrimFloat.zero) by tauto.
  assert (Hr' : strictly_positive (Prim2SF r') \/ r' = PrimFloat.zero) by tauto.
  assert (Hadv : PrimFloat.ltb (PrimFloat.abs g') eps = true
                 \/ PrimFloat.ltb r' eps = true).
  { destruct Hcases as [[-> _]|[-> _]]; [left|right]; apply zero_settled. }
  assert (Hgz : PrimFloat.ltb r' eps = false -> g' = PrimFloat.zero).
  { intros E. destruct Hcases as [[-> _]|[Hz _]]; [reflexivity|].
    rewrite Hz in E. discriminate E. }
  assert (Hrz : PrimFloat.ltb (PrimFloat.abs g') eps = false -> r' = PrimFloat.zero).
  { intros E. destruct Hcases as [[Hz _]|[-> _]]; [|reflexivity].
    rewrite Hz in E. discriminate E. }
  split.
  - split; cbn [givers receivers giverIdx receiverIdx].
    + intros i x Hx Hi.
      destruct (decide (i = giverIdx st)) as [->|Hne].
      * rewrite list_lookup_insert_eq in Hx by assumption. injection Hx as <-.
        cbn [Entry.amount].
        destruct (PrimFloat.ltb (PrimFloat.abs g') eps) eqn:E; [lia|].
        now apply negative_unsettled.
      * rewrite list_lookup_insert_ne in Hx by congruence.
        apply (HG _ _ Hx).
        destruct (PrimFloat.ltb (PrimFloat.abs g') eps); lia.
    + intros j x Hx Hj.
      destruct (decide (j = receiverIdx st)) as [->|Hne].
      * rewrite list_lookup_insert_eq in Hx by assumption. injection Hx as <-.
        cbn [Entry.amount].
        destruct (PrimFloat.ltb r' eps) eqn:E; [lia|].
        now apply positive_unsettled.
      * rewrite list_lookup_insert_ne in Hx by congruence.
        apply (HR _ _ Hx). destruct (PrimFloat.ltb r' eps); lia.
  - intros _. unfold advances. cbn [givers receivers giverIdx receiverIdx results].
    repeat split.
    + destruct (PrimFloat.ltb (PrimFloat.abs g') eps); lia.
    + destruct (PrimFloat.ltb r' eps); lia.
    + destruct (PrimFloat.ltb eps a); [rewrite length_app; simpl|]; lia.
    + destruct (PrimFloat.ltb (PrimFloat.abs g') eps) eqn:Eg.
      * destruct (PrimFloat.ltb r' eps) eqn:Er.
        -- destruct Hcases as [[Hz _]|[Hz _]]; [left|right];
             (split; [reflexivity|]); eexists;
             (split; [now apply list_lookup_insert_eq|exact Hz]).
        -- left. split; [reflexivity|]. eexists.
           split; [now apply list_lookup_insert_eq|]. now apply Hgz.
      * destruct (PrimFloat.ltb r' eps) eqn:Er; [|destruct Hadv; discriminate].
        right. split; [reflexivity|]. eexists.
        split; [now apply list_lookup_insert_eq|]. now apply Hrz.
Qed.

(** Indices move forward by at most one, and entries beyond them stay. *)
Lemma step_indices st :
  giverIdx st <= giverIdx (step st) <= S (giverIdx st)
  /\ receiverIdx st <= receiverIdx (step st) <= S (receiverIdx st)
  /\ (forall i, giverIdx st < i -> givers (step st) !! i = givers st !! i)
  /\ (forall j, receiverIdx st < j -> receivers (step st) !! j = receivers st !! j).
Proof.
  unfold step. destruct (givers st !! giverIdx st) as [g|]; [|repeat split; lia].
  destruct (receivers st !! receiverIdx st) as [r|]; [|repeat split; lia].
  cbn [givers receivers giverIdx receiverIdx]. repeat split;
    try (destruct (ltb _ _); lia);
    intros i Hi; apply list_lookup_insert_ne; lia.
Qed.

Lemma step_rest_finite st : rest_finite st -> rest_finite (step st).
Proof.
  intros [HG HR]. destruct (step_indices st) as (Ig & Ir & Sg & Sr). split.
  - intros i g Hg Hi. rewrite Sg in Hg by lia. apply (HG _ _ Hg). lia.
  - intros j r Hr Hj. rewrite Sr in Hr by lia. apply (HR _ _ Hr). lia.
Qed.

Lemma step_matching_inv st :
  matching_inv st ->
  matching_inv (step st) /\ (running st = true -> advances st (step st)).
Proof.
  intros (Hs & Hf & Hh). destruct (step_signs_kept st Hs Hh) as [Hs' Hadv].
  split; [|assumption]. split; [assumption|]. split; [now apply step_rest_finite|].
  destruct (running st) eqn:Hrun.
  2:{ now rewrite step_not_running. }
  destruct (Hadv eq_refl) as (_ & _ & _ & H).
  destruct (step_indices st) as (Ig & Ir & Sg & Sr). destruct Hf as [FG FR].
  intros g r Hg Hr. destruct H as [[E _]|[E _]]; [left|right].
  - rewrite E, Sg in Hg by lia. apply (FG _ _ Hg). lia.
  - rewrite E, Sr in Hr by lia. apply (FR _ _ Hr). lia.
Qed.


(** *** Termination *)

(** Entries of the two arrays not yet passed. *)
Definition remaining st : nat :=
  (length (givers st) - giverIdx st) + (length (receivers st) - receiverIdx st).

Lemma running_remaining st :
  running st = true ->
  giverIdx st < length (givers st) /\ receiverIdx st < length (receivers st).
Proof. unfold running. rewrite andb_true_iff, !Nat.ltb_lt. tauto. Qed.

Lemma remaining_advances st :
  running st = true -> advances st (step st) ->
  remaining (step st) < remaining st.
Proof.
  intros Hrun (Hg & Hr & _ & H).
  apply running_remaining in Hrun as [Hlg Hlr].
  unfold remaining. rewrite length_givers_step, length_receivers_step.
  destruct H as [[-> _]|[-> _]]; lia.
Qed.

Lemma while_total fuel : forall st,
    matching_inv st -> remaining st <= S fuel ->
    exists st', while fuel st = Some st'.
Proof.
  induction fuel as [|fuel IH]; intros st Hinv Hfuel; simpl;
    destruct (running st) eqn:Hrun; eauto.
  - apply running_remaining in Hrun. unfold remaining in Hfuel. lia.
  - destruct (step_matching_inv st Hinv) as [Hinv' Hadv].
    apply IH; [assumption|].
    pose proof (remaining_advances st Hrun (Hadv Hrun)). lia.
Qed.

(** *** Infinite balances *)

(** Once the current debtor and creditor are NaN they stay so, nothing is
    emitted and no index moves. *)
Definition stuck (st : State float) : Prop :=
  exists g r,
    givers st !! giverIdx st = Some g
    /\ receivers st !! receiverIdx st = Some r
    /\ Entry.amount g = PrimFloat.nan /\ Entry.amount r = PrimFloat.nan.

Lemma stuck_running st : stuck st -> running st = true.
Proof. intros (g & r & Hg & Hr & _). apply running_lookup. eauto. Qed.

Lemma step_stuck st : stuck st -> stuck (step st).
Proof.
  intros (g & r & Hg & Hr & Eg & Er).
  assert (Hlg := lookup_lt_Some _ _ _ Hg). assert (Hlr := lookup_lt_Some _ _ _ Hr).
  rewrite (step_running st g r Hg Hr). cbv zeta. rewrite Eg, Er.
  eexists _, _. cbn [givers receivers giverIdx receiverIdx].
  change (PrimFloat.ltb (PrimFloat.abs
            (PrimFloat.add nan (JS.Math_min (PrimFloat.abs nan) nan))) eps)
    with false.
  change (PrimFloat.ltb (PrimFloat.sub nan (JS.Math_min (PrimFloat.abs nan) nan)) eps)
    with false.
  split; [now apply list_lookup_insert_eq|].
  split; [now apply list_lookup_insert_eq|].
  split; reflexivity.
Qed.

(** A debtor and a creditor either settle or are [-Infinity] and
    [+Infinity]. *)
Lemma heads_cases g r :
  strictly_negative (Prim2SF g) -> strictly_positive (Prim2SF r) ->
  (finite (Prim2SF g) \/ finite (Prim2SF r))
  \/ (g = neg_infinity /\ r = infinity).
Proof.
  intros Hg Hr.
  destruct (Prim2SF g) as [|[]| |[] mg eg] eqn:Eg; try contradiction;
    destruct (Prim2SF r) as [|[]| |[] mr er] eqn:Er; try contradiction;
    try (left; simpl; tauto).
  right. split; apply Prim2SF_inj; [now rewrite Eg|now rewrite Er].
Qed.

Lemma step_infinite st g r :
  givers st !! giverIdx st = Some g ->
  receivers st !! receiverIdx st = Some r ->
  Entry.amount g = neg_infinity -> Entry.amount r = infinity ->
  stuck (step st).
Proof.
  intros Hg Hr Eg Er.
  assert (Hlg := lookup_lt_Some _ _ _ Hg). assert (Hlr := lookup_lt_Some _ _ _ Hr).
  rewrite (step_running st g r Hg Hr). cbv zeta. rewrite Eg, Er.
  eexists _, _. cbn [givers receivers giverIdx receiverIdx].
  change (PrimFloat.ltb (PrimFloat.abs
            (PrimFloat.add neg_infinity
               (JS.Math_min (PrimFloat.abs neg_infinity) infinity))) eps)
    with false.
  change (PrimFloat.ltb
            (PrimFloat.sub infinity
               (JS.Math_min (PrimFloat.abs neg_infinity) infinity)) eps)
    with false.
  split; [now apply list_lookup_insert_eq|].
  split; [now apply list_lookup_insert_eq|].
  split; reflexivity.
Qed.

(** *** The number of edges *)

Definition count_inv (n : nat) st : Prop :=
  length (results st) + remaining st <= n
  /\ (length (results st) = 0 \/ length (results st) + 1 <= n).

Lemma count_inv_advances n st :
  running st = true -> advances st (step st) ->
  count_inv n st -> count_inv n (step st).
Proof.
  intros Hrun Hadv [H1 H2].
  pose proof (remaining_advances st Hrun Hadv) as Hrem.
  destruct Hadv as (_ & _ & Hlen & _).
  apply running_remaining in Hrun. unfold count_inv, remaining in *.
  rewrite length_givers_step, length_receivers_step in *. lia.
Qed.

Definition settling (n : nat) st : Prop :=
  stuck st \/ (signs_kept st /\ count_inv n st).

Lemma step_settling n st : settling n st -> settling n (step st).
Proof.
  intros [Hstuck|[Hs Hc]]; [left; now apply step_stuck|].
  destruct (running st) eqn:Hrun.
  2:{ rewrite step_not_running by assumption. right. now split. }
  destruct (proj1 (running_lookup st) Hrun) as (g & r & Hg & Hr).
  destruct Hs as [HG HR].
  destruct (heads_cases _ _ (HG _ _ Hg (Nat.le_refl _)) (HR _ _ Hr (Nat.le_refl _)))
    as [Hfin|[Eg Er]].
  - right.
    assert (Hh : heads_settle st).
    { intros g0 r0 Hg0 Hr0. congruence. }
    destruct (step_signs_kept st (conj HG HR) Hh) as [Hs' Hadv].
    split; [assumption|]. apply count_inv_advances; auto.
  - left. eapply step_infinite; eauto.
Qed.

(** *** The state on entry *)

Lemma initial_signs_kept nb : signs_kept (initial nb).
Proof.
  split.
  - intros i g Hg _. apply list_elem_of_lookup_2, list_elem_of_In in Hg.
    apply In_givers_initial in Hg as [_ Hg]. now apply giver_negative.
  - intros j r Hr _. apply list_elem_of_lookup_2, list_elem_of_In in Hr.
    apply In_receivers_initial in Hr as [_ Hr].
    apply andb_true_iff in Hr as [_ Hr]. now apply receiver_positive.
Qed.

Lemma initial_matching_inv nb : all_finite nb -> matching_inv (initial nb).
Proof.
  intros Hfin. unfold all_finite in Hfin. rewrite List.Forall_forall in Hfin.
  assert (HG : forall i g, givers (initial nb) !! i = Some g ->
                           finite (Prim2SF (Entry.amount g))).
  { intros i g Hg. apply list_elem_of_lookup_2, list_elem_of_In in Hg.
    apply In_givers_initial in Hg as [Hg _]. apply is_finite_spec, (Hfin _ Hg). }
  assert (HR : forall j r, receivers (initial nb) !! j = Some r ->
                           finite (Prim2SF (Entry.amount r))).
  { intros j r Hr. apply list_elem_of_lookup_2, list_elem_of_In in Hr.
    apply In_receivers_initial in Hr as [Hr _]. apply is_finite_spec, (Hfin _ Hr). }
  split; [apply initial_signs_kept|]. split; [split|]; eauto.
  intros g r Hg _. left. eauto.
Qed.

Lemma remaining_initial nb :
  remaining (initial nb)
  = length (Spec.debtors nb) + length (Spec.creditors nb).
Proof.
  unfold remaining. rewrite giverIdx_initial, receiverIdx_initial, !Nat.sub_0_r.
  destruct (initial_spec nb) as [-> ->].
  rewrite <- sort_ascending, <- sort_descending, !length_sort. reflexivity.
Qed.

Lemma remaining_le_length nb : remaining (initial nb) <= length nb.
Proof.
  unfold remaining. rewrite giverIdx_initial, receiverIdx_initial, !Nat.sub_0_r.
  apply classified_le_length.
Qed.

(** Whatever the balances, a plan that is returned has at most
    debtors + creditors - 1 edges. *)
Lemma returned_edge_count nb fuel edges :
  simplifyDebts fuel nb = Some edges ->
  length edges <= length (Spec.debtors nb) + length (Spec.creditors nb) - 1.
Proof.
  intros H. apply simplifyDebts_while in H as (st & H & <-).
  set (n := length (Spec.debtors nb) + length (Spec.creditors nb)).
  apply (while_invariant (settling n)) in H.
  - destruct H as [[Hstuck|[_ [H1 H2]]] Hrun]; [|lia].
    apply stuck_running in Hstuck. congruence.
  - apply step_settling.
  - right. split; [apply initial_signs_kept|]. unfold count_inv.
    rewrite results_initial, remaining_initial. simpl. lia.
Qed.

Lemma returns_on_finite nb :
  all_finite nb -> exists edges, simplifyDebts (length nb) nb = Some edges.
Proof.
  intros Hfin.
  destruct (while_total (length nb) (initial nb)) as [st Hst].
  - now apply initial_matching_inv.
  - pose proof (remaining_le_length nb). lia.
  - exists (results st). apply simplifyDebts_while. eauto.
Qed.

End Matching64.

(** ** [simplifyDebts] on a heap *)

(** The function again, this time with the objects it handles where
    JavaScript has them: on a heap.  [netBalances] is a reference to an
    object that the caller holds too; [givers], [receivers] and [results]
    are arrays of references to objects that the function allocates; and
    [giver.amount += amountToSettle] is an assignment to whatever object
    [giver] refers to. *)
Module Heap.

(** The values the function handles. *)
Inductive value : Type :=
| Num (x : float)
| Str (s : string)
| Ref (l : nat).

(** What a reference refers to: an object with its own properties in
    insertion order, or an array. *)
Inductive cell : Type :=
| Obj (props : list (string * value))
| Arr (elems : list value).

(** References are positions in the heap; a new object goes at the end. *)
Abbreviation heap := (list cell).

(** Computations that read and write the heap.  [None] stands for a
    computation that does not return: an operation applied to a value it
    is not defined on here (a property of a string, an [amount] that is no
    number), or the loop reaching its bound. *)
Definition M (T : Type) : Type := heap -> option (T * heap).

Definition ret {T : Type} (x : T) : M T := fun h => Some (x, h).

Definition bind {T U : Type} (m : M T) (k : T -> M U) : M U :=
  fun h => match m h with
           | Some (x, h') => k x h'
           | None => None
           end.

Definition fail {T : Type} : M T := fun _ => None.

Notation "'let!' x ':=' m 'in' k" := (bind m (fun x => k))
  (at level 10, x name, m at level 100, k at level 200,
   format "'[v' 'let!'  x  ':='  m  'in' '/' k ']'").
Notation "m '>>' k" := (bind m (fun _ => k))
  (at level 100, k at level 200, right associativity).

(** *** The heap *)

(** A literal [{...}] or [[]]. *)
Definition alloc (c : cell) : M value :=
  fun h => Some (Ref (length h), h ++ [c]).

Definition read (v : value) : M cell :=
  fun h => match v with
           | Ref l => match h !! l with
                      | Some c => Some (c, h)
                      | None => None
                      end
           | _ => None
           end.

Definition write (v : value) (c : cell) : M unit :=
  fun h => match v with
           | Ref l => match h !! l with
                      | Some _ => Some (tt, <[l := c]> h)
                      | None => None
                      end
           | _ => None
           end.

(** *** Objects and arrays *)

Fixpoint lookup_prop (p : string) (props : list (string * value))
  : option value :=
  match props with
  | [] => None
  | (q, v) :: props' => if String.eqb p q then Some v else lookup_prop p props'
  end.

Fixpoint assign_prop (p : string) (v : value) (props : list (string * value))
  : list (string * value) :=
  match props with
  | [] => [(p, v)]
  | (q, w) :: props' =>
      if String.eqb p q then (q, v) :: props' else (q, w) :: assign_prop p v props'
  end.

(** [o.p], for a property the object has. *)
Definition get_prop (o : value) (p : string) : M value :=
  let! c := read o in
  match c with
  | Obj props => match lookup_prop p props with
                 | Some v => ret v
                 | None => fail
                 end
  | Arr _ => fail
  end.

(** [o.p = v]. *)
Definition set_prop (o : value) (p : string) (v : value) : M unit :=
  let! c := read o in
  match c with
  | Obj props => write o (Obj (assign_prop p v props))
  | Arr _ => fail
  end.

(** [Object.entries(o)]: the properties as they are at the call. *)
Definition entries (o : value) : M (list (string * value)) :=
  let! c := read o in
  match c with
  | Obj props => ret props
  | Arr _ => fail
  end.

Definition elements (a : value) : M (list value) :=
  let! c := read a in
  match c with
  | Arr elems => ret elems
  | Obj _ => fail
  end.

(** [a.push(v)]. *)
Definition push (a : value) (v : value) : M unit :=
  let! elems := elements a in
  write a (Arr (elems ++ [v])).

(** [a.length]. *)
Definition length_of (a : value) : M nat :=
  let! elems := elements a in
  ret (length elems).

(** [a[i]], for an index within the array. *)
Definition at_index (a : value) (i : nat) : M value :=
  let! elems := elements a in
  match elems !! i with
  | Some v => ret v
  | None => fail
  end.

(** A value used as a number. *)
Definition number (v : value) : M float :=
  match v with
  | Num x => ret x
  | _ => fail
  end.

(** [o.amount], used as a number. *)
Definition amount_of (o : value) : M float :=
  let! v := get_prop o "amount" in
  number v.

Fixpoint for_each {T : Type} (body : T -> M unit) (l : list T) : M unit :=
  match l with
  | [] => ret tt
  | x :: l' => body x >> for_each body l'
  end.

(** [a.sort(comparefn)]: the array is sorted in place, by the insertion
    sort that [sort] is above; [comparefn] reads the heap. *)
Fixpoint insert_sorted (comparefn : value -> value -> M float)
    (x : value) (l : list value) : M (list value) :=
  match l with
  | [] => ret [x]
  | y :: l' =>
      let! c := comparefn x y in
      if PrimFloat.ltb 0 c
      then let! l'' := insert_sorted comparefn x l' in ret (y :: l'')
      else ret (x :: l)
  end.

Fixpoint sorted (comparefn : value -> value -> M float) (l : list value)
  : M (list value) :=
  match l with
  | [] => ret []
  | x :: l' => let! s := sorted comparefn l' in insert_sorted comparefn x s
  end.

Definition sort (a : value) (comparefn : value -> value -> M float) : M unit :=
  let! elems := elements a in
  let! s := sorted comparefn elems in
  write a (Arr s).

(** *** simplifyDebts *)

(** The body of [for (const [member, amount] of Object.entries(netBalances))]. *)
Definition classify (givers receivers : value) (entry : string * value)
  : M unit :=
  let '(member, amount) := entry in
  let! a := number amount in
  if PrimFloat.ltb a (-0.01) then
    let! o := alloc (Obj [("member", Str member); ("amount", amount)]) in
    push givers o
  else if PrimFloat.ltb 0.01 a then
    let! o := alloc (Obj [("member", Str member); ("amount", amount)]) in
    push receivers o
  else ret tt.

(** The [while] loop, for at most [fuel] iterations. *)
Fixpoint match_loop (fuel : nat) (givers receivers results : value)
    (giverIdx receiverIdx : nat) : M unit :=
  let! givers_length := length_of givers in
  let! receivers_length := length_of receivers in
  if (giverIdx <? givers_length)%nat && (receiverIdx <? receivers_length)%nat
  then
    match fuel with
    | O => fail
    | S fuel' =>
        let! giver := at_index givers giverIdx in
        let! receiver := at_index receivers receiverIdx in
        let! ga := amount_of giver in
        let! ra := amount_of receiver in
        let amountToSettle := JS.Math_min (PrimFloat.abs ga) ra in
        (if PrimFloat.ltb 0.01 amountToSettle then
           let! from := get_prop giver "member" in
           let! to := get_prop receiver "member" in
           let! edge :=
             alloc (Obj [("from", from); ("to", to);
                         ("amount", Num (JS.toFixed2 amountToSettle))]) in
           push results edge
         else ret tt) >>
        let! ga := amount_of giver in
        set_prop giver "amount" (Num (PrimFloat.add ga amountToSettle)) >>
        let! ra := amount_of receiver in
        set_prop receiver "amount" (Num (PrimFloat.sub ra amountToSettle)) >>
        let! ga := amount_of giver in
        let giverIdx :=
          if PrimFloat.ltb (PrimFloat.abs ga) 0.01 then S giverIdx
          else giverIdx in
        let! ra := amount_of receiver in
        let receiverIdx :=
          if PrimFloat.ltb ra 0.01 then S receiverIdx else receiverIdx in
        match_loop fuel' givers receivers results giverIdx receiverIdx
    end
  else ret tt.

(** [simplifyDebts(netBalances)]: the reference to the array [results]. *)
Definition simplifyDebts (fuel : nat) (netBalances : value) : M value :=
  let! givers := alloc (Arr []) in
  let! receivers := alloc (Arr []) in
  let! es := entries netBalances in
  for_each (classify givers receivers) es >>
  sort givers
       (fun a b => let! x := amount_of a in
                   let! y := amount_of b in
                   ret (PrimFloat.sub x y)) >>
  sort receivers
       (fun a b => let! x := amount_of a in
                   let! y := amount_of b in
                   ret (PrimFloat.sub y x)) >>
  let! results := alloc (Arr []) in
  match_loop fuel givers receivers results 0 0 >>
  ret results.

(** *** Reading the heap *)

(** The object a balance map is. *)
Definition object_of (nb : Balances float) : cell :=
  Obj (map (fun kv => (fst kv, Num (snd kv))) nb).

(** The object an element of [givers] or [receivers] is. *)
Definition entry_cell (x : Entry.t float) : cell :=
  Obj [("member", Str (Entry.member x)); ("amount", Num (Entry.amount x))].

(** The object a settlement is. *)
Definition edge_cell (e : Edge.t float) : cell :=
  Obj [("from", Str (Edge.from e)); ("to", Str (Edge.to e));
       ("amount", Num (Edge.amount e))].

(** The settlement an object is, if it is one. *)
Definition edge_at (h : heap) (v : value) : option (Edge.t float) :=
  match v with
  | Ref l =>
      match h !! l with
      | Some (Obj [("from", Str f); ("to", Str t); ("amount", Num a)]) =>
          Some (Edge.mk f t a)
      | _ => None
      end
  | _ => None
  end.

Fixpoint all_edges (h : heap) (l : list value) : option (list (Edge.t float)) :=
  match l with
  | [] => Some []
  | v :: l' =>
      match edge_at h v, all_edges h l' with
      | Some e, Some es => Some (e :: es)
      | _, _ => None
      end
  end.

(** The list of settlements an array holds. *)
Definition edges_at (h : heap) (results : value)
  : option (list (Edge.t float)) :=
  match results with
  | Ref l => match h !! l with
             | Some (Arr elems) => all_edges h elems
             | _ => None
             end
  | _ => None
  end.

End Heap.

(** *** One operation at a time *)

Section HeapOperations.
Implicit Types (h : Heap.heap) (l : nat) (c : Heap.cell) (v : Heap.value).

Lemma bind_Some {T U : Type} (m : Heap.M T) (k : T -> Heap.M U) h x h' :
  m h = Some (x, h') -> Heap.bind m k h = k x h'.
Proof. intros H. unfold Heap.bind. now rewrite H. Qed.

Lemma bind_None {T U : Type} (m : Heap.M T) (k : T -> Heap.M U) h :
  m h = None -> Heap.bind m k h = None.
Proof. intros H. unfold Heap.bind. now rewrite H. Qed.

Lemma read_Some h l c :
  h !! l = Some c -> Heap.read (Heap.Ref l) h = Some (c, h).
Proof. intros H. unfold Heap.read. now rewrite H. Qed.

Lemma write_Some h l c c' :
  h !! l = Some c -> Heap.write (Heap.Ref l) c' h = Some (tt, <[l := c']> h).
Proof. intros H. unfold Heap.write. now rewrite H. Qed.

Lemma get_prop_Some h l props p v :
  h !! l = Some (Heap.Obj props) -> Heap.lookup_prop p props = Some v ->
  Heap.get_prop (Heap.Ref l) p h = Some (v, h).
Proof.
  intros H Hp. unfold Heap.get_prop.
  rewrite (bind_Some _ _ _ _ _ (read_Some _ _ _ H)). now rewrite Hp.
Qed.

Lemma set_prop_Some h l props p v :
  h !! l = Some (Heap.Obj props) ->
  Heap.set_prop (Heap.Ref l) p v h
  = Some (tt, <[l := Heap.Obj (Heap.assign_prop p v props)]> h).
Proof.
  intros H. unfold Heap.set_prop.
  rewrite (bind_Some _ _ _ _ _ (read_Some _ _ _ H)).
  now apply write_Some with (c := Heap.Obj props).
Qed.

Lemma entries_Some h l props :
  h !! l = Some (Heap.Obj props) ->
  Heap.entries (Heap.Ref l) h = Some (props, h).
Proof.
  intros H. unfold Heap.entries.
  now rewrite (bind_Some _ _ _ _ _ (read_Some _ _ _ H)).
Qed.

Lemma elements_Some h l elems :
  h !! l = Some (Heap.Arr elems) ->
  Heap.elements (Heap.Ref l) h = Some (elems, h).
Proof.
  intros H. unfold Heap.elements.
  now rewrite (bind_Some _ _ _ _ _ (read_Some _ _ _ H)).
Qed.

Lemma push_Some h l elems v :
  h !! l = Some (Heap.Arr elems) ->
  Heap.push (Heap.Ref l) v h = Some (tt, <[l := Heap.Arr (elems ++ [v])]> h).
Proof.
  intros H. unfold Heap.push.
  rewrite (bind_Some _ _ _ _ _ (elements_Some _ _ _ H)).
  now apply write_Some with (c := Heap.Arr elems).
Qed.

Lemma length_of_Some h l elems :
  h !! l = Some (Heap.Arr elems) ->
  Heap.length_of (Heap.Ref l) h = Some (length elems, h).
Proof.
  intros H. unfold Heap.length_of.
  now rewrite (bind_Some _ _ _ _ _ (elements_Some _ _ _ H)).
Qed.

Lemma at_index_Some h l elems i v :
  h !! l = Some (Heap.Arr elems) -> elems !! i = Some v ->
  Heap.at_index (Heap.Ref l) i h = Some (v, h).
Proof.
  intros H Hi. unfold Heap.at_index.
  rewrite (bind_Some _ _ _ _ _ (elements_Some _ _ _ H)). now rewrite Hi.
Qed.

Lemma amount_of_entry h l x :
  h !! l = Some (Heap.entry_cell x) ->
  Heap.amount_of (Heap.Ref l) h = Some (Entry.amount x, h).
Proof.
  intros H. unfold Heap.amount_of.
  now rewrite (bind_Some _ _ _ _ _ (get_prop_Some _ _ _ "amount" _ H eq_refl)).
Qed.

Lemma member_of_entry h l x :
  h !! l = Some (Heap.entry_cell x) ->
  Heap.get_prop (Heap.Ref l) "member" h = Some (Heap.Str (Entry.member x), h).
Proof. intros H. exact (get_prop_Some _ _ _ "member" _ H eq_refl). Qed.

Lemma set_amount_of_entry h l x a :
  h !! l = Some (Heap.entry_cell x) ->
  Heap.set_prop (Heap.Ref l) "amount" (Heap.Num a) h
  = Some (tt, <[l := Heap.entry_cell (Entry.mk (Entry.member x) a)]> h).
Proof. intros H. exact (set_prop_Some _ _ _ "amount" _ H). Qed.

End HeapOperations.

(** *** Objects held by an array *)

Section Held.
Context {X : Type} (cell_of : X -> Heap.cell).
Implicit Types (h : Heap.heap) (l : nat) (ls : list nat) (xs : list X).

(** The references [ls] refer to the objects [xs], in this order. *)
Definition held h ls xs : Prop :=
  List.Forall2 (fun l x => h !! l = Some (cell_of x)) ls xs.

Lemma held_length h ls xs : held h ls xs -> length ls = length xs.
Proof. apply Forall2_length. Qed.

Lemma held_lookup h ls xs i x :
  held h ls xs -> xs !! i = Some x ->
  exists l, ls !! i = Some l /\ h !! l = Some (cell_of x).
Proof.
  intros H Hx. destruct (Forall2_lookup_r _ _ _ _ _ H Hx) as (l & Hl & Hc). eauto.
Qed.

Lemma held_at h ls xs i l x :
  held h ls xs -> ls !! i = Some l -> xs !! i = Some x ->
  h !! l = Some (cell_of x).
Proof.
  intros H Hl Hx. destruct (Forall2_lookup_l _ _ _ _ _ H Hl) as (x' & Hx' & Hc).
  congruence.
Qed.

Lemma held_alloc h ls xs c : held h ls xs -> held (h ++ [c]) ls xs.
Proof.
  induction 1 as [|l x ls xs Hl _ IH]; constructor; [cbv beta|assumption].
  rewrite lookup_app_l; [assumption|]. eapply lookup_lt_Some; eassumption.
Qed.

Lemma held_other h ls xs l c :
  held h ls xs -> ~ In l ls -> held (<[l := c]> h) ls xs.
Proof.
  induction 1 as [|l0 x ls xs Hl _ IH]; intros Hn; constructor; cbv beta.
  - rewrite list_lookup_insert_ne; [assumption|]. intros ->. apply Hn. now left.
  - apply IH. intros ?. apply Hn. now right.
Qed.

Lemma held_apart h ls xs l c :
  held h ls xs -> h !! l = Some c -> (forall x, cell_of x <> c) -> ~ In l ls.
Proof.
  induction 1 as [|l0 x ls xs Hl _ IH]; intros Hc Hx Hin; [destruct Hin|].
  destruct Hin as [E|Hin]; [|now apply IH].
  subst. rewrite Hc in Hl. injection Hl as E. now apply (Hx x).
Qed.

Lemma held_update h ls xs i l x' :
  NoDup ls -> held h ls xs -> ls !! i = Some l ->
  held (<[l := cell_of x']> h) ls (<[i := x']> xs).
Proof.
  intros Hnd H. revert i. induction H as [|l0 x ls xs Hl H IH]; intros i Hi.
  - discriminate.
  - inversion Hnd as [|? ? Hnot Hnd']; subst. destruct i as [|i]; cbn in Hi |- *.
    + injection Hi as ->. constructor; cbv beta.
      * apply list_lookup_insert_eq. eapply lookup_lt_Some; eassumption.
      * apply held_other; [assumption|]. now rewrite <- list_elem_of_In.
    + constructor; cbv beta.
      * rewrite list_lookup_insert_ne; [assumption|]. intros ->.
        apply Hnot. eapply list_elem_of_lookup_2; eassumption.
      * now apply IH.
Qed.

Lemma held_snoc h ls xs l x :
  held h ls xs -> h !! l = Some (cell_of x) -> held h (ls ++ [l]) (xs ++ [x]).
Proof.
  intros H Hl. apply Forall2_app; [assumption|]. now constructor.
Qed.

Lemma held_bound h ls xs : held h ls xs -> List.Forall (fun l => l < length h) ls.
Proof.
  induction 1 as [|l x ls xs Hl _ IH]; constructor; [|assumption].
  eapply lookup_lt_Some; eassumption.
Qed.

(** A heap that extends another holds what the other holds. *)
Lemma held_extends h h' ls xs :
  held h ls xs -> take (length h) h' = h -> held h' ls xs.
Proof.
  intros H E. induction H as [|l x ls xs Hl _ IH]; constructor; [cbv beta|assumption].
  rewrite <- E in Hl. apply lookup_take_Some in Hl. tauto.
Qed.

End Held.

(** *** The heap against the function of the map *)

Section HeapRefinement.
Implicit Types (h : Heap.heap) (l g r res base : nat) (gls rls els : list nat).
Implicit Types (gs rs : list (Entry.t float)) (st : State float).

Lemma lookup_new h (c : Heap.cell) : (h ++ [c]) !! length h = Some c.
Proof. now apply list_lookup_middle. Qed.

Lemma entry_not_array (x : Entry.t float) elems :
  Heap.entry_cell x <> Heap.Arr elems.
Proof. discriminate. Qed.

Lemma edge_not_array (e : Edge.t float) elems :
  Heap.edge_cell e <> Heap.Arr elems.
Proof. discriminate. Qed.

Lemma edge_not_entry (e : Edge.t float) (x : Entry.t float) :
  Heap.edge_cell e <> Heap.entry_cell x.
Proof. discriminate. Qed.

(** The arrays [givers] and [receivers] and the objects they hold: all
    of them allocated by this call (from [base] on), no object in two
    places. *)
Definition arrays base g r gls rls gs rs h : Prop :=
  h !! g = Some (Heap.Arr (map Heap.Ref gls))
  /\ h !! r = Some (Heap.Arr (map Heap.Ref rls))
  /\ held Heap.entry_cell h gls gs
  /\ held Heap.entry_cell h rls rs
  /\ NoDup (gls ++ rls)
  /\ g <> r /\ base <= g /\ base <= r
  /\ List.Forall (le base) (gls ++ rls).

(** The body of the first loop, as [separate] has it. *)
Definition classified (acc : list (Entry.t float) * list (Entry.t float))
    (kv : string * float) : list (Entry.t float) * list (Entry.t float) :=
  let '(givers, receivers) := acc in
  let '(member, amount) := kv in
  if ltb amount neg_eps then (givers ++ [Entry.mk member amount], receivers)
  else if ltb eps amount then (givers, receivers ++ [Entry.mk member amount])
  else (givers, receivers).

Lemma fresh_location h ls (xs : list (Entry.t float)) :
  held Heap.entry_cell h ls xs -> ~ In (length h) ls.
Proof.
  intros H Hin. apply held_bound in H.
  rewrite List.Forall_forall in H. specialize (H _ Hin). lia.
Qed.

Lemma classify_refines base g r gls rls gs rs h k v :
  arrays base g r gls rls gs rs h ->
  exists h' gls' rls',
    Heap.classify (Heap.Ref g) (Heap.Ref r) (k, Heap.Num v) h = Some (tt, h')
    /\ take base h' = take base h
    /\ arrays base g r gls' rls'
         (fst (classified (gs, rs) (k, v))) (snd (classified (gs, rs) (k, v))) h'.
Proof.
  intros (Hg & Hr & Sg & Sr & Hnd & Hgr & Ng & Nr & Hfr).
  pose proof (lookup_lt_Some _ _ _ Hg) as Lg.
  pose proof (lookup_lt_Some _ _ _ Hr) as Lr.
  pose proof (fresh_location _ _ _ Sg) as Fg.
  pose proof (fresh_location _ _ _ Sr) as Fr.
  pose proof (held_apart _ _ _ _ _ _ Sg Hg (fun x => entry_not_array x _)) as Ag.
  pose proof (held_apart _ _ _ _ _ _ Sr Hg (fun x => entry_not_array x _)) as Ar.
  pose proof (held_apart _ _ _ _ _ _ Sg Hr (fun x => entry_not_array x _)) as Bg.
  pose proof (held_apart _ _ _ _ _ _ Sr Hr (fun x => entry_not_array x _)) as Br.
  unfold Heap.classify, classified. cbn [ltb neg_eps eps binary64 Heap.number].
  rewrite (bind_Some _ _ _ v h eq_refl).
  destruct (PrimFloat.ltb v (-0.01)) eqn:E1; [|destruct (PrimFloat.ltb 0.01 v) eqn:E2].
  - rewrite (bind_Some _ _ _ (Heap.Ref (length h))
               (h ++ [Heap.entry_cell (Entry.mk k v)]) eq_refl).
    rewrite (push_Some _ g (map Heap.Ref gls));
      [|rewrite lookup_app_l by assumption; assumption].
    eexists _, (gls ++ [length h]), rls. split; [reflexivity|]. split.
    { rewrite take_insert_ge by lia. apply take_app_le. lia. }
    cbn [fst snd]. repeat split; try assumption.
    + rewrite list_lookup_insert_eq by (rewrite length_app; lia).
      now rewrite map_app.
    + rewrite list_lookup_insert_ne by assumption.
      rewrite lookup_app_l by assumption. assumption.
    + apply held_snoc.
      * apply held_other; [now apply held_alloc|assumption].
      * rewrite list_lookup_insert_ne by lia. apply lookup_new.
    + apply held_other; [now apply held_alloc|assumption].
    + rewrite <- app_assoc. apply NoDup_app in Hnd as (N1 & N2 & N3).
      apply NoDup_app. split; [assumption|]. split.
      * intros x Hx [->|Hin]%elem_of_cons; [|now apply (N2 x)].
        apply Fg. now apply list_elem_of_In.
      * apply NoDup_cons. split; [|assumption].
        intros Hin. apply Fr. now apply list_elem_of_In.
    + rewrite <- app_assoc. apply Forall_app in Hfr as [F1 F2].
      apply Forall_app. split; [assumption|]. constructor; [lia|assumption].
  - rewrite (bind_Some _ _ _ (Heap.Ref (length h))
               (h ++ [Heap.entry_cell (Entry.mk k v)]) eq_refl).
    rewrite (push_Some _ r (map Heap.Ref rls));
      [|rewrite lookup_app_l by assumption; assumption].
    eexists _, gls, (rls ++ [length h]). split; [reflexivity|]. split.
    { rewrite take_insert_ge by lia. apply take_app_le. lia. }
    cbn [fst snd]. repeat split; try assumption.
    + rewrite list_lookup_insert_ne by (intros E; now apply Hgr).
      rewrite lookup_app_l by assumption. assumption.
    + rewrite list_lookup_insert_eq by (rewrite length_app; lia).
      now rewrite map_app.
    + apply held_other; [now apply held_alloc|assumption].
    + apply held_snoc.
      * apply held_other; [now apply held_alloc|assumption].
      * rewrite list_lookup_insert_ne by lia. apply lookup_new.
    + rewrite app_assoc. apply NoDup_app. split; [assumption|]. split.
      * intros x Hx [->|[]%elem_of_nil]%elem_of_cons.
        apply list_elem_of_In, in_app_or in Hx. tauto.
      * apply NoDup_singleton.
    + rewrite app_assoc. apply Forall_app. split; [assumption|].
      constructor; [lia|constructor].
  - exists h, gls, rls. split; [reflexivity|]. split; [reflexivity|].
    cbn [fst snd]. repeat split; assumption.
Qed.

Lemma classify_all_refines base g r nb : forall gls rls gs rs h,
  arrays base g r gls rls gs rs h ->
  exists h' gls' rls',
    Heap.for_each (Heap.classify (Heap.Ref g) (Heap.Ref r))
                  (map (fun kv => (fst kv, Heap.Num (snd kv))) nb) h
    = Some (tt, h')
    /\ take base h' = take base h
    /\ arrays base g r gls' rls'
         (fst (fold_left classified nb (gs, rs)))
         (snd (fold_left classified nb (gs, rs))) h'.
Proof.
  induction nb as [|[k v] nb IH]; intros gls rls gs rs h Ha.
  - exists h, gls, rls. split; [reflexivity|]. split; [reflexivity|assumption].
  - destruct (classify_refines base g r gls rls gs rs h k v Ha)
      as (h1 & gls1 & rls1 & E1 & T1 & A1).
    destruct (classified (gs, rs) (k, v)) as [gs1 rs1] eqn:Ec.
    destruct (IH gls1 rls1 gs1 rs1 h1 A1) as (h2 & gls2 & rls2 & E2 & T2 & A2).
    exists h2, gls2, rls2. cbn [map Heap.for_each fst snd fold_left].
    rewrite (bind_Some _ _ _ _ _ E1), Ec.
    split; [assumption|]. split; [now rewrite T2|assumption].
Qed.

Lemma separate_classified (nb : Balances float) :
  separate nb = fold_left classified nb ([], []).
Proof.
  unfold separate. generalize (@nil (Entry.t float), @nil (Entry.t float)).
  induction nb as [|[k v] nb IH]; intros [gs rs]; [reflexivity|].
  cbn [fold_left]. apply IH.
Qed.

(** **** Sorting *)

(** The comparator reads the two amounts and changes nothing. *)
Definition compares (cmp : Heap.value -> Heap.value -> Heap.M float)
    (comparefn : Entry.t float -> Entry.t float -> float) h : Prop :=
  forall l1 l2 x1 x2,
    h !! l1 = Some (Heap.entry_cell x1) -> h !! l2 = Some (Heap.entry_cell x2) ->
    cmp (Heap.Ref l1) (Heap.Ref l2) h = Some (comparefn x1 x2, h).

Lemma compares_ascending h :
  compares (fun a b => Heap.bind (Heap.amount_of a) (fun x =>
                       Heap.bind (Heap.amount_of b) (fun y =>
                       Heap.ret (PrimFloat.sub x y))))
           ascending h.
Proof.
  intros l1 l2 x1 x2 H1 H2.
  rewrite (bind_Some _ _ _ _ _ (amount_of_entry _ _ _ H1)).
  rewrite (bind_Some _ _ _ _ _ (amount_of_entry _ _ _ H2)). reflexivity.
Qed.

Lemma compares_descending h :
  compares (fun a b => Heap.bind (Heap.amount_of a) (fun x =>
                       Heap.bind (Heap.amount_of b) (fun y =>
                       Heap.ret (PrimFloat.sub y x))))
           descending h.
Proof.
  intros l1 l2 x1 x2 H1 H2.
  rewrite (bind_Some _ _ _ _ _ (amount_of_entry _ _ _ H1)).
  rewrite (bind_Some _ _ _ _ _ (amount_of_entry _ _ _ H2)). reflexivity.
Qed.

Lemma insert_sorted_refines cmp comparefn h l x :
  compares cmp comparefn h -> h !! l = Some (Heap.entry_cell x) ->
  forall ls xs,
    held Heap.entry_cell h ls xs ->
    exists ls',
      Heap.insert_sorted cmp (Heap.Ref l) (map Heap.Ref ls) h
      = Some (map Heap.Ref ls', h)
      /\ held Heap.entry_cell h ls' (insert_sorted comparefn x xs)
      /\ Permutation ls' (l :: ls).
Proof.
  intros Hc Hl. induction 1 as [|l0 x0 ls xs Hl0 Hs IH].
  - exists [l]. split; [reflexivity|]. split; [|reflexivity].
    constructor; [assumption|constructor].
  - cbn [map Heap.insert_sorted insert_sorted].
    rewrite (bind_Some _ _ _ _ _ (Hc _ _ _ _ Hl Hl0)).
    cbn [ltb zero binary64].
    change (PrimFloat.ltb 0 (comparefn x x0))
      with (PrimFloat.ltb PrimFloat.zero (comparefn x x0)).
    destruct (PrimFloat.ltb PrimFloat.zero (comparefn x x0)).
    + destruct IH as (ls' & E & H' & P).
      rewrite (bind_Some _ _ _ _ _ E). exists (l0 :: ls').
      split; [reflexivity|]. split; [now constructor|].
      rewrite P. apply perm_swap.
    + exists (l :: l0 :: ls). split; [reflexivity|]. split; [|reflexivity].
      constructor; [assumption|]. now constructor.
Qed.

Lemma sorted_refines cmp comparefn h :
  compares cmp comparefn h ->
  forall ls xs,
    held Heap.entry_cell h ls xs ->
    exists ls',
      Heap.sorted cmp (map Heap.Ref ls) h = Some (map Heap.Ref ls', h)
      /\ held Heap.entry_cell h ls' (sort comparefn xs)
      /\ Permutation ls' ls.
Proof.
  intros Hc. induction 1 as [|l x ls xs Hl Hs IH].
  - exists []. split; [reflexivity|]. split; [constructor|reflexivity].
  - destruct IH as (ls1 & E1 & H1 & P1).
    destruct (insert_sorted_refines cmp comparefn h l x Hc Hl ls1 _ H1)
      as (ls2 & E2 & H2 & P2).
    exists ls2. cbn [map Heap.sorted].
    rewrite (bind_Some _ _ _ _ _ E1). split; [exact E2|].
    split; [exact H2|]. now rewrite P2, P1.
Qed.

Lemma sort_refines cmp comparefn h a ls xs :
  compares cmp comparefn h ->
  h !! a = Some (Heap.Arr (map Heap.Ref ls)) ->
  held Heap.entry_cell h ls xs ->
  exists ls',
    Heap.sort (Heap.Ref a) cmp h
    = Some (tt, <[a := Heap.Arr (map Heap.Ref ls')]> h)
    /\ held Heap.entry_cell h ls' (sort comparefn xs)
    /\ Permutation ls' ls.
Proof.
  intros Hc Ha Hs.
  destruct (sorted_refines cmp comparefn h Hc ls xs Hs) as (ls' & E & H' & P).
  exists ls'. split; [|split; assumption]. unfold Heap.sort.
  rewrite (bind_Some _ _ _ _ _ (elements_Some _ _ _ Ha)).
  rewrite (bind_Some _ _ _ _ _ E). now apply write_Some with (c := Heap.Arr (map Heap.Ref ls)).
Qed.

(** **** The matching loop *)

(** The three arrays and the objects they hold: every one allocated by
    this call, no element of [givers] or [receivers] in two places. *)
Definition cells base g r res gls rls els gs rs (es : list (Edge.t float)) h
  : Prop :=
  h !! g = Some (Heap.Arr (map Heap.Ref gls))
  /\ h !! r = Some (Heap.Arr (map Heap.Ref rls))
  /\ h !! res = Some (Heap.Arr (map Heap.Ref els))
  /\ held Heap.entry_cell h gls gs
  /\ held Heap.entry_cell h rls rs
  /\ held Heap.edge_cell h els es
  /\ NoDup (gls ++ rls)
  /\ g <> res /\ r <> res /\ base <= res
  /\ List.Forall (le base) (gls ++ rls).

Lemma lookup_map_Ref ls i l :
  ls !! i = Some l -> map Heap.Ref ls !! i = Some (Heap.Ref l).
Proof.
  revert i. induction ls as [|l0 ls IH]; intros [|i] H; try discriminate.
  - now injection H as ->.
  - now apply IH.
Qed.

Lemma not_In_elem_of (l : nat) ls : ~ In l ls <-> l ∉ ls.
Proof. now rewrite list_elem_of_In. Qed.

(** [results.push({ from, to, amount })]. *)
Lemma cells_emit base g r res gls rls els gs rs es h e :
  cells base g r res gls rls els gs rs es h ->
  let h' := <[res := Heap.Arr (map Heap.Ref els ++ [Heap.Ref (length h)])]>
              (h ++ [Heap.edge_cell e]) in
  cells base g r res gls rls (els ++ [length h]) gs rs (es ++ [e]) h'
  /\ take base h' = take base h.
Proof.
  intros (Hg & Hr & Hres & Sg & Sr & Se & Hnd & Ngr & Nrr & Nb & Hfr) h'.
  pose proof (lookup_lt_Some _ _ _ Hg) as Lg.
  pose proof (lookup_lt_Some _ _ _ Hr) as Lr.
  pose proof (lookup_lt_Some _ _ _ Hres) as Lres.
  pose proof (held_apart _ _ _ _ _ _ Sg Hres (fun x => entry_not_array x _)) as Ag.
  pose proof (held_apart _ _ _ _ _ _ Sr Hres (fun x => entry_not_array x _)) as Ar.
  pose proof (held_apart _ _ _ _ _ _ Se Hres (fun x => edge_not_array x _)) as Ae.
  split.
  - unfold h'. split; [|split; [|split; [|split; [|split; [|split]]]]].
    + rewrite list_lookup_insert_ne by auto. now apply lookup_app_l_Some.
    + rewrite list_lookup_insert_ne by auto. now apply lookup_app_l_Some.
    + rewrite map_app. apply list_lookup_insert_eq. rewrite length_app. lia.
    + apply held_other; [now apply held_alloc|assumption].
    + apply held_other; [now apply held_alloc|assumption].
    + apply held_snoc.
      * apply held_other; [now apply held_alloc|assumption].
      * rewrite list_lookup_insert_ne by lia. apply lookup_new.
    + repeat split; assumption.
  - unfold h'. rewrite take_insert_ge by lia. apply take_app_le. lia.
Qed.

(** [giver.amount += amountToSettle]. *)
Lemma cells_set_giver base g r res gls rls els gs rs es h i gl x' :
  cells base g r res gls rls els gs rs es h -> gls !! i = Some gl ->
  let h' := <[gl := Heap.entry_cell x']> h in
  cells base g r res gls rls els (<[i := x']> gs) rs es h'
  /\ take base h' = take base h.
Proof.
  intros (Hg & Hr & Hres & Sg & Sr & Se & Hnd & Ngr & Nrr & Nb & Hfr) Hi h'.
  assert (Hin : gl ∈ gls) by (eapply list_elem_of_lookup_2; eassumption).
  destruct (Forall2_lookup_l _ _ _ _ _ Sg Hi) as (x & Hx & Hc).
  apply NoDup_app in Hnd as (N1 & N2 & N3).
  apply Forall_app in Hfr as [F1 F2].
  assert (Bgl : base <= gl).
  { rewrite List.Forall_forall in F1. apply F1. now apply list_elem_of_In. }
  assert (gl <> g) by (intros ->; rewrite Hg in Hc; discriminate).
  assert (gl <> r) by (intros ->; rewrite Hr in Hc; discriminate).
  assert (gl <> res) by (intros ->; rewrite Hres in Hc; discriminate).
  split.
  - unfold h'. split; [|split; [|split; [|split; [|split; [|split]]]]].
    + now rewrite list_lookup_insert_ne.
    + now rewrite list_lookup_insert_ne.
    + now rewrite list_lookup_insert_ne.
    + now apply held_update.
    + apply held_other; [assumption|]. apply not_In_elem_of. now apply N2.
    + apply held_other; [assumption|].
      apply (held_apart _ _ _ _ _ _ Se Hc). intros e. apply edge_not_entry.
    + repeat split; try assumption.
      * apply NoDup_app. auto.
      * apply Forall_app. auto.
  - unfold h'. now apply take_insert_ge.
Qed.

(** [receiver.amount -= amountToSettle]. *)
Lemma cells_set_receiver base g r res gls rls els gs rs es h i rl x' :
  cells base g r res gls rls els gs rs es h -> rls !! i = Some rl ->
  let h' := <[rl := Heap.entry_cell x']> h in
  cells base g r res gls rls els gs (<[i := x']> rs) es h'
  /\ take base h' = take base h.
Proof.
  intros (Hg & Hr & Hres & Sg & Sr & Se & Hnd & Ngr & Nrr & Nb & Hfr) Hi h'.
  assert (Hin : rl ∈ rls) by (eapply list_elem_of_lookup_2; eassumption).
  destruct (Forall2_lookup_l _ _ _ _ _ Sr Hi) as (x & Hx & Hc).
  apply NoDup_app in Hnd as (N1 & N2 & N3).
  apply Forall_app in Hfr as [F1 F2].
  assert (Brl : base <= rl).
  { rewrite List.Forall_forall in F2. apply F2. now apply list_elem_of_In. }
  assert (rl <> g) by (intros ->; rewrite Hg in Hc; discriminate).
  assert (rl <> r) by (intros ->; rewrite Hr in Hc; discriminate).
  assert (rl <> res) by (intros ->; rewrite Hres in Hc; discriminate).
  split.
  - unfold h'. split; [|split; [|split; [|split; [|split; [|split]]]]].
    + now rewrite list_lookup_insert_ne.
    + now rewrite list_lookup_insert_ne.
    + now rewrite list_lookup_insert_ne.
    + apply held_other; [assumption|]. apply not_In_elem_of.
      intros Hg'. now apply (N2 rl).
    + now apply held_update.
    + apply held_other; [assumption|].
      apply (held_apart _ _ _ _ _ _ Se Hc). intros e. apply edge_not_entry.
    + repeat split; try assumption.
      * apply NoDup_app. auto.
      * apply Forall_app. auto.
  - unfold h'. now apply take_insert_ge.
Qed.

Definition loop_inv base g r res gls rls els st h : Prop :=
  cells base g r res gls rls els (givers st) (receivers st) (results st) h.

(** One iteration of the loop on the heap is [step]. *)
Lemma iteration_refines base g r res gls rls els st h fuel :
  loop_inv base g r res gls rls els st h -> running st = true ->
  exists h' els',
    Heap.match_loop (S fuel) (Heap.Ref g) (Heap.Ref r) (Heap.Ref res)
                    (giverIdx st) (receiverIdx st) h
    = Heap.match_loop fuel (Heap.Ref g) (Heap.Ref r) (Heap.Ref res)
                      (giverIdx (step st)) (receiverIdx (step st)) h'
    /\ take base h' = take base h
    /\ loop_inv base g r res gls rls els' (step st) h'.
Proof.
  intros Hinv Hrun. pose proof Hinv as (Hg & Hr & Hres & Sg & Sr & Se & _).
  pose proof Hrun as Hrun'.
  apply running_lookup in Hrun' as (giver & receiver & Eg & Er).
  destruct (held_lookup _ _ _ _ _ _ Sg Eg) as (gl & Hgl & Cgl).
  destruct (held_lookup _ _ _ _ _ _ Sr Er) as (rl & Hrl & Crl).
  rewrite (step_running st giver receiver Eg Er). cbv zeta.
  cbn [giverIdx receiverIdx].
  set (amt := JS.Math_min (PrimFloat.abs (Entry.amount giver)) (Entry.amount receiver)).
  cbn [Heap.match_loop].
  rewrite (bind_Some _ _ _ _ _ (length_of_Some _ _ _ Hg)).
  rewrite (bind_Some _ _ _ _ _ (length_of_Some _ _ _ Hr)).
  rewrite !length_map, (held_length _ _ _ _ Sg), (held_length _ _ _ _ Sr).
  change ((giverIdx st <? length (givers st))%nat
          && (receiverIdx st <? length (receivers st))%nat) with (running st).
  rewrite Hrun.
  rewrite (bind_Some _ _ _ _ _ (at_index_Some _ _ _ _ _ Hg (lookup_map_Ref _ _ _ Hgl))).
  rewrite (bind_Some _ _ _ _ _ (at_index_Some _ _ _ _ _ Hr (lookup_map_Ref _ _ _ Hrl))).
  rewrite (bind_Some _ _ _ _ _ (amount_of_entry _ _ _ Cgl)).
  rewrite (bind_Some _ _ _ _ _ (amount_of_entry _ _ _ Crl)).
  cbv zeta. fold amt.
  set (edge := Edge.mk (Entry.member giver) (Entry.member receiver) (JS.toFixed2 amt)).
  match goal with
  | |- context [Heap.bind (if ?c then ?blk else ?e) _ h] =>
      assert (Hemit : exists h2 els2,
                 (if c then blk else e) h = Some (tt, h2)
                 /\ take base h2 = take base h
                 /\ cells base g r res gls rls els2 (givers st) (receivers st)
                      (if PrimFloat.ltb eps amt then results st ++ [edge]
                       else results st) h2)
  end.
  { change (PrimFloat.ltb eps amt) with (PrimFloat.ltb 0.01 amt).
    destruct (PrimFloat.ltb 0.01 amt).
    - rewrite (bind_Some _ _ _ _ _ (member_of_entry _ _ _ Cgl)).
      rewrite (bind_Some _ _ _ _ _ (member_of_entry _ _ _ Crl)).
      rewrite (bind_Some _ _ _ (Heap.Ref (length h))
                 (h ++ [Heap.edge_cell edge]) eq_refl).
      rewrite (push_Some _ res (map Heap.Ref els))
        by (now apply lookup_app_l_Some).
      destruct (cells_emit _ _ _ _ _ _ _ _ _ _ _ edge Hinv) as [C T].
      eexists _, _. split; [reflexivity|]. split; eassumption.
    - exists h, els. split; [reflexivity|]. split; [reflexivity|exact Hinv]. }
  destruct Hemit as (h2 & els2 & E2 & T2 & C2).
  rewrite (bind_Some _ _ _ _ _ E2).
  pose proof C2 as (_ & _ & _ & Sg2 & _).
  rewrite (bind_Some _ _ _ _ _
             (amount_of_entry _ _ _ (held_at _ _ _ _ _ _ _ Sg2 Hgl Eg))).
  rewrite (bind_Some _ _ _ _ _
             (set_amount_of_entry _ _ _ (PrimFloat.add (Entry.amount giver) amt)
                (held_at _ _ _ _ _ _ _ Sg2 Hgl Eg))).
  destruct (cells_set_giver _ _ _ _ _ _ _ _ _ _ _ _ _
              (Entry.mk (Entry.member giver) (PrimFloat.add (Entry.amount giver) amt))
              C2 Hgl) as [C3 T3].
  pose proof C3 as (_ & _ & _ & Sg3 & Sr3 & _).
  rewrite (bind_Some _ _ _ _ _
             (amount_of_entry _ _ _ (held_at _ _ _ _ _ _ _ Sr3 Hrl Er))).
  rewrite (bind_Some _ _ _ _ _
             (set_amount_of_entry _ _ _ (PrimFloat.sub (Entry.amount receiver) amt)
                (held_at _ _ _ _ _ _ _ Sr3 Hrl Er))).
  destruct (cells_set_receiver _ _ _ _ _ _ _ _ _ _ _ _ _
              (Entry.mk (Entry.member receiver)
                        (PrimFloat.sub (Entry.amount receiver) amt))
              C3 Hrl) as [C4 T4].
  pose proof C4 as (_ & _ & _ & Sg4 & Sr4 & _).
  assert (Lg : giverIdx st < length (givers st)) by (eapply lookup_lt_Some; eassumption).
  assert (Lr : receiverIdx st < length (receivers st))
    by (eapply lookup_lt_Some; eassumption).
  rewrite (bind_Some _ _ _ _ _
             (amount_of_entry _ _ _
                (held_at _ _ _ _ _ _ _ Sg4 Hgl (list_lookup_insert_eq _ _ _ Lg)))).
  rewrite (bind_Some _ _ _ _ _
             (amount_of_entry _ _ _
                (held_at _ _ _ _ _ _ _ Sr4 Hrl (list_lookup_insert_eq _ _ _ Lr)))).
  eexists _, els2. split; [reflexivity|]. split; [|exact C4].
  now rewrite T4, T3, T2.
Qed.

Lemma match_loop_condition base g r res gls rls els st h :
  loop_inv base g r res gls rls els st h ->
  forall fuel,
    Heap.match_loop fuel (Heap.Ref g) (Heap.Ref r) (Heap.Ref res)
                    (giverIdx st) (receiverIdx st) h
    = if running st
      then match fuel with
           | O => None
           | S fuel' =>
               Heap.match_loop (S fuel') (Heap.Ref g) (Heap.Ref r) (Heap.Ref res)
                               (giverIdx st) (receiverIdx st) h
           end
      else Some (tt, h).
Proof.
  intros (Hg & Hr & _ & Sg & Sr & _) fuel.
  destruct (running st) eqn:Hrun; [destruct fuel; [|reflexivity]|destruct fuel];
    cbn [Heap.match_loop];
    rewrite (bind_Some _ _ _ _ _ (length_of_Some _ _ _ Hg));
    rewrite (bind_Some _ _ _ _ _ (length_of_Some _ _ _ Hr));
    rewrite !length_map, (held_length _ _ _ _ Sg), (held_length _ _ _ _ Sr);
    change ((giverIdx st <? length (givers st))%nat
            && (receiverIdx st <? length (receivers st))%nat) with (running st);
    rewrite Hrun; reflexivity.
Qed.

(** The loop on the heap is [while]: it returns when [while] does, with
    the arrays holding the final state, and nothing below [base] touched. *)
Lemma match_loop_refines base g r res gls rls : forall fuel els st h,
  loop_inv base g r res gls rls els st h ->
  match Heap.match_loop fuel (Heap.Ref g) (Heap.Ref r) (Heap.Ref res)
                        (giverIdx st) (receiverIdx st) h with
  | Some (_, h') =>
      exists st' els',
        while fuel st = Some st'
        /\ take base h' = take base h
        /\ loop_inv base g r res gls rls els' st' h'
  | None => while fuel st = None
  end.
Proof.
  induction fuel as [|fuel IH]; intros els st h Hinv;
    rewrite (match_loop_condition _ _ _ _ _ _ _ _ _ Hinv), while_unfold;
    destruct (running st) eqn:Hrun; try reflexivity;
    try (exists st, els; split; [reflexivity|]; split; [reflexivity|assumption]).
  destruct (iteration_refines _ _ _ _ _ _ _ _ _ fuel Hinv Hrun)
    as (h1 & els1 & E1 & T1 & C1).
  rewrite E1. specialize (IH els1 (step st) h1 C1).
  destruct (Heap.match_loop fuel (Heap.Ref g) (Heap.Ref r) (Heap.Ref res)
              (giverIdx (step st)) (receiverIdx (step st)) h1) as [[[] h2]|];
    [|assumption].
  destruct IH as (st' & els' & W & T2 & C2).
  exists st', els'. split; [assumption|]. split; [|assumption]. now rewrite T2.
Qed.

(** **** The call *)

Lemma all_edges_held h els es :
  held Heap.edge_cell h els es -> Heap.all_edges h (map Heap.Ref els) = Some es.
Proof.
  induction 1 as [|l e els es Hl _ IH]; [reflexivity|].
  cbn [map Heap.all_edges Heap.edge_at]. rewrite Hl, IH. now destruct e.
Qed.

(** [simplifyDebts] on the heap is [simplifyDebts] of the map the object
    holds: it returns when that does, the array it returns holds the same
    settlements, and the heap it was called on is still there. *)
Lemma simplifyDebts_on_heap fuel h l (nb : Balances float) :
  h !! l = Some (Heap.object_of nb) ->
  match Heap.simplifyDebts fuel (Heap.Ref l) h with
  | Some (results, h') =>
      take (length h) h' = h
      /\ exists edges,
           simplifyDebts fuel nb = Some edges
           /\ Heap.edges_at h' results = Some edges
  | None => simplifyDebts fuel nb = None
  end.
Proof.
  intros Hl. pose proof (lookup_lt_Some _ _ _ Hl) as Ll.
  unfold Heap.simplifyDebts.
  set (g := length h). set (h1 := h ++ [Heap.Arr []]).
  rewrite (bind_Some _ _ _ (Heap.Ref g) h1 eq_refl).
  set (r := length h1). set (h2 := h1 ++ [Heap.Arr []]).
  rewrite (bind_Some _ _ _ (Heap.Ref r) h2 eq_refl).
  assert (Lh1 : length h1 = S g) by (unfold h1; rewrite length_app; simpl; lia).
  assert (Hl2 : h2 !! l = Some (Heap.object_of nb))
    by (unfold h2, h1; now do 2 apply lookup_app_l_Some).
  rewrite (bind_Some _ _ _ _ _ (entries_Some _ _ _ Hl2)).
  assert (A2 : arrays g g r [] [] [] [] h2).
  { unfold arrays, h2. split; [|split; [|split; [|split; [|split]]]].
    - apply lookup_app_l_Some. apply lookup_new.
    - apply lookup_new.
    - constructor.
    - constructor.
    - constructor.
    - repeat split; [lia|lia|lia|constructor]. }
  assert (T2 : take g h2 = h).
  { unfold h2, h1. rewrite <- app_assoc. apply take_app_length. }
  destruct (classify_all_refines g g r nb [] [] [] [] h2 A2)
    as (h3 & gls & rls & E3 & T3 & A3).
  rewrite (bind_Some _ _ _ _ _ E3).
  unfold simplifyDebts, initial. rewrite separate_classified.
  destruct (fold_left classified nb ([], [])) as [gs rs]. cbn [fst snd] in A3.
  destruct A3 as (Hg & Hr & Sg & Sr & Hnd & Hgr & Ng & Nr & Hfr).
  pose proof (held_apart _ _ _ _ _ _ Sg Hg (fun x => entry_not_array x _)) as Ag.
  pose proof (held_apart _ _ _ _ _ _ Sr Hg (fun x => entry_not_array x _)) as Ar.
  pose proof (held_apart _ _ _ _ _ _ Sg Hr (fun x => entry_not_array x _)) as Bg.
  pose proof (held_apart _ _ _ _ _ _ Sr Hr (fun x => entry_not_array x _)) as Br.
  destruct (sort_refines _ _ _ _ _ _ (compares_ascending h3) Hg Sg)
    as (gls' & E4 & Sg' & Pg).
  rewrite (bind_Some _ _ _ _ _ E4).
  set (h4 := <[g := Heap.Arr (map Heap.Ref gls')]> h3) in *.
  assert (Hr4 : h4 !! r = Some (Heap.Arr (map Heap.Ref rls)))
    by (unfold h4; now rewrite list_lookup_insert_ne).
  assert (Sr4 : held Heap.entry_cell h4 rls rs) by now apply held_other.
  destruct (sort_refines _ _ _ _ _ _ (compares_descending h4) Hr4 Sr4)
    as (rls' & E5 & Sr' & Pr).
  rewrite (bind_Some _ _ _ _ _ E5).
  set (h5 := <[r := Heap.Arr (map Heap.Ref rls')]> h4) in *.
  set (res := length h5). set (h6 := h5 ++ [Heap.Arr []]).
  rewrite (bind_Some _ _ _ (Heap.Ref res) h6 eq_refl).
  pose proof (lookup_lt_Some _ _ _ Hg) as Lg.
  pose proof (lookup_lt_Some _ _ _ Hr) as Lr.
  assert (L4 : length h4 = length h3) by (unfold h4; apply length_insert).
  assert (L5 : length h5 = length h3) by (unfold h5; now rewrite length_insert).
  assert (Ag' : ~ In g gls') by (rewrite <- list_elem_of_In, Pg, list_elem_of_In; assumption).
  assert (Bg' : ~ In r gls') by (rewrite <- list_elem_of_In, Pg, list_elem_of_In; assumption).
  assert (Br' : ~ In r rls') by (rewrite <- list_elem_of_In, Pr, list_elem_of_In; assumption).
  set (st0 := mkState nb (sort ascending gs) (sort descending rs) [] 0 0).
  assert (Hinv : loop_inv g g r res gls' rls' [] st0 h6).
  { unfold loop_inv, cells, st0, h6. cbn [givers receivers results].
    split; [|split; [|split; [|split; [|split; [|split; [|split]]]]]].
    - apply lookup_app_l_Some. unfold h5. rewrite list_lookup_insert_ne by auto.
      unfold h4. now apply list_lookup_insert_eq.
    - apply lookup_app_l_Some. unfold h5. apply list_lookup_insert_eq. lia.
    - apply lookup_new.
    - apply held_alloc. unfold h5. apply held_other; [|assumption].
      unfold h4. now apply held_other.
    - apply held_alloc. unfold h5. now apply held_other.
    - constructor.
    - now rewrite Pg, Pr.
    - unfold res. repeat split; try lia. now rewrite Pg, Pr. }
  pose proof (match_loop_refines g g r res gls' rls' fuel [] st0 h6 Hinv) as HL.
  cbn [giverIdx receiverIdx st0] in HL.
  destruct (Heap.match_loop fuel (Heap.Ref g) (Heap.Ref r) (Heap.Ref res) 0 0 h6)
    as [[[] h7]|] eqn:EL.
  - rewrite (bind_Some _ _ _ _ _ EL). cbn [Heap.ret].
    destruct HL as (st' & els' & W & T7 & C7). split.
    + rewrite T7. unfold h6. rewrite take_app_le by lia.
      unfold h5. rewrite take_insert_ge by lia.
      unfold h4. rewrite take_insert_ge by lia. now rewrite T3.
    + exists (results st'). fold st0. rewrite W. split; [reflexivity|].
      destruct C7 as (_ & _ & Hres & _ & _ & Se & _).
      unfold Heap.edges_at. rewrite Hres. now apply all_edges_held.
  - rewrite (bind_None _ _ _ EL). fold st0. now rewrite HL.
Qed.

(** **** A heap that extends another *)

Lemma extends_lookup h h' :
  take (length h) h' = h -> forall l c, h !! l = Some c -> h' !! l = Some c.
Proof.
  intros E l c H. rewrite <- E in H. apply lookup_take_Some in H. tauto.
Qed.

Lemma edge_at_extends h h' v e :
  (forall l c, h !! l = Some c -> h' !! l = Some c) ->
  Heap.edge_at h v = Some e -> Heap.edge_at h' v = Some e.
Proof.
  intros F. destruct v as [x|s|l]; try discriminate. cbn [Heap.edge_at].
  destruct (h !! l) as [c|] eqn:E; [|discriminate].
  now rewrite (F _ _ E).
Qed.

Lemma all_edges_extends h h' vs : forall es,
  (forall l c, h !! l = Some c -> h' !! l = Some c) ->
  Heap.all_edges h vs = Some es -> Heap.all_edges h' vs = Some es.
Proof.
  induction vs as [|v vs IH]; intros es F; cbn [Heap.all_edges]; [auto|].
  destruct (Heap.edge_at h v) as [e|] eqn:E; [|discriminate].
  destruct (Heap.all_edges h vs) as [es'|] eqn:E'; [|discriminate].
  intros [= <-]. now rewrite (edge_at_extends _ _ _ _ F E), (IH es' F eq_refl).
Qed.

(** What a call returned is still what it was after later calls. *)
Lemma edges_at_extends h h' v es :
  (forall l c, h !! l = Some c -> h' !! l = Some c) ->
  Heap.edges_at h v = Some es -> Heap.edges_at h' v = Some es.
Proof.
  intros F. destruct v as [x|s|l]; try discriminate. cbn [Heap.edges_at].
  destruct (h !! l) as [c|] eqn:E; [|discriminate].
  rewrite (F _ _ E). destruct c; [discriminate|]. now apply all_edges_extends.
Qed.

End HeapRefinement.

(** * Plans and balances on binary64

    More of what the two functions do on binary64 numbers: who appears
    in a plan and in which order, what the amounts are, and the runs on
    whole numbers, where no operation rounds. *)

(** ** Lists *)

Section ListFacts.
Context {T U : Type}.

Lemma filter_filter_implied (p q : T -> bool) (l : list T) :
  (forall x, p x = true -> q x = true) ->
  List.filter p (List.filter q l) = List.filter p l.
Proof.
  intros H. induction l as [|x l IH]; [reflexivity|]. cbn [List.filter].
  destruct (q x) eqn:Eq; cbn [List.filter].
  - now rewrite IH.
  - destruct (p x) eqn:Ep; [|assumption]. apply H in Ep. congruence.
Qed.

Lemma filter_filter_andb (p q : T -> bool) (l : list T) :
  List.filter p (List.filter q l) = List.filter (fun x => q x && p x) l.
Proof.
  induction l as [|x l IH]; [reflexivity|]. cbn [List.filter].
  destruct (q x); cbn [List.filter andb]; [|assumption].
  destruct (p x); now rewrite IH.
Qed.

Lemma filter_map_comm (f : T -> U) (p : U -> bool) (l : list T) :
  List.filter p (map f l) = map f (List.filter (fun x => p (f x)) l).
Proof.
  induction l as [|x l IH]; [reflexivity|]. cbn [List.filter map].
  destruct (p (f x)); cbn [map]; now rewrite IH.
Qed.

Lemma filter_none (p : T -> bool) (l : list T) :
  (forall x, In x l -> p x = false) -> List.filter p l = [].
Proof.
  induction l as [|x l IH]; intros H; [reflexivity|]. cbn [List.filter].
  rewrite (H x) by now left. apply IH. intros y Hy. apply H. now right.
Qed.

End ListFacts.

(** ** Who appears in a plan *)

Section PlanFacts.
Context {num : Type} {A : Arith num}.
Implicit Types (st : State num) (nb : Balances num).

(** The edges pushed so far go from a member of [givers] to a member of
    [receivers], as these were on entry to the loop. *)
Lemma edges_between_initial nb n :
  List.Forall
    (fun e => In (Edge.from e) (members (givers (initial nb)))
              /\ In (Edge.to e) (members (receivers (initial nb))))
    (results (Nat.iter n step (initial nb))).
Proof.
  pose (P := fun st : State num =>
               edges_between st
               /\ members (givers st) = members (givers (initial nb))
               /\ members (receivers st) = members (receivers (initial nb))).
  assert (H : P (Nat.iter n step (initial nb))).
  { apply iter_invariant.
    - intros st (H1 & H2 & H3). split; [now apply edges_between_step|].
      now rewrite members_givers_step, members_receivers_step.
    - split; [|now split]. unfold edges_between. rewrite results_initial.
      constructor. }
  destruct H as (H1 & H2 & H3). unfold edges_between in H1.
  now rewrite H2, H3 in H1.
Qed.

Lemma In_members_givers_initial nb k :
  In k (members (givers (initial nb))) ->
  exists v, In (k, v) nb /\ ltb v neg_eps = true.
Proof.
  unfold members. rewrite in_map_iff. intros (g & <- & Hg).
  apply In_givers_initial in Hg as [Hin Hg]. eauto.
Qed.

Lemma In_members_receivers_initial nb k :
  In k (members (receivers (initial nb))) ->
  exists w, In (k, w) nb /\ ltb eps w = true.
Proof.
  unfold members. rewrite in_map_iff. intros (r & <- & Hr).
  apply In_receivers_initial in Hr as [Hin Hr].
  apply andb_true_iff in Hr as [_ Hr]. eauto.
Qed.

Lemma returned_edges_classified nb fuel edges :
  simplifyDebts fuel nb = Some edges ->
  List.Forall
    (fun e => In (Edge.from e) (members (givers (initial nb)))
              /\ In (Edge.to e) (members (receivers (initial nb))))
    edges.
Proof.
  intros H. apply simplifyDebts_while in H as (st & H & <-).
  apply while_iter in H as [n ->]. apply edges_between_initial.
Qed.

(** With no giver or no receiver the loop body never runs. *)
Lemma nothing_to_match nb fuel :
  givers (initial nb) = [] \/ receivers (initial nb) = [] ->
  simplifyDebts fuel nb = Some [].
Proof.
  intros H. unfold simplifyDebts. rewrite while_unfold.
  assert (Hrun : running (initial nb) = false).
  { unfold running. rewrite giverIdx_initial, receiverIdx_initial.
    destruct H as [-> | ->]; simpl; [reflexivity|apply andb_false_r]. }
  rewrite Hrun. simpl. now rewrite results_initial.
Qed.

Lemma sort_nil_inv cmp (l : list (Entry.t num)) : sort cmp l = [] -> l = [].
Proof.
  intros H. apply (f_equal (@length _)) in H. rewrite length_sort in H.
  now destruct l.
Qed.

(** [balances] after step 1: every entry is [0]. *)
Lemma init_balances_zero (gm : list string) k v :
  In (k, v) (init_balances gm) -> v = zero.
Proof.
  unfold init_balances.
  assert (H : forall b : Balances num,
             (forall k v, In (k, v) b -> v = zero) ->
             forall k v, In (k, v) (fold_left (fun b m => set m zero b) gm b) ->
                         v = zero).
  { induction gm as [|m gm IH]; intros b Hb; [exact Hb|].
    cbn [fold_left]. apply IH. clear IH. intros k' v'.
    induction b as [|[k0 v0] b IHb]; simpl.
    - intros [[= _ <-]|[]]. reflexivity.
    - destruct (String.eqb m k0).
      + intros [[= _ <-]|Hin]; [reflexivity|]. eapply Hb. right. eassumption.
      + intros [[= <- <-]|Hin]; [eapply Hb; now left|].
        apply IHb; [|assumption]. intros k1 v1 H1. eapply Hb. right. eassumption. }
  apply H. intros ? ? [].
Qed.

(** Without duplicates, the roster is the key order. *)
Lemma keys_fold_set (gm : list string) : forall b : Balances num,
    List.NoDup (keys b ++ gm) ->
    keys (fold_left (fun b m => set m zero b) gm b) = keys b ++ gm.
Proof.
  induction gm as [|m gm IH]; intros b Hnd; cbn [fold_left].
  - now rewrite app_nil_r.
  - assert (Hm : ~ In m (keys b)).
    { intros Hin. apply NoDup_remove_2 in Hnd. apply Hnd.
      apply in_or_app. now left. }
    rewrite IH; rewrite keys_set_absent by assumption.
    + now rewrite <- app_assoc.
    + now rewrite <- app_assoc.
Qed.

Lemma keys_calculateNetBalances_NoDup es (gm : list string) :
  List.NoDup gm -> keys (calculateNetBalances es gm) = gm.
Proof.
  intros Hnd. unfold calculateNetBalances. rewrite keys_fold_process.
  unfold init_balances. now rewrite keys_fold_set.
Qed.

End PlanFacts.

(** ** The order of binary64 numbers *)

(** Every binary64 number that is not NaN has a place on the integer line:
    a finite number [m * 2^e] at [m * 2^(e + 1074)], the infinities beyond
    all of these.  Comparison of numbers is comparison of their places. *)
Module Order64.
Import SF Binary64.
Local Open Scope Z_scope.

Definition rank (x : spec_float) : Z :=
  match x with
  | S754_zero _ | S754_nan => 0
  | S754_finite s m e => cond_Zopp s (Zpos m * 2 ^ (e + 1074))
  | S754_infinity s => cond_Zopp s (2 ^ 2098)
  end.

Definition number (x : spec_float) : Prop := x <> S754_nan.

Lemma finite_rank_bounds m e :
  bounded prec emax m e = true ->
  0 < Zpos m * 2 ^ (e + 1074) < 2 ^ 2098.
Proof.
  intros H. pose proof (bounded_canonical m e H) as Hc.
  pose proof (bounded_emin m e H) as He.
  unfold bounded in H. apply andb_true_iff in H as [_ Hb]. apply Z.leb_le in Hb.
  unfold SpecFloat.emin, prec, emax in *.
  pose proof (digits2_pos_bounds m) as [_ Hd].
  assert (Hd' : Zpos (digits2_pos m) <= 53) by lia.
  assert (H1 : 2 ^ Zpos (digits2_pos m) <= 2 ^ 53) by (apply Z.pow_le_mono_r; lia).
  assert (H2 : 0 < 2 ^ (e + 1074)) by (apply Z.pow_pos_nonneg; lia).
  assert (H3 : 2 ^ (e + 1074) <= 2 ^ 2045) by (apply Z.pow_le_mono_r; lia).
  split; [lia|].
  assert (HP : 2 ^ 2098 = 2 ^ 53 * 2 ^ 2045)
    by (rewrite <- Z.pow_add_r by lia; f_equal).
  rewrite HP.
  assert (Zpos m < 2 ^ 53) by lia.
  assert (0 < 2 ^ 2045) by (apply Z.pow_pos_nonneg; lia).
  nia.
Qed.

Lemma mantissa_at_rank s m e ez :
  -1074 <= ez -> ez <= e ->
  cond_Zopp s (Zpos m * 2 ^ (e + 1074)) = mantissa_at ez s m e * 2 ^ (ez + 1074).
Proof.
  intros H1 H2. unfold mantissa_at. rewrite shl_align_value by assumption.
  replace (e + 1074) with ((e - ez) + (ez + 1074)) by lia.
  rewrite Z.pow_add_r by lia. destruct s; cbn [cond_Zopp]; lia.
Qed.

Lemma SFcompare_rank x y :
  valid x -> valid y -> number x -> number y ->
  SFcompare x y = Some (rank x ?= rank y).
Proof.
  unfold valid, number.
  assert (HI : 0 < 2 ^ 2098) by (apply Z.pow_pos_nonneg; lia).
  destruct x as [sx|sx| |sx mx ex], y as [sy|sy| |sy my ey];
    cbn [valid_binary]; intros Vx Vy Nx Ny; try congruence;
    try pose proof (finite_rank_bounds mx ex Vx);
    try pose proof (finite_rank_bounds my ey Vy).
  9:{ rewrite SFcompare_finite by assumption. f_equal.
      pose proof (bounded_emin _ _ Vx) as Ex. pose proof (bounded_emin _ _ Vy) as Ey.
      unfold SpecFloat.emin, prec, emax in Ex, Ey.
      cbn [rank].
      rewrite (mantissa_at_rank sx mx ex (Z.min ex ey)) by lia.
      rewrite (mantissa_at_rank sy my ey (Z.min ex ey)) by lia.
      apply Zmult_compare_compat_r. apply Z.lt_gt, Z.pow_pos_nonneg; lia. }
  all: try destruct sx; try destruct sy; cbn [SFcompare rank cond_Zopp];
    apply (f_equal Some); symmetry;
    first [apply Z.compare_eq_iff; lia
          | apply Z.compare_lt_iff; lia
          | apply Z.compare_gt_iff; lia].
Qed.

(** The place of a JavaScript number. *)
Definition place (x : float) : Z := rank (Prim2SF x).

Lemma is_nan_number x : PrimFloat.is_nan x = false <-> number (Prim2SF x).
Proof.
  rewrite is_nan_spec. unfold number. destruct (Prim2SF x); split; congruence.
Qed.

Lemma ltb_place x y :
  PrimFloat.ltb x y = true <->
  PrimFloat.is_nan x = false /\ PrimFloat.is_nan y = false /\ place x < place y.
Proof.
  rewrite FloatAxioms.ltb_spec, !is_nan_spec. unfold SFltb, place.
  destruct (Prim2SF x) eqn:Ex; destruct (Prim2SF y) eqn:Ey;
    try (cbn [SFcompare]; split; [discriminate | intros (? & ? & ?); discriminate]);
    rewrite <- Ex, <- Ey;
    (rewrite SFcompare_rank;
     [|apply valid_SF|apply valid_SF|rewrite Ex; discriminate|rewrite Ey; discriminate]);
    destruct (Z.compare_spec (rank (Prim2SF x)) (rank (Prim2SF y)));
    split; try discriminate; try (intros (_ & _ & ?); lia); auto.
Qed.

Lemma ltb_false_place x y :
  PrimFloat.is_nan x = false -> PrimFloat.is_nan y = false ->
  PrimFloat.ltb x y = false -> place y <= place x.
Proof.
  intros Nx Ny H. destruct (Z.le_gt_cases (place y) (place x)) as [|Hlt]; [assumption|].
  assert (PrimFloat.ltb x y = true) by (apply ltb_place; auto). congruence.
Qed.

Lemma ltb_number_l x y : PrimFloat.ltb x y = true -> PrimFloat.is_nan x = false.
Proof. intros H. now apply ltb_place in H. Qed.

Lemma ltb_number_r x y : PrimFloat.ltb x y = true -> PrimFloat.is_nan y = false.
Proof. intros H. now apply ltb_place in H. Qed.

Lemma place_abs x : place (PrimFloat.abs x) = Z.abs (place x).
Proof.
  unfold place. rewrite FloatAxioms.abs_spec.
  pose proof (valid_SF x) as V. unfold valid in V.
  destruct (Prim2SF x) as [s|s| |s m e]; cbn [SFabs rank cond_Zopp]; try reflexivity.
  - assert (0 < 2 ^ 2098) by (apply Z.pow_pos_nonneg; lia). destruct s; cbn [cond_Zopp]; lia.
  - pose proof (finite_rank_bounds m e V). destruct s; cbn [cond_Zopp]; lia.
Qed.

Lemma is_nan_abs x : PrimFloat.is_nan (PrimFloat.abs x) = PrimFloat.is_nan x.
Proof.
  rewrite !is_nan_spec, FloatAxioms.abs_spec. now destruct (Prim2SF x).
Qed.

(** [Math.min] of two numbers is one of them, and the smaller. *)
Lemma Math_min_place x y :
  PrimFloat.is_nan x = false -> PrimFloat.is_nan y = false ->
  (JS.Math_min x y = x \/ JS.Math_min x y = y)
  /\ place (JS.Math_min x y) = Z.min (place x) (place y).
Proof.
  intros Nx Ny. unfold JS.Math_min. rewrite Nx, Ny. cbn [orb].
  destruct (PrimFloat.ltb x y) eqn:Exy.
  - apply ltb_place in Exy as (_ & _ & H). split; [now left|lia].
  - destruct (PrimFloat.ltb y x) eqn:Eyx.
    + apply ltb_place in Eyx as (_ & _ & H). split; [now right|lia].
    + apply ltb_false_place in Exy, Eyx; try assumption.
      destruct (get_sign x); split; auto; lia.
Qed.

Lemma place_eps : place eps = 5764607523034235 * 2 ^ 1015.
Proof. unfold place. rewrite SF_eps. reflexivity. Qed.

Lemma place_neg_eps : place neg_eps = - (5764607523034235 * 2 ^ 1015).
Proof. unfold place. rewrite SF_neg_eps. reflexivity. Qed.


End Order64.

(** ** Rounding to binary64 in the normal range *)

(** What rounding does to a mantissa of at least 53 digits whose rounded
    exponent is above the smallest one: the result is a valid number with
    a full mantissa, or an infinity. *)
Module Rounding64.
Import SF Binary64.
Local Open Scope Z_scope.

Lemma shr_1_upper mrs k :
  0 <= shr_m mrs -> shr_m mrs < 2 * k -> shr_m (shr_1 mrs) < k.
Proof. destruct mrs as [[|[p|p|]|[p|p|]] r s]; cbn [shr_1 shr_m]; lia. Qed.

Lemma iter_shr_1_nonneg n mrs :
  0 <= shr_m mrs -> 0 <= shr_m (SpecFloat.iter_pos shr_1 n mrs).
Proof.
  apply (iter_pos_invariant (fun r => 0 <= shr_m r)). apply shr_1_nonneg.
Qed.

Lemma iter_shr_1_upper n : forall mrs k,
    0 <= shr_m mrs -> shr_m mrs < 2 ^ Zpos n * k ->
    shr_m (SpecFloat.iter_pos shr_1 n mrs) < k.
Proof.
  induction n as [n IH|n IH|]; intros mrs k H0 H; simpl.
  - assert (0 < 2 ^ Zpos n) by (apply Z.pow_pos_nonneg; lia).
    rewrite pow2_xI in H.
    apply IH; [apply iter_shr_1_nonneg, shr_1_nonneg, H0|].
    apply IH; [apply shr_1_nonneg, H0|]. apply shr_1_upper; [assumption|lia].
  - assert (0 < 2 ^ Zpos n) by (apply Z.pow_pos_nonneg; lia).
    rewrite pow2_xO in H.
    apply IH; [apply iter_shr_1_nonneg, H0|]. apply IH; [assumption|lia].
  - apply shr_1_upper; [assumption|]. change (2 ^ 1) with 2 in H. lia.
Qed.

Lemma digits_unique m k :
  2 ^ (k - 1) <= Zpos m < 2 ^ k -> 1 <= k -> Zpos (digits2_pos m) = k.
Proof.
  intros [L U] Hk. pose proof (digits2_pos_bounds m) as [L' U'].
  destruct (Z.lt_trichotomy (Zpos (digits2_pos m)) k) as [H|[H|H]]; [|assumption|].
  - assert (2 ^ Zpos (digits2_pos m) <= 2 ^ (k - 1)) by (apply Z.pow_le_mono_r; lia).
    lia.
  - assert (2 ^ k <= 2 ^ (Zpos (digits2_pos m) - 1)) by (apply Z.pow_le_mono_r; lia).
    lia.
Qed.

Lemma digits_ge m k : 2 ^ (k - 1) <= Zpos m -> k <= Zpos (digits2_pos m).
Proof.
  intros L. pose proof (digits2_pos_bounds m) as [_ U].
  destruct (Z.le_gt_cases k (Zpos (digits2_pos m))) as [|H]; [assumption|].
  assert (2 ^ Zpos (digits2_pos m) <= 2 ^ (k - 1)) by (apply Z.pow_le_mono_r; lia).
  lia.
Qed.

(** A mantissa of [d >= 53] digits, cut to 53. *)
Lemma shr_fexp_normal p e l :
  53 <= Zpos (digits2_pos p) ->
  -1074 < Zpos (digits2_pos p) + e - 53 ->
  exists mrs,
    shr_fexp prec emax (Zpos p) e l = (mrs, Zpos (digits2_pos p) + e - 53)
    /\ 2 ^ 52 <= shr_m mrs < 2 ^ 53.
Proof.
  intros Hd HE. pose proof (digits2_pos_bounds p) as [L U].
  unfold shr_fexp, shr, fexp, SpecFloat.emin, prec, emax. cbn [Zdigits2].
  replace (Z.max (Zpos (digits2_pos p) + e - 53) (3 - 1024 - 53) - e)
    with (Zpos (digits2_pos p) - 53) by lia.
  destruct (Zpos (digits2_pos p) - 53) as [|n|n] eqn:En; [| |lia].
  - eexists. split; [f_equal; lia|]. rewrite shr_record_of_loc_m.
    replace (Zpos (digits2_pos p)) with 53 in * by lia. split; [exact L|exact U].
  - eexists. split; [f_equal; lia|].
    assert (Hp : 2 ^ Zpos (digits2_pos p) = 2 ^ Zpos n * 2 ^ 53).
    { rewrite <- Z.pow_add_r by lia. f_equal. lia. }
    assert (Hq : 2 ^ (Zpos (digits2_pos p) - 1) = 2 ^ Zpos n * 2 ^ 52).
    { rewrite <- Z.pow_add_r by lia. f_equal. lia. }
    split.
    + apply iter_shr_1_lower; [apply Z.pow_nonneg; lia|].
      rewrite shr_record_of_loc_m. lia.
    + apply iter_shr_1_upper; rewrite shr_record_of_loc_m; lia.
Qed.

(** A rounded mantissa, brought back to 53 digits if rounding carried. *)
Lemma shr_fexp_rounded m E :
  2 ^ 52 <= m <= 2 ^ 53 -> -1074 < E ->
  exists mrs e3 p,
    shr_fexp prec emax m E loc_Exact = (mrs, e3)
    /\ shr_m mrs = Zpos p /\ 2 ^ 52 <= Zpos p
    /\ E <= e3 /\ canonical_mantissa prec emax p e3 = true.
Proof.
  intros [L U] HE.
  destruct m as [|p|p]; [change (2 ^ 52) with 4503599627370496 in L; lia| |lia].
  destruct (Z.eq_dec (Zpos p) (2 ^ 53)) as [E53|N53].
  - change (2 ^ 53) with 9007199254740992 in E53. injection E53 as ->.
    exists (Build_shr_record 4503599627370496 false false), (E + 1), 4503599627370496%positive.
    split; [|split; [reflexivity|split; [reflexivity|split; [lia|]]]].
    + unfold shr_fexp, shr, fexp, SpecFloat.emin, prec, emax.
      change (Zdigits2 9007199254740992) with 54.
      replace (Z.max (54 + E - 53) (3 - 1024 - 53) - E) with 1 by lia.
      reflexivity.
    + unfold canonical_mantissa, fexp, SpecFloat.emin, prec, emax.
      change (Zpos (digits2_pos 4503599627370496)) with 53.
      apply Z.eqb_eq. lia.
  - assert (D : Zpos (digits2_pos p) = 53) by (apply digits_unique; lia).
    exists (shr_record_of_loc (Zpos p) loc_Exact), E, p.
    split; [|split; [reflexivity|split; [assumption|split; [lia|]]]].
    + unfold shr_fexp, shr, fexp, SpecFloat.emin, prec, emax. cbn [Zdigits2].
      rewrite D. replace (Z.max (53 + E - 53) (3 - 1024 - 53) - E) with 0 by lia.
      reflexivity.
    + unfold canonical_mantissa, fexp, SpecFloat.emin, prec, emax. rewrite D.
      apply Z.eqb_eq. lia.
Qed.

Lemma binary_round_aux_normal sx p e l :
  53 <= Zpos (digits2_pos p) ->
  -1074 < Zpos (digits2_pos p) + e - 53 ->
  match binary_round_aux prec emax sx (Zpos p) e l with
  | S754_finite s m3 e3 =>
      s = sx /\ bounded prec emax m3 e3 = true
      /\ Zpos (digits2_pos p) + e - 53 <= e3 /\ 2 ^ 52 <= Zpos m3
  | S754_infinity s => s = sx
  | _ => False
  end.
Proof.
  intros Hd HE. unfold binary_round_aux.
  destruct (shr_fexp_normal p e l Hd HE) as (mrs & -> & Hm).
  pose proof (round_nearest_even_bounds (shr_m mrs) (loc_of_shr_record mrs)) as Hr.
  destruct (shr_fexp_rounded (round_nearest_even (shr_m mrs) (loc_of_shr_record mrs))
              (Zpos (digits2_pos p) + e - 53) ltac:(lia) HE)
    as (mrs3 & e3 & p3 & -> & -> & Hp3 & He3 & Hc).
  destruct (e3 <=? emax - prec) eqn:Hb; [|reflexivity].
  split; [reflexivity|]. split; [|split; assumption].
  unfold bounded. now rewrite Hc, Hb.
Qed.

(** *** Hundredths *)

(** [n / 100] rounded to binary64, as [Number] reads the digits that
    [toFixed(2)] prints. *)
Definition cents (s : bool) (n : positive) : spec_float :=
  SF64div (S754_finite s n 0) (S754_finite false 100 0).

Lemma cents_quotient n :
  exists q e' l,
    SFdiv_core_binary prec emax (Zpos n) 0 100 0 = (Zpos q, e', l)
    /\ 53 <= Zpos (digits2_pos q)
    /\ Z.min (Zpos (digits2_pos n) - 60) 0 <= Zpos (digits2_pos q) + e' - 53.
Proof.
  pose proof (digits2_pos_bounds n) as [L U].
  unfold SFdiv_core_binary, fexp, SpecFloat.emin, prec, emax. cbn [Zdigits2].
  change (Zpos (digits2_pos 100)) with 7.
  replace (Z.min (Z.max (Zpos (digits2_pos n) + 0 - (7 + 0) - 53) (3 - 1024 - 53)) (0 - 0))
    with (Z.min (Zpos (digits2_pos n) - 60) 0) by lia.
  set (d := Zpos (digits2_pos n)) in *.
  assert (Hd : 1 <= d) by (subst d; lia).
  destruct (Z.lt_ge_cases d 60) as [Hlt|Hge].
  - rewrite Z.min_l by lia.
    replace (0 - 0 - (d - 60)) with (60 - d) by lia.
    destruct (60 - d) as [|s|s] eqn:Es; [lia| |lia].
    rewrite Z.shiftl_mul_pow2 by lia.
    assert (Hm : 2 ^ 59 <= Zpos n * 2 ^ Zpos s).
    { replace 59 with ((d - 1) + Zpos s) by lia. rewrite Z.pow_add_r by lia.
      apply Z.mul_le_mono_nonneg_r; [apply Z.pow_nonneg; lia|exact L]. }
    pose proof (Z_div_mod (Zpos n * 2 ^ Zpos s) 100 ltac:(lia)) as Hdiv.
    destruct (Z.div_eucl (Zpos n * 2 ^ Zpos s) 100) as [q r].
    destruct Hdiv as [Hq Hr].
    change (2 ^ 59) with 576460752303423488 in Hm.
    destruct q as [|q|q]; [lia| |lia].
    exists q, (d - 60), (new_location 100 r). split; [reflexivity|].
    assert (53 <= Zpos (digits2_pos q)).
    { apply digits_ge. change (2 ^ (53 - 1)) with 4503599627370496. lia. }
    split; lia.
  - rewrite Z.min_r by lia. change (0 - 0 - 0) with 0. cbv iota.
    assert (Hm : 2 ^ 59 <= Zpos n).
    { assert (2 ^ 59 <= 2 ^ (d - 1)) by (apply Z.pow_le_mono_r; lia). lia. }
    pose proof (Z_div_mod (Zpos n) 100 ltac:(lia)) as Hdiv.
    destruct (Z.div_eucl (Zpos n) 100) as [q r].
    destruct Hdiv as [Hq Hr].
    change (2 ^ 59) with 576460752303423488 in Hm.
    destruct q as [|q|q]; [lia| |lia].
    exists q, 0, (new_location 100 r). split; [reflexivity|].
    assert (53 <= Zpos (digits2_pos q)).
    { apply digits_ge. change (2 ^ (53 - 1)) with 4503599627370496. lia. }
    split; lia.
Qed.

(** The quotient is a valid number of the sign [s]; from two hundredths on
    it is at least [2^-6]. *)
Lemma cents_cases s n :
  match cents s n with
  | S754_finite s' m e =>
      s' = s /\ bounded prec emax m e = true
      /\ Z.min (Zpos (digits2_pos n) - 60) 0 <= e /\ 2 ^ 52 <= Zpos m
  | S754_infinity s' => s' = s
  | _ => False
  end.
Proof.
  unfold cents, SF64div, SFdiv.
  destruct (cents_quotient n) as (q & e' & l & -> & Hq & HE).
  pose proof (binary_round_aux_normal (xorb s false) q e' l Hq ltac:(lia)) as H.
  rewrite xorb_false_r in *.
  destruct (binary_round_aux prec emax s (Zpos q) e' l) as [| | |s' m e]; try assumption.
  destruct H as (H1 & H2 & H3 & H4). repeat split; try assumption. lia.
Qed.

End Rounding64.

(** ** The matching loop on binary64 balances, continued *)

Section Plan64.
Import SF Binary64 Order64 Rounding64.
Implicit Types (st : State float) (nb : Balances float).

Lemma eqb_place x y :
  PrimFloat.eqb x y = true <->
  PrimFloat.is_nan x = false /\ PrimFloat.is_nan y = false /\ place x = place y.
Proof.
  rewrite FloatAxioms.eqb_spec, !is_nan_spec. unfold SFeqb, place.
  destruct (Prim2SF x) eqn:Ex; destruct (Prim2SF y) eqn:Ey;
    try (cbn [SFcompare]; split; [discriminate | intros (? & ? & ?); discriminate]);
    rewrite <- Ex, <- Ey;
    (rewrite SFcompare_rank;
     [|apply valid_SF|apply valid_SF|rewrite Ex; discriminate|rewrite Ey; discriminate]);
    destruct (Z.compare_spec (rank (Prim2SF x)) (rank (Prim2SF y)));
    split; try discriminate; try (intros (_ & _ & ?); lia); auto.
Qed.

Lemma leb_place x y :
  PrimFloat.leb x y = true <->
  PrimFloat.is_nan x = false /\ PrimFloat.is_nan y = false /\ (place x <= place y)%Z.
Proof.
  rewrite FloatAxioms.leb_spec, !is_nan_spec. unfold SFleb, place.
  destruct (Prim2SF x) eqn:Ex; destruct (Prim2SF y) eqn:Ey;
    try (cbn [SFcompare]; split; [discriminate | intros (? & ? & ?); discriminate]);
    rewrite <- Ex, <- Ey;
    (rewrite SFcompare_rank;
     [|apply valid_SF|apply valid_SF|rewrite Ex; discriminate|rewrite Ey; discriminate]);
    destruct (Z.compare_spec (rank (Prim2SF x)) (rank (Prim2SF y)));
    split; try discriminate; try (intros (_ & _ & ?); lia); intros _;
    (split; [reflexivity|split; [reflexivity|lia]]).
Qed.

Lemma place_neg_infinity_least x :
  (place neg_infinity <= place x)%Z
  /\ (PrimFloat.is_nan x = false -> place x = place neg_infinity -> x = neg_infinity).
Proof.
  unfold place. pose proof (valid_SF x) as V. unfold valid in V.
  change (rank (Prim2SF neg_infinity)) with (- 2 ^ 2098)%Z.
  assert (0 < 2 ^ 2098)%Z by (apply Z.pow_pos_nonneg; lia).
  rewrite is_nan_spec.
  destruct (Prim2SF x) as [s|s| |s m e] eqn:E; cbn [rank valid_binary] in *.
  - split; [lia|]. intros _ ?. lia.
  - split; [destruct s; cbn [cond_Zopp]; lia|]. intros _ Hs.
    destruct s; cbn [cond_Zopp] in Hs; [|lia].
    apply Prim2SF_inj. now rewrite E.
  - split; [lia|]. discriminate.
  - pose proof (finite_rank_bounds m e V).
    split; [destruct s; cbn [cond_Zopp]; lia|].
    intros _ Hs. destruct s; cbn [cond_Zopp] in Hs; lia.
Qed.

Lemma place_infinity_greatest x :
  (place x <= place infinity)%Z
  /\ (PrimFloat.is_nan x = false -> place x = place infinity -> x = infinity).
Proof.
  unfold place. pose proof (valid_SF x) as V. unfold valid in V.
  change (rank (Prim2SF infinity)) with (2 ^ 2098)%Z.
  assert (0 < 2 ^ 2098)%Z by (apply Z.pow_pos_nonneg; lia).
  rewrite is_nan_spec.
  destruct (Prim2SF x) as [s|s| |s m e] eqn:E; cbn [rank valid_binary] in *.
  - split; [lia|]. intros _ ?. lia.
  - split; [destruct s; cbn [cond_Zopp]; lia|]. intros _ Hs.
    destruct s; cbn [cond_Zopp] in Hs; [lia|].
    apply Prim2SF_inj. now rewrite E.
  - split; [lia|]. discriminate.
  - pose proof (finite_rank_bounds m e V).
    split; [destruct s; cbn [cond_Zopp]; lia|].
    intros _ Hs. destruct s; cbn [cond_Zopp] in Hs; lia.
Qed.

(** *** The first iteration *)

(** The first settlement between a debtor and a creditor is above the
    threshold. *)
Lemma first_settlement_emits g r :
  PrimFloat.ltb g neg_eps = true -> PrimFloat.ltb eps r = true ->
  PrimFloat.ltb eps (JS.Math_min (PrimFloat.abs g) r) = true.
Proof.
  intros Hg Hr. apply ltb_place in Hg as (Ng & _ & Hg), Hr as (_ & Nr & Hr).
  rewrite place_neg_eps in Hg. rewrite place_eps in Hr.
  destruct (Math_min_place (PrimFloat.abs g) r) as [Hm Hp];
    [now rewrite is_nan_abs|assumption|].
  apply ltb_place. split; [reflexivity|]. split.
  - destruct Hm as [-> | ->]; [now rewrite is_nan_abs|assumption].
  - rewrite Hp, place_abs, place_eps. lia.
Qed.

(** A plan starts with the edge of the first iteration. *)
Lemma first_edge nb g gs r rs fuel edges :
  givers (initial nb) = g :: gs -> receivers (initial nb) = r :: rs ->
  simplifyDebts fuel nb = Some edges ->
  exists rest,
    edges = Edge.mk (Entry.member g) (Entry.member r)
              (JS.toFixed2 (JS.Math_min (PrimFloat.abs (Entry.amount g))
                                        (Entry.amount r))) :: rest.
Proof.
  intros Hg Hr H.
  assert (Ig : In g (givers (initial nb))) by (rewrite Hg; now left).
  assert (Ir : In r (receivers (initial nb))) by (rewrite Hr; now left).
  apply In_givers_initial in Ig as [_ Ig].
  apply In_receivers_initial in Ir as [_ Ir]. apply andb_true_iff in Ir as [_ Ir].
  unfold is_giver in Ig. cbn [snd] in Ig, Ir.
  pose proof (first_settlement_emits _ _ Ig Ir) as Hemit.
  assert (Lg : givers (initial nb) !! giverIdx (initial nb) = Some g)
    by (now rewrite giverIdx_initial, Hg).
  assert (Lr : receivers (initial nb) !! receiverIdx (initial nb) = Some r)
    by (now rewrite receiverIdx_initial, Hr).
  assert (Hrun : running (initial nb) = true) by (apply running_lookup; eauto).
  unfold simplifyDebts in H. rewrite while_unfold, Hrun in H.
  destruct fuel as [|fuel]; [discriminate|].
  rewrite while_matching in H.
  rewrite (step_running _ g r Lg Lr) in H. cbv zeta in H.
  rewrite Hemit in H.
  cbn [results] in H. rewrite results_initial in H.
  match type of H with
  | option_map _ ?m = _ => destruct m as [l|]; [|discriminate]
  end.
  injection H as <-. now exists l.
Qed.

Lemma debtors_givers nb :
  Spec.debtors nb = [] <-> givers (initial nb) = [].
Proof.
  destruct (initial_spec nb) as [-> _]. rewrite <- sort_ascending. split.
  - intros ->. reflexivity.
  - apply sort_nil_inv.
Qed.

Lemma creditors_receivers nb :
  Spec.creditors nb = [] <-> receivers (initial nb) = [].
Proof.
  destruct (initial_spec nb) as [_ ->]. rewrite <- sort_descending. split.
  - intros ->. reflexivity.
  - apply sort_nil_inv.
Qed.

(** *** The order of matching *)

Definition numbers (l : list (Entry.t float)) : Prop :=
  forall x, In x l -> PrimFloat.is_nan (Entry.amount x) = false.

Lemma numbers_givers nb : numbers (map Spec.entry (List.filter is_giver nb)).
Proof.
  intros x Hx. apply in_map_iff in Hx as ([k v] & <- & Hx).
  apply List.filter_In in Hx as [_ Hx]. unfold is_giver in Hx. cbn [snd] in Hx.
  cbn [Spec.entry Entry.amount snd]. now apply ltb_number_l in Hx.
Qed.

Lemma numbers_receivers nb : numbers (map Spec.entry (List.filter is_receiver nb)).
Proof.
  intros x Hx. apply in_map_iff in Hx as ([k v] & <- & Hx).
  apply List.filter_In in Hx as [_ Hx]. unfold is_receiver in Hx. cbn [snd] in Hx.
  apply andb_true_iff in Hx as [_ Hx].
  cbn [Spec.entry Entry.amount snd]. now apply ltb_number_r in Hx.
Qed.

Lemma sort_ascending_least l : forall g gs,
    numbers l -> sort ascending l = g :: gs ->
    forall x, In x l -> (place (Entry.amount g) <= place (Entry.amount x))%Z.
Proof.
  induction l as [|y l IH]; intros g gs Hn Hs x Hx; [destruct Hx|].
  assert (Hnl : numbers l) by (intros z Hz; apply Hn; now right).
  assert (Ny : PrimFloat.is_nan (Entry.amount y) = false) by (apply Hn; now left).
  cbn [sort fold_right] in Hs. fold (sort ascending l) in Hs.
  destruct (sort ascending l) as [|h t] eqn:Es.
  - apply sort_nil_inv in Es. subst l. cbn in Hs. injection Hs as <- <-.
    destruct Hx as [<-|[]]. lia.
  - specialize (IH h t Hnl eq_refl).
    assert (Nh : PrimFloat.is_nan (Entry.amount h) = false).
    { apply Hnl. apply (Permutation_in h (sort_perm ascending l)).
      rewrite Es. now left. }
    cbn [insert_sorted] in Hs. unfold ascending at 1 in Hs.
    rewrite sub_positive in Hs. cbn [ltb binary64] in Hs.
    destruct (PrimFloat.ltb (Entry.amount h) (Entry.amount y)) eqn:E.
    + injection Hs as <- _. apply ltb_place in E as (_ & _ & E).
      destruct Hx as [<-|Hx]; [lia|auto].
    + injection Hs as <- _. apply ltb_false_place in E; try assumption.
      destruct Hx as [<-|Hx]; [lia|]. specialize (IH _ Hx). lia.
Qed.

Lemma sort_descending_greatest l : forall r rs,
    numbers l -> sort descending l = r :: rs ->
    forall x, In x l -> (place (Entry.amount x) <= place (Entry.amount r))%Z.
Proof.
  induction l as [|y l IH]; intros g gs Hn Hs x Hx; [destruct Hx|].
  assert (Hnl : numbers l) by (intros z Hz; apply Hn; now right).
  assert (Ny : PrimFloat.is_nan (Entry.amount y) = false) by (apply Hn; now left).
  cbn [sort fold_right] in Hs. fold (sort descending l) in Hs.
  destruct (sort descending l) as [|h t] eqn:Es.
  - apply sort_nil_inv in Es. subst l. cbn in Hs. injection Hs as <- <-.
    destruct Hx as [<-|[]]. lia.
  - specialize (IH h t Hnl eq_refl).
    assert (Nh : PrimFloat.is_nan (Entry.amount h) = false).
    { apply Hnl. apply (Permutation_in h (sort_perm descending l)).
      rewrite Es. now left. }
    cbn [insert_sorted] in Hs. unfold descending at 1 in Hs.
    rewrite sub_positive in Hs. cbn [ltb binary64] in Hs.
    destruct (PrimFloat.ltb (Entry.amount y) (Entry.amount h)) eqn:E.
    + injection Hs as <- _. apply ltb_place in E as (_ & _ & E).
      destruct Hx as [<-|Hx]; [lia|auto].
    + injection Hs as <- _. apply ltb_false_place in E; try assumption.
      destruct Hx as [<-|Hx]; [lia|]. specialize (IH _ Hx). lia.
Qed.

(** Entries with the same amount keep the order they had before the
    sort. *)
Definition has_amount (v : float) (x : Entry.t float) : bool :=
  PrimFloat.eqb (Entry.amount x) v.

Lemma filter_insert_sorted (before : float -> float -> bool) cmp v x s :
  (forall a b, PrimFloat.ltb PrimFloat.zero (cmp a b) = before (Entry.amount b) (Entry.amount a)) ->
  (forall a b, before a b = true -> PrimFloat.eqb b v = true -> PrimFloat.eqb a v = false) ->
  List.filter (has_amount v) (insert_sorted cmp x s)
  = List.filter (has_amount v) (x :: s).
Proof.
  intros Hcmp Hbefore. induction s as [|y s IH]; [reflexivity|].
  cbn [insert_sorted]. cbn [ltb zero binary64]. rewrite Hcmp.
  destruct (before (Entry.amount y) (Entry.amount x)) eqn:E; [|reflexivity].
  cbn [List.filter] in *. rewrite IH.
  destruct (has_amount v x) eqn:Ex; [|reflexivity].
  unfold has_amount in *. now rewrite (Hbefore _ _ E Ex).
Qed.

Lemma filter_sort (before : float -> float -> bool) cmp v l :
  (forall a b, PrimFloat.ltb PrimFloat.zero (cmp a b) = before (Entry.amount b) (Entry.amount a)) ->
  (forall a b, before a b = true -> PrimFloat.eqb b v = true -> PrimFloat.eqb a v = false) ->
  List.filter (has_amount v) (sort cmp l) = List.filter (has_amount v) l.
Proof.
  intros Hcmp Hbefore. induction l as [|x l IH]; [reflexivity|].
  cbn [sort fold_right]. fold (sort cmp l).
  rewrite (filter_insert_sorted before) by assumption.
  cbn [List.filter]. now rewrite IH.
Qed.

Lemma ltb_not_eqb a b v :
  PrimFloat.ltb a b = true -> PrimFloat.eqb b v = true -> PrimFloat.eqb a v = false.
Proof.
  intros H1 H2. apply ltb_place in H1 as (_ & _ & H1).
  apply eqb_place in H2 as (_ & _ & H2).
  destruct (PrimFloat.eqb a v) eqn:E; [|reflexivity].
  apply eqb_place in E as (_ & _ & E). lia.
Qed.

Lemma gtb_not_eqb a b v :
  PrimFloat.ltb b a = true -> PrimFloat.eqb b v = true -> PrimFloat.eqb a v = false.
Proof.
  intros H1 H2. apply ltb_place in H1 as (_ & _ & H1).
  apply eqb_place in H2 as (_ & _ & H2).
  destruct (PrimFloat.eqb a v) eqn:E; [|reflexivity].
  apply eqb_place in E as (_ & _ & E). lia.
Qed.

(** *** Both infinities *)

Lemma stuck_forever fuel : forall st, stuck st -> while fuel st = None.
Proof.
  induction fuel as [|fuel IH]; intros st Hs; rewrite while_unfold;
    rewrite (stuck_running st Hs); [reflexivity|].
  apply IH. now apply step_stuck.
Qed.

Lemma In_initial_givers nb k v :
  In (k, v) nb -> PrimFloat.ltb v neg_eps = true ->
  In (Spec.entry (k, v)) (map Spec.entry (List.filter is_giver nb)).
Proof. intros H1 H2. apply in_map, List.filter_In. now split. Qed.

Lemma In_initial_receivers nb k v :
  In (k, v) nb -> PrimFloat.ltb eps v = true ->
  In (Spec.entry (k, v)) (map Spec.entry (List.filter is_receiver nb)).
Proof.
  intros H1 H2. apply in_map, List.filter_In. split; [assumption|].
  now rewrite is_receiver_creditor.
Qed.

Lemma infinite_heads nb kg kr :
  In (kg, neg_infinity) nb -> In (kr, infinity) nb ->
  exists g gs r rs,
    givers (initial nb) = g :: gs /\ receivers (initial nb) = r :: rs
    /\ Entry.amount g = neg_infinity /\ Entry.amount r = infinity.
Proof.
  intros Hg Hr.
  apply In_initial_givers in Hg; [|reflexivity].
  apply In_initial_receivers in Hr; [|reflexivity].
  rewrite givers_initial, receivers_initial.
  destruct (sort ascending (map Spec.entry (List.filter is_giver nb)))
    as [|g gs] eqn:Eg.
  { apply sort_nil_inv in Eg. rewrite Eg in Hg. destruct Hg. }
  destruct (sort descending (map Spec.entry (List.filter is_receiver nb)))
    as [|r rs] eqn:Er.
  { apply sort_nil_inv in Er. rewrite Er in Hr. destruct Hr. }
  exists g, gs, r, rs. split; [reflexivity|]. split; [reflexivity|].
  pose proof (sort_ascending_least _ g gs (numbers_givers nb) Eg _ Hg) as Lg.
  pose proof (sort_descending_greatest _ r rs (numbers_receivers nb) Er _ Hr) as Lr.
  cbn [Spec.entry Entry.amount snd] in Lg, Lr.
  assert (Ng : PrimFloat.is_nan (Entry.amount g) = false).
  { apply (numbers_givers nb). apply (Permutation_in g (sort_perm ascending _)).
    rewrite Eg. now left. }
  assert (Nr : PrimFloat.is_nan (Entry.amount r) = false).
  { apply (numbers_receivers nb). apply (Permutation_in r (sort_perm descending _)).
    rewrite Er. now left. }
  split.
  - apply place_neg_infinity_least; [assumption|].
    pose proof (proj1 (place_neg_infinity_least (Entry.amount g))). lia.
  - apply place_infinity_greatest; [assumption|].
    pose proof (proj1 (place_infinity_greatest (Entry.amount r))). lia.
Qed.

(** *** One edge per pair *)

Definition pair_of (e : Edge.t float) : string * string :=
  (Edge.from e, Edge.to e).

(** An edge was pushed when the loop stood at a giver and a receiver of
    which it has left at least one behind. *)
Definition met (st : State float) (e : Edge.t float) : Prop :=
  exists i j,
    members (givers st) !! i = Some (Edge.from e)
    /\ members (receivers st) !! j = Some (Edge.to e)
    /\ (i < giverIdx st \/ j < receiverIdx st).

Definition pairs_inv (st : State float) : Prop :=
  List.NoDup (members (givers st)) /\ List.NoDup (members (receivers st))
  /\ List.NoDup (map pair_of (results st))
  /\ List.Forall (met st) (results st).

Lemma lookup_members (l : list (Entry.t float)) i x :
  l !! i = Some x -> members l !! i = Some (Entry.member x).
Proof.
  revert i. induction l as [|y l IH]; intros [|i]; simpl; try discriminate.
  - now intros [= ->].
  - apply IH.
Qed.

Lemma NoDup_same_index (l : list string) i j x :
  List.NoDup l -> l !! i = Some x -> l !! j = Some x -> i = j.
Proof. intros H. apply NoDup_ListNoDup in H. now apply NoDup_lookup. Qed.

Lemma results_step st g r :
  givers st !! giverIdx st = Some g ->
  receivers st !! receiverIdx st = Some r ->
  results (step st) = results st
  \/ exists x, results (step st)
               = results st ++ [Edge.mk (Entry.member g) (Entry.member r) x].
Proof.
  intros Hg Hr. rewrite (step_running st g r Hg Hr). cbv zeta. cbn [results].
  destruct (PrimFloat.ltb eps _); eauto.
Qed.

Lemma step_pairs_inv st :
  running st = true -> advances st (step st) ->
  pairs_inv st -> pairs_inv (step st).
Proof.
  intros Hrun (Hgi & Hri & _ & Hadv) (Ng & Nr & Np & Hmet).
  destruct (proj1 (running_lookup st) Hrun) as (g & r & Hg & Hr).
  assert (Hold : List.Forall (met (step st)) (results st)).
  { eapply List.Forall_impl; [|exact Hmet]. intros e (i & j & Hi & Hj & Hlt).
    exists i, j. rewrite members_givers_step, members_receivers_step.
    split; [assumption|]. split; [assumption|]. lia. }
  unfold pairs_inv. rewrite members_givers_step, members_receivers_step.
  split; [assumption|]. split; [assumption|].
  destruct (results_step st g r Hg Hr) as [-> | [x ->]]; [now split|].
  split.
  - rewrite map_app. apply List.NoDup_app; [assumption| |].
    + constructor; [intros []|constructor].
    + intros p Hp [<-|[]]. apply in_map_iff in Hp as (e & He & Hin).
      rewrite List.Forall_forall in Hmet.
      destruct (Hmet _ Hin) as (i & j & Hi & Hj & Hlt).
      injection He as Hf Ht. rewrite Hf in Hi. rewrite Ht in Hj.
      pose proof (NoDup_same_index _ _ _ _ Ng Hi (lookup_members _ _ _ Hg)).
      pose proof (NoDup_same_index _ _ _ _ Nr Hj (lookup_members _ _ _ Hr)).
      lia.
  - apply List.Forall_app. split; [assumption|]. constructor; [|constructor].
    exists (giverIdx st), (receiverIdx st). cbn [Edge.from Edge.to].
    rewrite members_givers_step, members_receivers_step.
    split; [now apply lookup_members|]. split; [now apply lookup_members|].
    destruct Hadv as [[-> _]|[-> _]]; lia.
Qed.

Definition pairing (st : State float) : Prop :=
  stuck st \/ (signs_kept st /\ pairs_inv st).

Lemma step_pairing st : pairing st -> pairing (step st).
Proof.
  intros [Hstuck|[Hs Hp]]; [left; now apply step_stuck|].
  destruct (running st) eqn:Hrun.
  2:{ rewrite step_not_running by assumption. right. now split. }
  destruct (proj1 (running_lookup st) Hrun) as (g & r & Hg & Hr).
  destruct Hs as [HG HR].
  destruct (heads_cases _ _ (HG _ _ Hg (Nat.le_refl _)) (HR _ _ Hr (Nat.le_refl _)))
    as [Hfin|[Eg Er]].
  - right.
    assert (Hh : heads_settle st).
    { intros g0 r0 Hg0 Hr0. congruence. }
    destruct (step_signs_kept st (conj HG HR) Hh) as [Hs' Hadv].
    split; [assumption|]. apply step_pairs_inv; auto.
  - left. eapply step_infinite; eauto.
Qed.

Lemma NoDup_keys_filter (p : string * float -> bool) nb :
  List.NoDup (keys nb) -> List.NoDup (keys (List.filter p nb)).
Proof.
  induction nb as [|[k v] nb IH]; intros H; [constructor|].
  cbn [keys map fst] in H. fold (keys nb) in H.
  apply List.NoDup_cons_iff in H as [Hk Hnd].
  cbn [List.filter]. destruct (p (k, v)); [|auto].
  cbn [keys map fst]. fold (keys (List.filter p nb)).
  constructor; [|auto]. intros Hin. apply Hk.
  unfold keys in *. apply in_map_iff in Hin as (kv & <- & Hin).
  apply List.filter_In in Hin as [Hin _]. now apply in_map.
Qed.

Lemma initial_pairs_inv nb : List.NoDup (keys nb) -> pairs_inv (initial nb).
Proof.
  intros Hnd. unfold pairs_inv.
  rewrite givers_initial, receivers_initial, results_initial.
  split; [|split; [|split; constructor]].
  - eapply Permutation_NoDup.
    + apply Permutation_map. symmetry. apply sort_perm.
    + fold (members (map Spec.entry (List.filter is_giver nb))).
      rewrite members_entries. now apply NoDup_keys_filter.
  - eapply Permutation_NoDup.
    + apply Permutation_map. symmetry. apply sort_perm.
    + fold (members (map Spec.entry (List.filter is_receiver nb))).
      rewrite members_entries. now apply NoDup_keys_filter.
Qed.

(** *** Amounts *)

(** A number above [0.01] has at least one hundredth. *)
Lemma hundredths_positive m e :
  (-1074 <= e)%Z ->
  (5764607523034235 * 2 ^ 1015 < Zpos m * 2 ^ (e + 1074))%Z ->
  exists n, JS.hundredths m e = Zpos n.
Proof.
  intros He H.
  assert (Hpos : (0 < JS.hundredths m e)%Z).
  { unfold JS.hundredths. destruct e as [|k|k].
    - lia.
    - assert (0 < 2 ^ Zpos k)%Z by (apply Z.pow_pos_nonneg; lia). lia.
    - rewrite Z.shiftr_div_pow2 by lia.
      assert (HK : (0 < 2 ^ Zpos k)%Z) by (apply Z.pow_pos_nonneg; lia).
      assert (HA : (0 < 2 ^ 1015)%Z) by (apply Z.pow_pos_nonneg; lia).
      assert (HPK : (2 ^ (Zneg k + 1074) * 2 ^ Zpos k = 2 ^ 59 * 2 ^ 1015)%Z).
      { rewrite <- !Z.pow_add_r by lia. f_equal. lia. }
      assert (H1 : (5764607523034235 * 2 ^ Zpos k < Zpos m * 2 ^ 59)%Z).
      { apply (Z.mul_lt_mono_pos_r (2 ^ 1015)); [assumption|].
        apply (Z.mul_lt_mono_pos_r (2 ^ Zpos k)) in H; [|assumption].
        replace (Zpos m * 2 ^ (Zneg k + 1074) * 2 ^ Zpos k)%Z
          with (Zpos m * (2 ^ (Zneg k + 1074) * 2 ^ Zpos k))%Z in H by ring.
        rewrite HPK in H. lia. }
      change (2 ^ 59)%Z with 576460752303423488%Z in H1.
      apply Z.lt_le_trans with 1%Z; [lia|].
      apply Z.div_le_lower_bound; [apply Z.pow_pos_nonneg; lia|].
      rewrite Z.pow_add_r by lia. change (2 ^ 1)%Z with 2%Z. lia. }
  destruct (JS.hundredths m e) as [|n|n]; [lia| |lia]. now exists n.
Qed.

Lemma place_cents n :
  let x := SF2Prim (cents false n) in
  PrimFloat.is_nan x = false /\ (place eps <= place x)%Z.
Proof.
  cbv zeta. pose proof (cents_cases false n) as H.
  destruct (Pos.eq_dec n 1%positive) as [->|Hn].
  { split; vm_compute; [reflexivity|discriminate]. }
  assert (Hd : (2 <= Zpos (digits2_pos n))%Z).
  { apply digits_ge. change (2 ^ (2 - 1))%Z with 2%Z. lia. }
  unfold place. rewrite is_nan_spec.
  destruct (cents false n) as [| s | |s m e] eqn:E; try contradiction.
  - subst s. rewrite Prim2SF_SF2Prim by reflexivity. split; [reflexivity|].
    apply (proj1 (place_infinity_greatest eps)).
  - destruct H as (-> & Hb & He & Hm).
    rewrite Prim2SF_SF2Prim by exact Hb. split; [reflexivity|].
    rewrite SF_eps. cbn [rank cond_Zopp].
    assert (H1 : (2 ^ 1016 <= 2 ^ (e + 1074))%Z) by (apply Z.pow_le_mono_r; lia).
    assert (H2 : (2 ^ 1016 = 2 * 2 ^ 1015)%Z)
      by (rewrite <- Z.pow_succ_r by lia; f_equal).
    assert (H3 : (0 < 2 ^ 1015)%Z) by (apply Z.pow_pos_nonneg; lia).
    change (2 ^ 52)%Z with 4503599627370496%Z in Hm.
    change (-59 + 1074)%Z with 1015%Z. nia.
Qed.

(** What [Number(x.toFixed(2))] gives for a number above [0.01] is at
    least [0.01]. *)
Lemma toFixed2_at_least_eps a :
  PrimFloat.ltb eps a = true -> PrimFloat.leb eps (JS.toFixed2 a) = true.
Proof.
  intros H.
  assert (Ha : PrimFloat.leb eps a = true).
  { apply ltb_place in H as (? & ? & ?). apply leb_place. repeat split; auto. lia. }
  pose proof H as H'. apply ltb_place in H' as (_ & Na & Hp).
  rewrite place_eps in Hp. unfold place in Hp.
  pose proof (valid_SF a) as V. unfold valid in V.
  unfold JS.toFixed2. destruct (Prim2SF a) as [s|s| |s m e] eqn:Ea;
    cbn [rank valid_binary] in Hp, V; try assumption.
  - assert (0 < 2 ^ 1015)%Z by (apply Z.pow_pos_nonneg; lia). lia.
  - destruct (JS.at_least_1e21 m e); [assumption|].
    assert (Hs : s = false).
    { destruct s; [|reflexivity]. cbn [cond_Zopp] in Hp.
      pose proof (finite_rank_bounds m e V).
      assert (0 < 2 ^ 1015)%Z by (apply Z.pow_pos_nonneg; lia). lia. }
    subst s. cbn [cond_Zopp] in Hp.
    pose proof (bounded_emin m e V) as He. unfold SpecFloat.emin, prec, emax in He.
    destruct (hundredths_positive m e ltac:(lia) Hp) as [n ->].
    fold (cents false n).
    destruct (place_cents n) as [Hn Hle].
    apply leb_place. split; [reflexivity|]. split; assumption.
Qed.

(** Every edge pushed so far carries at least [0.01]. *)
Definition amounts_inv (st : State float) : Prop :=
  List.Forall (fun e => PrimFloat.leb eps (Edge.amount e) = true) (results st).

Lemma step_amounts_inv st : amounts_inv st -> amounts_inv (step st).
Proof.
  intros H. destruct (running st) eqn:Hrun.
  2:{ now rewrite step_not_running. }
  destruct (proj1 (running_lookup st) Hrun) as (g & r & Hg & Hr).
  unfold amounts_inv. rewrite (step_running st g r Hg Hr). cbv zeta. cbn [results].
  destruct (PrimFloat.ltb eps _) eqn:E; [|assumption].
  apply List.Forall_app. split; [assumption|]. constructor; [|constructor].
  cbn [Edge.amount]. now apply toFixed2_at_least_eps.
Qed.

End Plan64.

(** ** Whole numbers in binary64 *)

(** Integers up to [2^53] in magnitude are binary64 numbers, and sums and
    differences of them that stay within the bound are computed without
    rounding. *)
Module Whole64.
Import SF Binary64 Order64 Rounding64.
Local Open Scope Z_scope.

(** *** Rounding what needs no rounding *)

Lemma shr_1_double k :
  0 <= k ->
  shr_1 (Build_shr_record (2 * k) false false) = Build_shr_record k false false.
Proof. intros H. destruct k as [|p|p]; [reflexivity|reflexivity|lia]. Qed.

Lemma iter_shr_1_exact n : forall k,
    0 <= k ->
    SpecFloat.iter_pos shr_1 n (Build_shr_record (2 ^ Zpos n * k) false false)
    = Build_shr_record k false false.
Proof.
  induction n as [n IH|n IH|]; intros k Hk; cbn [SpecFloat.iter_pos].
  - assert (0 < 2 ^ Zpos n) by (apply Z.pow_pos_nonneg; lia).
    rewrite pow2_xI.
    replace (2 * (2 ^ Zpos n * 2 ^ Zpos n) * k)
      with (2 * (2 ^ Zpos n * (2 ^ Zpos n * k))) by ring.
    rewrite shr_1_double by nia. rewrite IH by nia. now apply IH.
  - assert (0 < 2 ^ Zpos n) by (apply Z.pow_pos_nonneg; lia).
    rewrite pow2_xO.
    replace (2 ^ Zpos n * 2 ^ Zpos n * k)
      with (2 ^ Zpos n * (2 ^ Zpos n * k)) by ring.
    rewrite IH by nia. now apply IH.
  - change (2 ^ 1) with 2. now apply shr_1_double.
Qed.

(** A mantissa [q = c * 2^(d - 53)] of [d >= 53] digits rounds to [c]. *)
Lemma binary_round_aux_exact s q e c :
  53 <= Zpos (digits2_pos q) ->
  -1074 < Zpos (digits2_pos q) + e - 53 <= 971 ->
  Zpos q = 2 ^ (Zpos (digits2_pos q) - 53) * Zpos c ->
  binary_round_aux prec emax s (Zpos q) e loc_Exact
  = S754_finite s c (Zpos (digits2_pos q) + e - 53)
  /\ bounded prec emax c (Zpos (digits2_pos q) + e - 53) = true.
Proof.
  intros Hd [HE HF] Hq. pose proof (digits2_pos_bounds q) as [L U].
  set (d := Zpos (digits2_pos q)) in *.
  assert (Hc : Zpos (digits2_pos c) = 53).
  { apply digits_unique; [|lia].
    assert (HP : 0 < 2 ^ (d - 53)) by (apply Z.pow_pos_nonneg; lia).
    assert (H1 : 2 ^ (d - 1) = 2 ^ (d - 53) * 2 ^ (53 - 1)).
    { rewrite <- Z.pow_add_r by lia. f_equal. lia. }
    assert (H2 : 2 ^ d = 2 ^ (d - 53) * 2 ^ 53).
    { rewrite <- Z.pow_add_r by lia. f_equal. lia. }
    rewrite H1, Hq in L. rewrite H2, Hq in U. split.
    - apply Z.mul_le_mono_pos_l in L; assumption.
    - apply Z.mul_lt_mono_pos_l in U; assumption. }
  assert (Hcan : canonical_mantissa prec emax c (d + e - 53) = true).
  { unfold canonical_mantissa, fexp, SpecFloat.emin, prec, emax. rewrite Hc.
    apply Z.eqb_eq. lia. }
  assert (Hfirst : shr_fexp prec emax (Zpos q) e loc_Exact
                   = (Build_shr_record (Zpos c) false false, d + e - 53)).
  { unfold shr_fexp, shr, fexp, SpecFloat.emin, prec, emax. cbn [Zdigits2].
    fold d.
    replace (Z.max (d + e - 53) (3 - 1024 - 53) - e) with (d - 53) by lia.
    destruct (d - 53) as [|n|n] eqn:En; [| |lia].
    - change (2 ^ 0) with 1 in Hq. rewrite Z.mul_1_l in Hq. injection Hq as ->.
      cbn [shr_record_of_loc]. f_equal. lia.
    - rewrite Hq. cbn [shr_record_of_loc]. rewrite iter_shr_1_exact by lia.
      f_equal. lia. }
  assert (Hsecond : shr_fexp prec emax (Zpos c) (d + e - 53) loc_Exact
                    = (Build_shr_record (Zpos c) false false, d + e - 53)).
  { unfold shr_fexp, shr, fexp, SpecFloat.emin, prec, emax. cbn [Zdigits2].
    rewrite Hc.
    replace (Z.max (53 + (d + e - 53) - 53) (3 - 1024 - 53) - (d + e - 53))
      with 0 by lia.
    reflexivity. }
  split.
  - unfold binary_round_aux. rewrite Hfirst.
    cbn [shr_m loc_of_shr_record round_nearest_even]. rewrite Hsecond.
    cbn [shr_m]. unfold prec, emax.
    destruct (Z.leb_spec (d + e - 53) (1024 - 53)); [reflexivity|lia].
  - unfold bounded. rewrite Hcan. apply Z.leb_le. unfold prec, emax. lia.
Qed.

Lemma shl_align_exponent_eq m e e' : e' <= e -> snd (shl_align m e e') = e'.
Proof.
  intros H. unfold shl_align. destruct (e' - e) as [|p|p] eqn:E; cbn [snd]; lia.
Qed.

Lemma pow_cancel a b k : 0 <= k -> a * 2 ^ k = b * 2 ^ k -> a = b.
Proof.
  intros Hk H. assert (0 < 2 ^ k) by (apply Z.pow_pos_nonneg; lia).
  apply Z.mul_cancel_r in H; lia.
Qed.

(** A positive integer [V <= 2^53], given as [q * 2^e] with a mantissa
    of at least 53 digits, is its own rounding. *)
Lemma binary_round_aux_whole s q e V :
  53 <= Zpos (digits2_pos q) ->
  -1074 <= e -> 1 <= V <= 2 ^ 53 ->
  Zpos q * 2 ^ (e + 1074) = V * 2 ^ 1074 ->
  exists c F,
    binary_round_aux prec emax s (Zpos q) e loc_Exact = S754_finite s c F
    /\ bounded prec emax c F = true
    /\ Zpos c * 2 ^ (F + 1074) = V * 2 ^ 1074.
Proof.
  intros Hge He [HV1 HV2] Hm. pose proof (digits2_pos_bounds q) as [L U].
  set (d := Zpos (digits2_pos q)) in *.
  assert (HP : 0 < 2 ^ (e + 1074)) by (apply Z.pow_pos_nonneg; lia).
  assert (HQ : 0 < 2 ^ 1074) by (apply Z.pow_pos_nonneg; lia).
  assert (A1 : 1 <= d + e).
  { assert (H1 : 2 ^ 1074 < 2 ^ (d + (e + 1074))).
    { rewrite Z.pow_add_r by lia. nia. }
    apply Z.pow_lt_mono_r_iff in H1; lia. }
  assert (A2 : d + e <= 54).
  { assert (H1 : 2 ^ (d - 1 + (e + 1074)) <= 2 ^ (53 + 1074)).
    { rewrite !Z.pow_add_r by lia. nia. }
    apply Z.pow_le_mono_r_iff in H1; lia. }
  assert (Hdiv : exists c : positive, Zpos q = 2 ^ (d - 53) * Zpos c).
  { destruct (Z.eq_dec d 53) as [E53|N53].
    { exists q. rewrite E53. change (2 ^ (53 - 53)) with 1. lia. }
    assert (He0 : e <= 0) by lia.
    assert (HmV : Zpos q = V * 2 ^ (- e)).
    { apply (pow_cancel _ _ (e + 1074)); [lia|]. rewrite Hm.
      rewrite <- Z.mul_assoc, <- Z.pow_add_r by lia. do 2 f_equal. lia. }
    destruct (Z.le_gt_cases (d + e) 53) as [Hle|Hgt].
    - exists (Z.to_pos (V * 2 ^ (- e - (d - 53)))).
      assert (0 < 2 ^ (- e - (d - 53))) by (apply Z.pow_pos_nonneg; lia).
      rewrite Z2Pos.id by nia. rewrite HmV.
      replace (- e) with ((d - 53) + (- e - (d - 53))) at 1 by lia.
      rewrite Z.pow_add_r by lia. ring.
    - assert (HVe : V = 2 ^ 53).
      { assert (H1 : 2 ^ (d - 1) = 2 ^ 53 * 2 ^ (- e)).
        { rewrite <- Z.pow_add_r by lia. f_equal. lia. }
        assert (0 < 2 ^ (- e)) by (apply Z.pow_pos_nonneg; lia).
        rewrite H1, HmV in L. nia. }
      exists (Z.to_pos (2 ^ 52)). rewrite HmV, HVe.
      change (Zpos (Z.to_pos (2 ^ 52))) with (2 ^ 52).
      rewrite <- !Z.pow_add_r by lia. f_equal. lia. }
  destruct Hdiv as [c Hc].
  destruct (binary_round_aux_exact s q e c) as [HR HB]; fold d.
  - lia.
  - lia.
  - exact Hc.
  - exists c, (d + e - 53). split; [exact HR|]. split; [exact HB|].
    rewrite <- Hm, Hc.
    replace (d + e - 53 + 1074) with ((d - 53) + (e + 1074)) by lia.
    rewrite Z.pow_add_r by lia. ring.
Qed.

(** The same for a mantissa of any length, which is first brought to
    53 digits. *)
Lemma binary_round_exact s m e V :
  -1074 <= e -> 1 <= V <= 2 ^ 53 ->
  Zpos m * 2 ^ (e + 1074) = V * 2 ^ 1074 ->
  exists c F,
    binary_round prec emax s m e = S754_finite s c F
    /\ bounded prec emax c F = true
    /\ Zpos c * 2 ^ (F + 1074) = V * 2 ^ 1074.
Proof.
  intros He HV Hm. pose proof (digits2_pos_bounds m) as [L U].
  set (d := Zpos (digits2_pos m)) in *.
  assert (Hd1 : 1 <= d) by (subst d; lia).
  assert (HP : 0 < 2 ^ (e + 1074)) by (apply Z.pow_pos_nonneg; lia).
  assert (HQ : 0 < 2 ^ 1074) by (apply Z.pow_pos_nonneg; lia).
  assert (A1 : 1 <= d + e).
  { assert (H1 : 2 ^ 1074 < 2 ^ (d + (e + 1074))).
    { rewrite Z.pow_add_r by lia. nia. }
    apply Z.pow_lt_mono_r_iff in H1; lia. }
  unfold binary_round.
  replace (fexp prec emax (Zpos (digits2_pos m) + e)) with (d + e - 53)
    by (unfold fexp, SpecFloat.emin, prec, emax; fold d; lia).
  destruct (Z.lt_ge_cases d 53) as [Hlt|Hge].
  - pose proof (shl_align_value m e (d + e - 53) ltac:(lia)) as Hv.
    pose proof (shl_align_exponent_eq m e (d + e - 53) ltac:(lia)) as Hx.
    destruct (shl_align m e (d + e - 53)) as [mz ez]. cbn [fst snd] in Hv, Hx.
    subst ez. replace (e - (d + e - 53)) with (53 - d) in Hv by lia.
    assert (Hdz : Zpos (digits2_pos mz) = 53).
    { apply digits_unique; [|lia]. rewrite Hv.
      assert (H1 : 2 ^ (53 - 1) = 2 ^ (d - 1) * 2 ^ (53 - d)).
      { rewrite <- Z.pow_add_r by lia. f_equal. lia. }
      assert (H2 : 2 ^ 53 = 2 ^ d * 2 ^ (53 - d)).
      { rewrite <- Z.pow_add_r by lia. f_equal. lia. }
      assert (0 < 2 ^ (53 - d)) by (apply Z.pow_pos_nonneg; lia).
      rewrite H1, H2. nia. }
    apply binary_round_aux_whole; [lia|lia|assumption|].
    rewrite Hv, <- Hm, <- Z.mul_assoc, <- Z.pow_add_r by lia.
    do 2 f_equal. lia.
  - unfold shl_align.
    destruct (d + e - 53 - e) as [|p|p] eqn:Ep; [| |lia];
      (apply binary_round_aux_whole; [fold d; lia|lia|assumption|assumption]).
Qed.

(** *** Whole numbers *)

(** [x] is the integer [z], and [z] is at most [2^53] in magnitude. *)
Definition whole (x : float) (z : Z) : Prop :=
  PrimFloat.is_nan x = false
  /\ place x = z * 2 ^ 1074
  /\ - 2 ^ 53 <= z <= 2 ^ 53.

(** The numbers that are zero or finite. *)
Definition zero_or_finite (X : spec_float) : Prop :=
  match X with
  | S754_zero _ | S754_finite _ _ _ => True
  | _ => False
  end.

Lemma pow_1074_pos : 0 < 2 ^ 1074.
Proof. apply Z.pow_pos_nonneg; lia. Qed.

Lemma whole_zero_or_finite x z : whole x z -> zero_or_finite (Prim2SF x).
Proof.
  intros (Hn & Hp & Hz). rewrite is_nan_spec in Hn. unfold place in Hp.
  destruct (Prim2SF x) as [s|s| |s m e]; try exact I; [|discriminate].
  exfalso. cbn [rank] in Hp. pose proof pow_1074_pos.
  assert (H1 : 2 ^ 2098 = 2 ^ 1024 * 2 ^ 1074)
    by (rewrite <- Z.pow_add_r by lia; f_equal).
  assert (H2 : 2 ^ 53 < 2 ^ 1024) by (apply Z.pow_lt_mono_r; lia).
  destruct s; cbn [cond_Zopp] in Hp; nia.
Qed.

Lemma rank_normalize M ez V :
  -1074 <= ez -> - 2 ^ 53 <= V <= 2 ^ 53 ->
  M * 2 ^ (ez + 1074) = V * 2 ^ 1074 ->
  let R := binary_normalize prec emax M ez false in
  R <> S754_nan /\ rank R = V * 2 ^ 1074.
Proof.
  intros He HV HM. cbv zeta. pose proof pow_1074_pos.
  assert (0 < 2 ^ (ez + 1074)) by (apply Z.pow_pos_nonneg; lia).
  destruct M as [|p|p]; cbn [binary_normalize].
  - split; [discriminate|]. cbn [rank]. lia.
  - destruct (binary_round_exact false p ez V He ltac:(nia) HM)
      as (c & F & -> & _ & Hc).
    split; [discriminate|]. cbn [rank cond_Zopp]. exact Hc.
  - destruct (binary_round_exact true p ez (- V) He ltac:(nia) ltac:(nia))
      as (c & F & -> & _ & Hc).
    split; [discriminate|]. cbn [rank cond_Zopp]. lia.
Qed.

Lemma rank_finite_aligned s m e ez :
  -1074 <= ez -> ez <= e ->
  rank (S754_finite s m e) = mantissa_at ez s m e * 2 ^ (ez + 1074).
Proof. intros H1 H2. cbn [rank]. now apply mantissa_at_rank. Qed.

Lemma SFadd_whole X Y a b :
  valid X -> valid Y -> zero_or_finite X -> zero_or_finite Y ->
  rank X = a * 2 ^ 1074 -> rank Y = b * 2 ^ 1074 ->
  - 2 ^ 53 <= a + b <= 2 ^ 53 ->
  SF64add X Y <> S754_nan /\ rank (SF64add X Y) = (a + b) * 2 ^ 1074.
Proof.
  intros VX VY FX FY HX HY Hab. pose proof pow_1074_pos.
  destruct X as [sx|sx| |sx mx ex]; try contradiction;
    destruct Y as [sy|sy| |sy my ey]; try contradiction.
  - cbn [rank] in HX, HY. assert (a = 0) by nia. assert (b = 0) by nia. subst.
    destruct sx, sy; cbn; split; try discriminate; reflexivity.
  - cbn [rank] in HX. assert (a = 0) by nia. subst.
    unfold SF64add, SFadd. split; [discriminate|]. rewrite HY. lia.
  - cbn [rank] in HY. assert (b = 0) by nia. subst.
    unfold SF64add, SFadd. split; [discriminate|]. rewrite HX. lia.
  - pose proof (bounded_emin _ _ VX) as Ex. pose proof (bounded_emin _ _ VY) as Ey.
    unfold SpecFloat.emin, prec, emax in Ex, Ey.
    rewrite (rank_finite_aligned sx mx ex (Z.min ex ey)) in HX by lia.
    rewrite (rank_finite_aligned sy my ey (Z.min ex ey)) in HY by lia.
    unfold SF64add, SFadd.
    fold (mantissa_at (Z.min ex ey) sx mx ex).
    fold (mantissa_at (Z.min ex ey) sy my ey).
    apply rank_normalize; [lia|assumption|lia].
Qed.

Lemma SFsub_whole X Y a b :
  valid X -> valid Y -> zero_or_finite X -> zero_or_finite Y ->
  rank X = a * 2 ^ 1074 -> rank Y = b * 2 ^ 1074 ->
  - 2 ^ 53 <= a - b <= 2 ^ 53 ->
  SF64sub X Y <> S754_nan /\ rank (SF64sub X Y) = (a - b) * 2 ^ 1074.
Proof.
  intros VX VY FX FY HX HY Hab. pose proof pow_1074_pos.
  destruct X as [sx|sx| |sx mx ex]; try contradiction;
    destruct Y as [sy|sy| |sy my ey]; try contradiction.
  - cbn [rank] in HX, HY. assert (a = 0) by nia. assert (b = 0) by nia. subst.
    destruct sx, sy; cbn; split; try discriminate; reflexivity.
  - cbn [rank] in HX. assert (a = 0) by nia. subst.
    unfold SF64sub, SFsub. split; [discriminate|].
    cbn [rank] in *. destruct sy; cbn [negb cond_Zopp] in *; lia.
  - cbn [rank] in HY. assert (b = 0) by nia. subst.
    unfold SF64sub, SFsub. split; [discriminate|]. rewrite HX. lia.
  - pose proof (bounded_emin _ _ VX) as Ex. pose proof (bounded_emin _ _ VY) as Ey.
    unfold SpecFloat.emin, prec, emax in Ex, Ey.
    rewrite (rank_finite_aligned sx mx ex (Z.min ex ey)) in HX by lia.
    rewrite (rank_finite_aligned sy my ey (Z.min ex ey)) in HY by lia.
    unfold SF64sub, SFsub.
    fold (mantissa_at (Z.min ex ey) sx mx ex).
    fold (mantissa_at (Z.min ex ey) sy my ey).
    apply rank_normalize; [lia|assumption|lia].
Qed.

Lemma whole_add x a y b :
  whole x a -> whole y b -> - 2 ^ 53 <= a + b <= 2 ^ 53 ->
  whole (PrimFloat.add x y) (a + b).
Proof.
  intros Hx Hy Hab.
  pose proof (whole_zero_or_finite _ _ Hx) as Fx.
  pose proof (whole_zero_or_finite _ _ Hy) as Fy.
  destruct Hx as (_ & Px & _), Hy as (_ & Py & _).
  destruct (SFadd_whole _ _ a b (valid_SF x) (valid_SF y) Fx Fy Px Py Hab) as [Hn Hr].
  rewrite <- FloatAxioms.add_spec in Hn, Hr.
  split; [|split; assumption].
  rewrite is_nan_spec. destruct (Prim2SF (x + y)); congruence.
Qed.

Lemma whole_sub x a y b :
  whole x a -> whole y b -> - 2 ^ 53 <= a - b <= 2 ^ 53 ->
  whole (PrimFloat.sub x y) (a - b).
Proof.
  intros Hx Hy Hab.
  pose proof (whole_zero_or_finite _ _ Hx) as Fx.
  pose proof (whole_zero_or_finite _ _ Hy) as Fy.
  destruct Hx as (_ & Px & _), Hy as (_ & Py & _).
  destruct (SFsub_whole _ _ a b (valid_SF x) (valid_SF y) Fx Fy Px Py Hab) as [Hn Hr].
  rewrite <- FloatAxioms.sub_spec in Hn, Hr.
  split; [|split; assumption].
  rewrite is_nan_spec. destruct (Prim2SF (x - y)); congruence.
Qed.

Lemma whole_abs x a : whole x a -> whole (PrimFloat.abs x) (Z.abs a).
Proof.
  intros (Hn & Hp & Hb). pose proof pow_1074_pos. split; [|split].
  - now rewrite is_nan_abs.
  - rewrite place_abs, Hp, Z.abs_mul. f_equal; lia.
  - lia.
Qed.

Lemma whole_min x a y b :
  whole x a -> whole y b -> whole (JS.Math_min x y) (Z.min a b).
Proof.
  intros (Nx & Px & Bx) (Ny & Py & By). pose proof pow_1074_pos.
  destruct (Math_min_place x y Nx Ny) as [Hm Hp]. split; [|split].
  - destruct Hm as [-> | ->]; assumption.
  - rewrite Hp, Px, Py. destruct (Z.le_ge_cases a b).
    + rewrite !Z.min_l; nia.
    + rewrite !Z.min_r; nia.
  - lia.
Qed.

Lemma whole_zero : whole PrimFloat.zero 0.
Proof. split; [reflexivity|]. split; [reflexivity|]. lia. Qed.

(** The thresholds between whole numbers. *)
Lemma eps_below_one : 0 < 5764607523034235 * 2 ^ 1015 < 2 ^ 1074.
Proof.
  assert (0 < 2 ^ 1015) by (apply Z.pow_pos_nonneg; lia).
  assert (H1 : 2 ^ 1074 = 2 ^ 59 * 2 ^ 1015)
    by (rewrite <- Z.pow_add_r by lia; f_equal).
  change (2 ^ 59) with 576460752303423488 in H1. lia.
Qed.

Lemma whole_is_giver x a : whole x a -> PrimFloat.ltb x neg_eps = (a <? 0).
Proof.
  intros (Hn & Hp & _). pose proof eps_below_one. pose proof pow_1074_pos.
  apply eq_true_iff_eq. rewrite ltb_place, Z.ltb_lt, place_neg_eps, Hp. split.
  - intros (_ & _ & H1). nia.
  - intros H1. split; [assumption|]. split; [reflexivity|]. nia.
Qed.

Lemma whole_is_receiver x a : whole x a -> PrimFloat.ltb eps x = (0 <? a).
Proof.
  intros (Hn & Hp & _). pose proof eps_below_one. pose proof pow_1074_pos.
  apply eq_true_iff_eq. rewrite ltb_place, Z.ltb_lt, place_eps, Hp. split.
  - intros (_ & _ & H1). nia.
  - intros H1. split; [reflexivity|]. split; [assumption|]. nia.
Qed.

Lemma whole_settled x a : whole x a -> PrimFloat.ltb x eps = (a <=? 0).
Proof.
  intros (Hn & Hp & _). pose proof eps_below_one. pose proof pow_1074_pos.
  apply eq_true_iff_eq. rewrite ltb_place, Z.leb_le, place_eps, Hp. split.
  - intros (_ & _ & H1). nia.
  - intros H1. split; [assumption|]. split; [reflexivity|]. nia.
Qed.

Lemma whole_eqb_zero x : whole x 0 -> PrimFloat.eqb x PrimFloat.zero = true.
Proof.
  intros (Hn & Hp & _). apply eqb_place. split; [assumption|].
  split; [reflexivity|]. rewrite Hp. reflexivity.
Qed.

(** *** Two decimals of a whole number *)

Lemma finite_of_whole x a :
  whole x a -> 1 <= a ->
  exists m e,
    Prim2SF x = S754_finite false m e /\ bounded prec emax m e = true
    /\ Zpos m * 2 ^ (e + 1074) = a * 2 ^ 1074.
Proof.
  intros (Hn & Hp & Hb) Ha. pose proof pow_1074_pos.
  pose proof (whole_zero_or_finite x a (conj Hn (conj Hp Hb))) as HF.
  pose proof (valid_SF x) as V. unfold valid in V. unfold place in Hp.
  destruct (Prim2SF x) as [s|s| |s m e]; try contradiction.
  - cbn [rank] in Hp. nia.
  - cbn [rank valid_binary] in Hp, V. pose proof (finite_rank_bounds m e V).
    destruct s; cbn [cond_Zopp] in Hp; [nia|]. eauto.
Qed.

Lemma hundredths_whole m e a :
  -1074 <= e -> 1 <= a ->
  Zpos m * 2 ^ (e + 1074) = a * 2 ^ 1074 ->
  JS.hundredths m e = 100 * a.
Proof.
  intros He Ha Hm. unfold JS.hundredths. destruct e as [|k|k].
  - change (2 ^ (0 + 1074)) with (2 ^ 1074) in Hm.
    apply pow_cancel in Hm; [|lia]. change (2 ^ 0) with 1. lia.
  - assert (0 < 2 ^ Zpos k) by (apply Z.pow_pos_nonneg; lia).
    rewrite Z.pow_add_r in Hm by lia.
    rewrite Z.mul_assoc in Hm. apply pow_cancel in Hm; [|lia]. nia.
  - assert (HK : 0 < 2 ^ Zpos k) by (apply Z.pow_pos_nonneg; lia).
    assert (Hma : Zpos m = a * 2 ^ Zpos k).
    { apply (pow_cancel _ _ (Zneg k + 1074)); [lia|]. rewrite Hm.
      rewrite <- Z.mul_assoc, <- Z.pow_add_r by lia. do 2 f_equal. lia. }
    rewrite Z.shiftr_div_pow2 by lia. rewrite Hma.
    rewrite Z.pow_add_r by lia. change (2 ^ 1) with 2.
    replace (200 * (a * 2 ^ Zpos k) + 2 ^ Zpos k)
      with (2 ^ Zpos k * (200 * a + 1)) by ring.
    rewrite Z.div_mul_cancel_l by lia.
    symmetry. apply (Z.div_unique_pos _ _ _ 1); lia.
Qed.

Lemma at_least_1e21_whole m e a :
  -1074 <= e -> 1 <= a <= 2 ^ 53 ->
  Zpos m * 2 ^ (e + 1074) = a * 2 ^ 1074 ->
  JS.at_least_1e21 m e = false.
Proof.
  intros He [Ha1 Ha2] Hm. change (2 ^ 53) with 9007199254740992 in Ha2.
  unfold JS.at_least_1e21. change (10 ^ 21) with 1000000000000000000000.
  destruct e as [|k|k].
  - change (2 ^ (0 + 1074)) with (2 ^ 1074) in Hm.
    apply pow_cancel in Hm; [|lia]. change (2 ^ 0) with 1.
    apply Z.leb_gt. lia.
  - rewrite Z.pow_add_r in Hm by lia.
    rewrite Z.mul_assoc in Hm. apply pow_cancel in Hm; [|lia].
    apply Z.leb_gt. lia.
  - assert (HK : 0 < 2 ^ Zpos k) by (apply Z.pow_pos_nonneg; lia).
    assert (Hma : Zpos m = a * 2 ^ Zpos k).
    { apply (pow_cancel _ _ (Zneg k + 1074)); [lia|]. rewrite Hm.
      rewrite <- Z.mul_assoc, <- Z.pow_add_r by lia. do 2 f_equal. lia. }
    apply Z.leb_gt. nia.
Qed.

(** [100 a / 100] is [a]. *)
Lemma cents_whole n a :
  1 <= a <= 2 ^ 53 -> Zpos n = 100 * a ->
  exists c F,
    cents false n = S754_finite false c F /\ bounded prec emax c F = true
    /\ Zpos c * 2 ^ (F + 1074) = a * 2 ^ 1074.
Proof.
  intros Ha Hn. pose proof (digits2_pos_bounds n) as [L U].
  unfold cents, SF64div, SFdiv, SFdiv_core_binary, fexp, SpecFloat.emin, prec, emax.
  cbn [Zdigits2 xorb]. change (Zpos (digits2_pos 100)) with 7.
  replace (Z.min (Z.max (Zpos (digits2_pos n) + 0 - (7 + 0) - 53) (3 - 1024 - 53)) (0 - 0))
    with (Z.min (Zpos (digits2_pos n) - 60) 0) by lia.
  set (d := Zpos (digits2_pos n)) in *.
  assert (Hd : 1 <= d) by (subst d; lia).
  destruct (Z.lt_ge_cases d 60) as [Hlt|Hge].
  - rewrite Z.min_l by lia.
    replace (0 - 0 - (d - 60)) with (60 - d) by lia.
    destruct (60 - d) as [|s|s] eqn:Es; [lia| |lia].
    rewrite Z.shiftl_mul_pow2 by lia.
    assert (HS : 0 < 2 ^ Zpos s) by (apply Z.pow_pos_nonneg; lia).
    assert (Hm : 2 ^ 59 <= Zpos n * 2 ^ Zpos s).
    { replace 59 with ((d - 1) + Zpos s) by lia. rewrite Z.pow_add_r by lia.
      apply Z.mul_le_mono_nonneg_r; [apply Z.pow_nonneg; lia|exact L]. }
    pose proof (Z_div_mod (Zpos n * 2 ^ Zpos s) 100 ltac:(lia)) as Hdiv.
    destruct (Z.div_eucl (Zpos n * 2 ^ Zpos s) 100) as [q r].
    destruct Hdiv as [Hq Hr].
    change (2 ^ 59) with 576460752303423488 in Hm.
    assert (Hqa : q = a * 2 ^ Zpos s) by nia.
    assert (Hr0 : r = 0) by nia. subst r.
    destruct q as [|q|q]; [lia| |lia].
    change (new_location 100 0) with loc_Exact.
    apply binary_round_aux_whole; [|lia|assumption|].
    + apply digits_ge. change (2 ^ (53 - 1)) with 4503599627370496. lia.
    + rewrite Hqa, <- Z.mul_assoc, <- Z.pow_add_r by lia. do 2 f_equal. lia.
  - rewrite Z.min_r by lia. change (0 - 0 - 0) with 0. cbv iota.
    assert (Hm : 2 ^ 59 <= Zpos n).
    { assert (2 ^ 59 <= 2 ^ (d - 1)) by (apply Z.pow_le_mono_r; lia). lia. }
    pose proof (Z_div_mod (Zpos n) 100 ltac:(lia)) as Hdiv.
    destruct (Z.div_eucl (Zpos n) 100) as [q r].
    destruct Hdiv as [Hq Hr].
    change (2 ^ 59) with 576460752303423488 in Hm.
    assert (Hqa : q = a) by nia.
    assert (Hr0 : r = 0) by nia. subst r.
    destruct q as [|q|q]; [lia| |lia].
    change (new_location 100 0) with loc_Exact.
    apply binary_round_aux_whole; [|lia|assumption|].
    + apply digits_ge. change (2 ^ (53 - 1)) with 4503599627370496. lia.
    + rewrite Hqa. reflexivity.
Qed.

(** [Number(x.toFixed(2))] of a positive whole number is that number. *)
Lemma whole_toFixed2 x a : whole x a -> 1 <= a -> whole (JS.toFixed2 x) a.
Proof.
  intros Hx Ha. destruct (finite_of_whole x a Hx Ha) as (m & e & Ex & Hb & Hm).
  pose proof (bounded_emin m e Hb) as He. unfold SpecFloat.emin, prec, emax in He.
  destruct Hx as (_ & _ & Hbound).
  unfold JS.toFixed2. rewrite Ex.
  rewrite (at_least_1e21_whole m e a) by (assumption || lia).
  rewrite (hundredths_whole m e a) by (assumption || lia).
  destruct (100 * a) as [|n|n] eqn:En; [lia| |lia].
  fold (cents false n).
  destruct (cents_whole n a ltac:(lia) (eq_sym En)) as (c & F & -> & Hc & Hv).
  split; [|split].
  - rewrite is_nan_spec, Prim2SF_SF2Prim by exact Hc. reflexivity.
  - unfold place. rewrite Prim2SF_SF2Prim by exact Hc. exact Hv.
  - assumption.
Qed.

(** *** Integers as numbers *)

(** The binary64 number nearest to the integer [z]: [z] itself up to
    [2^53] in magnitude. *)
Definition integer (z : Z) : float :=
  SF2Prim (binary_normalize prec emax z 0 false).

Lemma whole_integer z : - 2 ^ 53 <= z <= 2 ^ 53 -> whole (integer z) z.
Proof.
  intros Hz. unfold integer. pose proof pow_1074_pos.
  destruct z as [|p|p]; cbn [binary_normalize].
  - apply whole_zero.
  - destruct (binary_round_exact false p 0 (Zpos p)) as (c & F & -> & Hc & Hv);
      [lia|lia|reflexivity|].
    split; [|split; [|assumption]].
    + rewrite is_nan_spec, Prim2SF_SF2Prim by exact Hc. reflexivity.
    + unfold place. rewrite Prim2SF_SF2Prim by exact Hc. exact Hv.
  - destruct (binary_round_exact true p 0 (Zpos p)) as (c & F & -> & Hc & Hv);
      [lia|lia|reflexivity|].
    split; [|split; [|assumption]].
    + rewrite is_nan_spec, Prim2SF_SF2Prim by exact Hc. reflexivity.
    + unfold place. rewrite Prim2SF_SF2Prim by exact Hc.
      cbn [rank cond_Zopp]. lia.
Qed.

End Whole64.

(** ** Settling whole-number balances on binary64 *)

Section Settle64.
Import Binary64 Order64 Whole64.
Implicit Types (b nb : Balances float) (l ds cs : list (Entry.t float)).

(** The integer a whole number stands for. *)
Definition zof (x : float) : Z := (place x / 2 ^ 1074)%Z.

Lemma zof_whole x a : whole x a -> zof x = a.
Proof.
  intros (_ & Hp & _). unfold zof. rewrite Hp. apply Z.div_mul.
  pose proof pow_1074_pos. lia.
Qed.

Definition debt (x : Entry.t float) : Prop :=
  whole (Entry.amount x) (zof (Entry.amount x)) /\ (zof (Entry.amount x) < 0)%Z.
Definition credit (x : Entry.t float) : Prop :=
  whole (Entry.amount x) (zof (Entry.amount x)) /\ (0 < zof (Entry.amount x))%Z.

Fixpoint sumz (l : list (Entry.t float)) : Z :=
  match l with
  | [] => 0
  | x :: l' => zof (Entry.amount x) + sumz l'
  end.

(** The map holds, under the key of every entry of the list, the integer
    the entry holds. *)
Definition consistent (b : Balances float) (l : list (Entry.t float)) : Prop :=
  forall x, In x l ->
            exists v, get (Entry.member x) b = Some v
                      /\ whole v (zof (Entry.amount x)).

Lemma sumz_debts ds : List.Forall debt ds -> (sumz ds <= 0)%Z.
Proof. induction 1 as [|d ds [_ Hd] _ IH]; simpl; lia. Qed.

Lemma sumz_credits cs : List.Forall credit cs -> (0 <= sumz cs)%Z.
Proof. induction 1 as [|c cs [_ Hc] _ IH]; simpl; lia. Qed.

Lemma matching_unfold fuel d ds c cs :
  Spec.matching (S fuel) (d :: ds) (c :: cs)
  = let a := JS.Math_min (PrimFloat.abs (Entry.amount d)) (Entry.amount c) in
    let emitted :=
      if PrimFloat.ltb eps a
      then [Edge.mk (Entry.member d) (Entry.member c) (JS.toFixed2 a)]
      else [] in
    let d' := PrimFloat.add (Entry.amount d) a in
    let c' := PrimFloat.sub (Entry.amount c) a in
    let ds'' := if PrimFloat.ltb (PrimFloat.abs d') eps then ds
                else Entry.mk (Entry.member d) d' :: ds in
    let cs'' := if PrimFloat.ltb (PrimFloat.abs c') eps then cs
                else Entry.mk (Entry.member c) c' :: cs in
    option_map (app emitted) (Spec.matching fuel ds'' cs'').
Proof. reflexivity. Qed.

Lemma get_apply_edge64 b e k :
  get k (apply_edge b e)
  = option_map
      (fun v =>
         let v1 := if String.eqb k (Edge.from e)
                   then PrimFloat.add v (Edge.amount e) else v in
         if String.eqb k (Edge.to e)
         then PrimFloat.sub v1 (Edge.amount e) else v1)
      (get k b).
Proof.
  unfold apply_edge. rewrite !get_update_if_defined. cbn [add sub binary64].
  destruct (get k b) as [v|]; destruct (String.eqb k (Edge.to e)),
    (String.eqb k (Edge.from e)); reflexivity.
Qed.

Lemma NoDup_sub (l1 l2 : list string) :
  l1 `sublist_of` l2 -> List.NoDup l2 -> List.NoDup l1.
Proof.
  intros Hs Hn. apply NoDup_ListNoDup. apply NoDup_ListNoDup in Hn.
  eapply sublist_NoDup; eassumption.
Qed.

Lemma whole_abs_settled x a :
  whole x a -> PrimFloat.ltb (PrimFloat.abs x) eps = (a =? 0)%Z.
Proof.
  intros H. rewrite (whole_settled _ _ (whole_abs _ _ H)).
  destruct (Z.eqb_spec a 0); [apply Z.leb_le|apply Z.leb_gt]; lia.
Qed.

(** The greedy loop on whole debts and credits that balance: it returns,
    and applying what it emitted leaves zero under every key of the two
    lists and every other entry as it was. *)
Lemma matching_settles64 fuel : forall ds cs b,
    List.Forall debt ds -> List.Forall credit cs ->
    (sumz ds + sumz cs = 0)%Z -> length ds + length cs <= fuel ->
    List.NoDup (members ds ++ members cs) ->
    consistent b ds -> consistent b cs ->
    exists edges,
      Spec.matching fuel ds cs = Some edges
      /\ (forall k, In k (members ds ++ members cs) ->
                    exists v, get k (settle b edges) = Some v /\ whole v 0)
      /\ (forall k, ~ In k (members ds ++ members cs) ->
                    get k (settle b edges) = get k b).
Proof.
  induction fuel as [|fuel IH]; intros ds cs b Hds Hcs Hsum Hlen Hnd Cd Cc.
  { destruct ds, cs; simpl in Hlen; try lia. exists []. split; [reflexivity|].
    split; [intros k []|reflexivity]. }
  destruct ds as [|d ds'].
  { destruct cs as [|c cs'].
    - exists []. split; [reflexivity|]. split; [intros k []|reflexivity].
    - exfalso. inversion Hcs as [|? ? [_ Hc] Hcs']; subst.
      pose proof (sumz_credits _ Hcs'). simpl in Hsum. lia. }
  destruct cs as [|c cs'].
  { exfalso. inversion Hds as [|? ? [_ Hd] Hds']; subst.
    pose proof (sumz_debts _ Hds'). simpl in Hsum. lia. }
  inversion Hds as [|? ? [Wd Hd] Hds']; subst.
  inversion Hcs as [|? ? [Wc Hc] Hcs']; subst.
  destruct d as [dk dv], c as [ck cv]. cbn [Entry.amount] in Wd, Hd, Wc, Hc.
  cbn [sumz Entry.amount] in Hsum. cbn [length] in Hlen.
  set (zd := zof dv) in *. set (zc := zof cv) in *.
  rewrite matching_unfold. cbn [Entry.amount Entry.member]. cbv zeta.
  set (a := JS.Math_min (PrimFloat.abs dv) cv).
  set (za := Z.min (Z.abs zd) zc).
  assert (Wa : whole a za) by (apply whole_min; [now apply whole_abs|assumption]).
  assert (Hza : (1 <= za)%Z) by lia.
  assert (Wt : whole (JS.toFixed2 a) za) by (now apply whole_toFixed2).
  rewrite (whole_is_receiver a za Wa).
  assert (E1 : (0 <? za)%Z = true) by (apply Z.ltb_lt; lia). rewrite E1.
  pose proof Wd as (_ & _ & Bd). pose proof Wc as (_ & _ & Bc).
  set (d' := PrimFloat.add dv a). set (c' := PrimFloat.sub cv a).
  assert (Wd' : whole d' (zd + za)) by (apply whole_add; [assumption|assumption|lia]).
  assert (Wc' : whole c' (zc - za)) by (apply whole_sub; [assumption|assumption|lia]).
  rewrite (whole_abs_settled d' _ Wd'), (whole_abs_settled c' _ Wc').
  (* the keys *)
  cbn [members map Entry.member] in Hnd. fold (members ds') in Hnd.
  fold (members cs') in Hnd.
  assert (Kdc : dk <> ck).
  { intros ->. apply List.NoDup_cons_iff in Hnd as [Hn _]. apply Hn.
    apply in_or_app. right. now left. }
  assert (Kd : ~ In dk (members ds' ++ members cs')).
  { apply List.NoDup_cons_iff in Hnd as [Hn _]. intros H. apply Hn.
    apply in_app_or in H as [H|H]; apply in_or_app; [now left|right; now right]. }
  assert (Kc : ~ In ck (members ds' ++ members cs')).
  { intros H. apply List.NoDup_cons_iff in Hnd as [_ Hn].
    apply List.NoDup_remove_2 in Hn. apply Hn. exact H. }
  (* the map after the edge *)
  set (e := Edge.mk dk ck (JS.toFixed2 a)).
  set (b1 := apply_edge b e).
  destruct (Cd (Entry.mk dk dv) ltac:(now left)) as (vd & Gd & Wvd).
  destruct (Cc (Entry.mk ck cv) ltac:(now left)) as (vc & Gc & Wvc).
  cbn [Entry.member Entry.amount] in Gd, Wvd, Gc, Wvc. fold zd in Wvd. fold zc in Wvc.
  assert (G1d : exists v, get dk b1 = Some v /\ whole v (zd + za)).
  { subst b1. rewrite get_apply_edge64, Gd. cbn [option_map Edge.from Edge.to Edge.amount e].
    rewrite String.eqb_refl. destruct (String.eqb_spec dk ck) as [|_]; [contradiction|].
    eexists. split; [reflexivity|]. apply whole_add; [assumption|assumption|lia]. }
  assert (G1c : exists v, get ck b1 = Some v /\ whole v (zc - za)).
  { subst b1. rewrite get_apply_edge64, Gc. cbn [option_map Edge.from Edge.to Edge.amount e].
    rewrite String.eqb_refl. destruct (String.eqb_spec ck dk) as [E|_]; [congruence|].
    eexists. split; [reflexivity|]. apply whole_sub; [assumption|assumption|lia]. }
  assert (G1o : forall k, k <> dk -> k <> ck -> get k b1 = get k b).
  { intros k H1 H2. subst b1. rewrite get_apply_edge64.
    cbn [Edge.from Edge.to Edge.amount e].
    destruct (String.eqb_spec k dk) as [|_]; [contradiction|].
    destruct (String.eqb_spec k ck) as [|_]; [contradiction|].
    now destruct (get k b). }
  set (ds'' := if (zd + za =? 0)%Z then ds' else Entry.mk dk d' :: ds').
  set (cs'' := if (zc - za =? 0)%Z then cs' else Entry.mk ck c' :: cs').
  assert (Zd' : zof d' = (zd + za)%Z) by (now apply zof_whole).
  assert (Zc' : zof c' = (zc - za)%Z) by (now apply zof_whole).
  assert (Hds'' : List.Forall debt ds'').
  { subst ds''. destruct (Z.eqb_spec (zd + za) 0); [assumption|].
    constructor; [|assumption]. split; cbn [Entry.amount]; rewrite Zd'; [assumption|lia]. }
  assert (Hcs'' : List.Forall credit cs'').
  { subst cs''. destruct (Z.eqb_spec (zc - za) 0); [assumption|].
    constructor; [|assumption]. split; cbn [Entry.amount]; rewrite Zc'; [assumption|lia]. }
  assert (Sd : sumz ds'' = (zd + za + sumz ds')%Z).
  { subst ds''. destruct (Z.eqb_spec (zd + za) 0); cbn [sumz Entry.amount]; lia. }
  assert (Sc : sumz cs'' = (zc - za + sumz cs')%Z).
  { subst cs''. destruct (Z.eqb_spec (zc - za) 0); cbn [sumz Entry.amount]; lia. }
  assert (Hlen'' : length ds'' + length cs'' <= fuel).
  { subst ds'' cs''.
    destruct (Z.eqb_spec (zd + za) 0), (Z.eqb_spec (zc - za) 0); cbn [length]; lia. }
  assert (Sub : (members ds'' ++ members cs'')
                  `sublist_of` (dk :: members ds' ++ ck :: members cs')).
  { change (dk :: members ds' ++ ck :: members cs')
      with ((dk :: members ds') ++ (ck :: members cs')).
    subst ds'' cs''. apply sublist_app.
    - destruct (zd + za =? 0)%Z; [apply sublist_cons|apply sublist_skip]; reflexivity.
    - destruct (zc - za =? 0)%Z; [apply sublist_cons|apply sublist_skip]; reflexivity. }
  assert (Hnd'' : List.NoDup (members ds'' ++ members cs''))
    by (eapply NoDup_sub; eassumption).
  assert (Cd'' : consistent b1 ds'').
  { intros x Hx. subst ds''.
    assert (Hold : In x ds' ->
                   exists v, get (Entry.member x) b1 = Some v
                             /\ whole v (zof (Entry.amount x))).
    { intros Hin. rewrite G1o.
      - apply Cd. now right.
      - intros E. apply Kd. apply in_or_app. left. rewrite <- E. now apply in_map.
      - intros E. apply Kc. apply in_or_app. left. rewrite <- E. now apply in_map. }
    destruct (zd + za =? 0)%Z; [auto|].
    destruct Hx as [<-|Hx]; [|auto]. cbn [Entry.member Entry.amount].
    now rewrite Zd'. }
  assert (Cc'' : consistent b1 cs'').
  { intros x Hx. subst cs''.
    assert (Hold : In x cs' ->
                   exists v, get (Entry.member x) b1 = Some v
                             /\ whole v (zof (Entry.amount x))).
    { intros Hin. rewrite G1o.
      - apply Cc. now right.
      - intros E. apply Kd. apply in_or_app. right. rewrite <- E. now apply in_map.
      - intros E. apply Kc. apply in_or_app. right. rewrite <- E. now apply in_map. }
    destruct (zc - za =? 0)%Z; [auto|].
    destruct Hx as [<-|Hx]; [|auto]. cbn [Entry.member Entry.amount].
    now rewrite Zc'. }
  destruct (IH ds'' cs'' b1 Hds'' Hcs'' ltac:(lia) Hlen'' Hnd'' Cd'' Cc'')
    as (edges & Hm & Hin & Hout).
  fold ds'' cs''. rewrite Hm. exists (e :: edges). split; [reflexivity|].
  change (settle b (e :: edges)) with (settle b1 edges).
  assert (Hmem : forall k, In k (members ds'' ++ members cs'') ->
                           In k (dk :: members ds' ++ ck :: members cs')).
  { intros k Hk. apply list_elem_of_In. eapply elem_of_sublist; [|exact Sub].
    now apply list_elem_of_In. }
  split.
  - intros k Hk.
    destruct (in_dec string_dec k (members ds'' ++ members cs'')) as [Hi|Hni];
      [now apply Hin|].
    rewrite (Hout k Hni).
    assert (Hcase : (k = dk /\ (zd + za = 0)%Z) \/ (k = ck /\ (zc - za = 0)%Z)).
    { subst ds'' cs''.
      destruct (Z.eqb_spec (zd + za) 0) as [Ed|Nd], (Z.eqb_spec (zc - za) 0) as [Ec|Nc];
        cbn [members map Entry.member] in Hni; fold (members ds') in Hni;
        fold (members cs') in Hni.
      - destruct Hk as [<-|Hk]; [now left|].
        apply in_app_or in Hk as [Hk|[<-|Hk]]; [|now right|];
          exfalso; apply Hni, in_or_app; tauto.
      - destruct Hk as [<-|Hk]; [now left|].
        exfalso. apply Hni. apply in_app_or in Hk as [Hk|Hk]; apply in_or_app; tauto.
      - destruct Hk as [<-|Hk]; [exfalso; apply Hni; now left|].
        apply in_app_or in Hk as [Hk|[<-|Hk]]; [|now right|];
          exfalso; apply Hni; right; apply in_or_app; tauto.
      - exfalso. apply Hni. destruct Hk as [<-|Hk]; [now left|]. right.
        apply in_app_or in Hk as [Hk|Hk]; apply in_or_app; [tauto|].
        right. exact Hk. }
    destruct Hcase as [[-> E0]|[-> E0]].
    + destruct G1d as (v & Gv & Wv). exists v. split; [assumption|]. now rewrite <- E0.
    + destruct G1c as (v & Gv & Wv). exists v. split; [assumption|]. now rewrite <- E0.
  - intros k Hk. rewrite Hout.
    + apply G1o.
      * intros ->. apply Hk. now left.
      * intros ->. apply Hk. right. apply in_or_app. right. now left.
    + intros H. apply Hk. now apply Hmem.
Qed.

(** *** From the map to the two lists *)

Lemma get_In_NoDup b k v :
  List.NoDup (keys b) -> In (k, v) b -> get k b = Some v.
Proof.
  induction b as [|[k' v'] b IH]; intros Hnd Hin; [destruct Hin|].
  cbn [keys map fst] in Hnd. fold (keys b) in Hnd.
  apply List.NoDup_cons_iff in Hnd as [Hk Hnd]. cbn [get].
  destruct Hin as [[= -> ->]|Hin].
  - now rewrite String.eqb_refl.
  - destruct (String.eqb_spec k k') as [->|_]; [|auto].
    exfalso. apply Hk. unfold keys. apply in_map_iff. now exists (k', v).
Qed.

Lemma get_Some_In b k v : get k b = Some v -> In (k, v) b.
Proof.
  induction b as [|[k' v'] b IH]; cbn [get]; [discriminate|].
  destruct (String.eqb_spec k k') as [->|_].
  - intros [= ->]. now left.
  - intros H. right. auto.
Qed.

Lemma sumz_perm l l' : Permutation l l' -> sumz l = sumz l'.
Proof. induction 1; cbn [sumz]; lia. Qed.

(** Every balance of the map is a whole number. *)
Definition whole_map (nb : Balances float) : Prop :=
  forall k v, In (k, v) nb -> whole v (zof v).

Fixpoint sum_map (nb : Balances float) : Z :=
  match nb with
  | [] => 0
  | (_, v) :: nb' => zof v + sum_map nb'
  end.

Lemma sumz_classified nb :
  whole_map nb ->
  (sumz (map Spec.entry (List.filter is_giver nb))
   + sumz (map Spec.entry (List.filter is_receiver nb)) = sum_map nb)%Z.
Proof.
  induction nb as [|[k v] nb IH]; intros Hw; [reflexivity|].
  assert (Hv : whole v (zof v)) by (apply (Hw k); now left).
  assert (Hw' : whole_map nb) by (intros k' v' H; apply (Hw k'); now right).
  specialize (IH Hw'). cbn [List.filter sum_map].
  assert (Eg : is_giver (k, v) = (zof v <? 0)%Z)
    by exact (whole_is_giver v _ Hv).
  assert (Er : is_receiver (k, v) = (0 <? zof v)%Z)
    by (rewrite is_receiver_creditor; exact (whole_is_receiver v _ Hv)).
  rewrite Eg, Er.
  destruct (Z.ltb_spec (zof v) 0), (Z.ltb_spec 0 (zof v));
    cbn [map sumz Spec.entry Entry.amount snd]; lia.
Qed.

Lemma settles_on_whole_map nb :
  List.NoDup (keys nb) -> whole_map nb -> sum_map nb = 0%Z ->
  exists edges,
    simplifyDebts (length nb) nb = Some edges
    /\ forall k v, get k (settle nb edges) = Some v ->
                   PrimFloat.eqb v PrimFloat.zero = true.
Proof.
  intros Hnd Hw Hsum.
  assert (Hds : List.Forall debt (givers (initial nb))).
  { apply List.Forall_forall. intros x Hx.
    apply In_givers_initial in Hx as [Hin Hg].
    pose proof (Hw _ _ Hin) as Hv. split; [assumption|].
    apply Z.ltb_lt. rewrite <- (whole_is_giver _ _ Hv). exact Hg. }
  assert (Hcs : List.Forall credit (receivers (initial nb))).
  { apply List.Forall_forall. intros x Hx.
    apply In_receivers_initial in Hx as [Hin Hr].
    pose proof (Hw _ _ Hin) as Hv. split; [assumption|].
    rewrite is_receiver_creditor in Hr.
    apply Z.ltb_lt. rewrite <- (whole_is_receiver _ _ Hv). exact Hr. }
  assert (Hs : (sumz (givers (initial nb)) + sumz (receivers (initial nb)) = 0)%Z).
  { rewrite givers_initial, receivers_initial.
    rewrite (sumz_perm _ _ (sort_perm ascending _)).
    rewrite (sumz_perm _ _ (sort_perm descending _)).
    now rewrite sumz_classified. }
  assert (Hn : List.NoDup (members (givers (initial nb))
                           ++ members (receivers (initial nb)))).
  { destruct (initial_pairs_inv nb Hnd) as (Ng & Nr & _).
    apply List.NoDup_app; [assumption|assumption|].
    intros k Hg Hr. exact (initial_disjoint nb k Hnd Hg Hr). }
  assert (Cd : consistent nb (givers (initial nb))).
  { intros x Hx. apply In_givers_initial in Hx as [Hin _].
    exists (Entry.amount x). split; [now apply get_In_NoDup|]. exact (Hw _ _ Hin). }
  assert (Cc : consistent nb (receivers (initial nb))).
  { intros x Hx. apply In_receivers_initial in Hx as [Hin _].
    exists (Entry.amount x). split; [now apply get_In_NoDup|]. exact (Hw _ _ Hin). }
  destruct (matching_settles64 (length nb) _ _ nb Hds Hcs Hs
              (classified_le_length nb) Hn Cd Cc) as (edges & Hm & Hin & Hout).
  exists edges. split.
  - rewrite simplifyDebts_refines. unfold Spec.simplifyDebts.
    destruct (initial_spec nb) as [<- <-]. exact Hm.
  - intros k v Hget.
    destruct (in_dec string_dec k
                (members (givers (initial nb)) ++ members (receivers (initial nb))))
      as [Hi|Hni].
    + destruct (Hin k Hi) as (v' & Hv' & W0).
      rewrite Hget in Hv'. injection Hv' as <-. now apply whole_eqb_zero.
    + rewrite (Hout k Hni) in Hget. apply get_Some_In in Hget.
      pose proof (Hw _ _ Hget) as Hv. apply whole_eqb_zero.
      assert (Hz : zof v = 0%Z); [|now rewrite Hz in Hv].
      destruct (Z.lt_trichotomy (zof v) 0) as [Hlt|[E|Hgt]]; [exfalso|assumption|exfalso];
        apply Hni, in_or_app.
      * left. rewrite givers_initial. apply In_members_sort.
        rewrite members_entries. unfold keys. apply in_map_iff.
        exists (k, v). split; [reflexivity|]. apply List.filter_In. split; [assumption|].
        change (PrimFloat.ltb v neg_eps = true).
        rewrite (whole_is_giver _ _ Hv). now apply Z.ltb_lt.
      * right. rewrite receivers_initial. apply In_members_sort.
        rewrite members_entries. unfold keys. apply in_map_iff.
        exists (k, v). split; [reflexivity|]. apply List.filter_In. split; [assumption|].
        rewrite is_receiver_creditor. change (PrimFloat.ltb eps v = true).
        rewrite (whole_is_receiver _ _ Hv). now apply Z.ltb_lt.
Qed.

(** A balance map given by its integers. *)
Definition whole_balances (zb : list (string * Z)) : Balances float :=
  map (fun kz => (fst kz, integer (snd kz))) zb.

Lemma keys_whole_balances zb : keys (whole_balances zb) = map fst zb.
Proof. unfold keys, whole_balances. rewrite map_map. reflexivity. Qed.

Lemma whole_map_whole_balances zb :
  (forall k z, In (k, z) zb -> (- 2 ^ 53 <= z <= 2 ^ 53)%Z) ->
  whole_map (whole_balances zb)
  /\ sum_map (whole_balances zb) = fold_right Z.add 0%Z (map snd zb).
Proof.
  induction zb as [|[k z] zb IH]; intros Hb.
  - split; [intros k v []|reflexivity].
  - destruct IH as [IH1 IH2]; [intros k' z' H; apply (Hb k'); now right|].
    assert (Hz : whole (integer z) z) by (apply whole_integer, (Hb k); now left).
    split.
    + intros k' v' [[= <- <-]|Hin]; [|now apply (IH1 k')].
      now rewrite (zof_whole _ _ Hz).
    + cbn [whole_balances map sum_map fst snd fold_right].
      fold (whole_balances zb). rewrite IH2, (zof_whole _ _ Hz). reflexivity.
Qed.

(** *** Balances read as integers *)

(** A number that compares equal to the integer [z]. *)
Lemma whole_eqb_integer v z :
  (- 2 ^ 53 <= z <= 2 ^ 53)%Z -> PrimFloat.eqb v (integer z) = true -> whole v z.
Proof.
  intros Hz H. destruct (whole_integer z Hz) as (Hn & Hp & Hb).
  apply eqb_place in H as (Nv & _ & Ep).
  split; [assumption|]. split; [congruence|assumption].
Qed.



End Settle64.

(** ** Shares that are whole numbers *)

Module Shares64.
Import SF Binary64 Order64 Rounding64 Whole64.
Local Open Scope Z_scope.

Lemma pow_lt_inv a b : 0 <= b -> 2 ^ a < 2 ^ b -> a < b.
Proof.
  intros Hb H. destruct (Z.lt_ge_cases a b) as [|Hge]; [assumption|exfalso].
  assert (2 ^ b <= 2 ^ a) by (apply Z.pow_le_mono_r; lia). lia.
Qed.

Lemma bounded_digits m e : bounded prec emax m e = true -> Zpos (digits2_pos m) <= 53.
Proof.
  intros H. pose proof (bounded_emin _ _ H) as He. apply bounded_canonical in H.
  unfold SpecFloat.emin, prec, emax in *. lia.
Qed.

(** A whole number divided by a whole number that divides it. *)
Lemma SFdiv_whole sx mx ex my ey k :
  bounded prec emax mx ex = true -> bounded prec emax my ey = true ->
  Zpos mx * 2 ^ (ex + 1074) = k * (Zpos my * 2 ^ (ey + 1074)) ->
  1 <= k <= 2 ^ 53 ->
  exists c F,
    SF64div (S754_finite sx mx ex) (S754_finite false my ey) = S754_finite sx c F
    /\ bounded prec emax c F = true
    /\ Zpos c * 2 ^ (F + 1074) = k * 2 ^ 1074.
Proof.
  intros Bx By Hxy [Hk1 Hk2].
  pose proof (bounded_emin _ _ Bx) as Ex. pose proof (bounded_emin _ _ By) as Ey.
  unfold SpecFloat.emin, prec, emax in Ex, Ey.
  pose proof (bounded_digits _ _ Bx) as Dx. pose proof (bounded_digits _ _ By) as Dy.
  pose proof (digits2_pos_bounds mx) as [L1 U1].
  pose proof (digits2_pos_bounds my) as [L2 U2].
  set (d1 := Zpos (digits2_pos mx)) in *. set (d2 := Zpos (digits2_pos my)) in *.
  assert (Hd1 : 1 <= d1) by (subst d1; lia).
  assert (Hd2 : 1 <= d2) by (subst d2; lia).
  set (X := 2 ^ (ex + 1074)) in *. set (Y := 2 ^ (ey + 1074)) in *.
  assert (PX : 0 < X) by (apply Z.pow_pos_nonneg; lia).
  assert (PY : 0 < Y) by (apply Z.pow_pos_nonneg; lia).
  assert (PmY : 0 < Zpos my * Y) by lia.
  set (D := d1 + ex - (d2 + ey)).
  assert (HD1 : D <= 53).
  { assert (H1 : 2 ^ (d1 - 1 + (ex + 1074)) < 2 ^ (53 + d2 + (ey + 1074))).
    { rewrite (Z.pow_add_r 2 (d1 - 1) (ex + 1074)),
        (Z.pow_add_r 2 (53 + d2) (ey + 1074)), (Z.pow_add_r 2 53 d2) by lia.
      fold X Y.
      assert (Ha : 2 ^ (d1 - 1) * X <= Zpos mx * X)
        by (apply Z.mul_le_mono_nonneg_r; lia).
      assert (Hb : k * (Zpos my * Y) <= 2 ^ 53 * (Zpos my * Y))
        by (apply Z.mul_le_mono_nonneg_r; lia).
      assert (Hc : Zpos my * Y < 2 ^ d2 * Y)
        by (apply Z.mul_lt_mono_pos_r; lia).
      assert (Hd : 2 ^ 53 * (Zpos my * Y) < 2 ^ 53 * (2 ^ d2 * Y))
        by (apply Z.mul_lt_mono_pos_l; [apply Z.pow_pos_nonneg|]; lia).
      lia. }
    apply pow_lt_inv in H1; [|lia]. subst D. lia. }
  assert (HD0 : 0 <= D).
  { assert (H1 : 2 ^ (d2 - 1 + (ey + 1074)) < 2 ^ (d1 + (ex + 1074))).
    { rewrite (Z.pow_add_r 2 (d2 - 1) (ey + 1074)),
        (Z.pow_add_r 2 d1 (ex + 1074)) by lia.
      fold X Y.
      assert (Ha : 2 ^ (d2 - 1) * Y <= Zpos my * Y)
        by (apply Z.mul_le_mono_nonneg_r; lia).
      assert (Hb : 1 * (Zpos my * Y) <= k * (Zpos my * Y))
        by (apply Z.mul_le_mono_nonneg_r; lia).
      assert (Hc : Zpos mx * X < 2 ^ d1 * X)
        by (apply Z.mul_lt_mono_pos_r; lia).
      lia. }
    apply pow_lt_inv in H1; [|lia]. subst D. lia. }
  unfold SF64div, SFdiv, SFdiv_core_binary. cbn [Zdigits2 xorb]. fold d1 d2.
  replace (fexp prec emax (d1 + ex - (d2 + ey))) with (D - 53)
    by (unfold fexp, SpecFloat.emin, prec, emax; fold D; lia).
  rewrite (Z.min_l (D - 53) (ex - ey)) by (subst D; lia).
  set (s := ex - ey - (D - 53)).
  assert (Hs : 1 <= s) by (subst s D; lia).
  destruct s as [|p|p] eqn:Es; [lia| |lia]. rewrite <- Es.
  rewrite Z.shiftl_mul_pow2 by lia.
  assert (PS : 0 < 2 ^ s) by (apply Z.pow_pos_nonneg; lia).
  assert (PE : 0 < 2 ^ (53 - D)) by (apply Z.pow_pos_nonneg; lia).
  assert (Hq : Zpos mx * 2 ^ s = k * 2 ^ (53 - D) * Zpos my).
  { apply (pow_cancel _ _ (ey + 1074)); [lia|]. fold Y.
    replace (Zpos mx * 2 ^ s * Y) with (Zpos mx * (2 ^ s * Y)) by ring.
    unfold Y. rewrite <- Z.pow_add_r by lia.
    replace (s + (ey + 1074)) with ((ex + 1074) + (53 - D)) by lia.
    rewrite Z.pow_add_r by lia. fold X Y. rewrite Z.mul_assoc, Hxy. ring. }
  pose proof (Z_div_mod (Zpos mx * 2 ^ s) (Zpos my) ltac:(lia)) as Hdiv.
  destruct (Z.div_eucl (Zpos mx * 2 ^ s) (Zpos my)) as [q r].
  destruct Hdiv as [Hdq Hr].
  assert (Hqv : q = k * 2 ^ (53 - D)).
  { assert (Zpos my * q + r = Zpos my * (k * 2 ^ (53 - D))) by lia.
    assert (0 < k * 2 ^ (53 - D)) by lia. nia. }
  assert (Hr0 : r = 0) by nia. subst r.
  assert (Hloc : new_location (Zpos my) 0 = loc_Exact).
  { unfold new_location, new_location_even, new_location_odd.
    destruct (Z.even (Zpos my)); reflexivity. }
  rewrite Hloc.
  assert (Hq52 : 2 ^ 52 < q).
  { assert (H1 : 2 ^ 52 * 2 ^ d2 = 2 ^ (d1 - 1) * 2 ^ s).
    { rewrite <- !Z.pow_add_r by lia. f_equal. lia. }
    assert (Ha : 2 ^ (d1 - 1) * 2 ^ s <= Zpos mx * 2 ^ s)
      by (apply Z.mul_le_mono_nonneg_r; lia).
    assert (P2 : 0 < 2 ^ d2) by (apply Z.pow_pos_nonneg; lia).
    assert (P52 : 0 < 2 ^ 52) by (apply Z.pow_pos_nonneg; lia).
    assert (Hb : 2 ^ 52 * 2 ^ d2 <= q * Zpos my) by lia.
    destruct (Z.lt_ge_cases (2 ^ 52) q) as [|Hle]; [assumption|exfalso].
    assert (Hc : q * Zpos my <= 2 ^ 52 * Zpos my)
      by (apply Z.mul_le_mono_nonneg_r; lia).
    assert (Hd : 2 ^ 52 * Zpos my < 2 ^ 52 * 2 ^ d2)
      by (apply Z.mul_lt_mono_pos_l; lia).
    lia. }
  destruct q as [|q|q]; [lia| |lia].
  rewrite xorb_false_r.
  apply binary_round_aux_whole.
  - apply digits_ge. change (2 ^ (53 - 1)) with (2 ^ 52). lia.
  - lia.
  - lia.
  - rewrite Hqv, <- Z.mul_assoc, <- Z.pow_add_r by lia.
    do 2 f_equal. lia.
Qed.

Lemma finite_of_nonzero x a :
  whole x a -> a <> 0 ->
  exists s m e,
    Prim2SF x = S754_finite s m e /\ bounded prec emax m e = true
    /\ Zpos m * 2 ^ (e + 1074) = Z.abs a * 2 ^ 1074
    /\ s = (a <? 0).
Proof.
  intros (Hn & Hp & Hb) Ha. pose proof pow_1074_pos.
  pose proof (whole_zero_or_finite x a (conj Hn (conj Hp Hb))) as HF.
  pose proof (valid_SF x) as V. unfold valid in V. unfold place in Hp.
  destruct (Prim2SF x) as [s|s| |s m e]; try contradiction.
  - cbn [rank] in Hp. nia.
  - cbn [rank valid_binary] in Hp, V. pose proof (finite_rank_bounds m e V).
    exists s, m, e. split; [reflexivity|]. split; [assumption|].
    destruct s; cbn [cond_Zopp] in Hp.
    + assert (a < 0) by nia. split; [nia|]. symmetry. now apply Z.ltb_lt.
    + assert (0 < a) by nia. split; [nia|]. symmetry. apply Z.ltb_ge. lia.
Qed.

Lemma whole_div x a y n :
  whole x a -> whole y n -> 1 <= n -> (n | a) ->
  whole (PrimFloat.div x y) (a / n).
Proof.
  intros Hx Hy Hn [k Hk]. pose proof pow_1074_pos.
  assert (Hq : a / n = k) by (subst a; apply Z.div_mul; lia).
  rewrite Hq.
  pose proof Hx as (_ & _ & Bx).
  assert (Bk : - 2 ^ 53 <= k <= 2 ^ 53) by nia.
  destruct (finite_of_whole y n Hy Hn) as (my & ey & Ey & By & Hy').
  destruct (Z.eq_dec a 0) as [E0|N0].
  - assert (Hk0 : k = 0) by nia. rewrite Hk0. clear Hq.
    destruct Hx as (Nx & Px & _). rewrite E0 in Px. unfold place in Px.
    pose proof (valid_SF x) as V. unfold valid in V.
    assert (Hz : exists s, Prim2SF (PrimFloat.div x y) = S754_zero s).
    { rewrite FloatAxioms.div_spec, Ey. rewrite is_nan_spec in Nx.
      destruct (Prim2SF x) as [s|s| |s m e]; try discriminate.
      - eexists. reflexivity.
      - exfalso. cbn [rank] in Px.
        assert (0 < 2 ^ 2098) by (apply Z.pow_pos_nonneg; lia).
        destruct s; cbn [cond_Zopp] in Px; lia.
      - exfalso. cbn [rank valid_binary] in Px, V.
        pose proof (finite_rank_bounds m e V).
        destruct s; cbn [cond_Zopp] in Px; lia. }
    destruct Hz as [s Hz]. split; [|split].
    + rewrite is_nan_spec, Hz. reflexivity.
    + unfold place. rewrite Hz. reflexivity.
    + lia.
  - destruct (finite_of_nonzero x a Hx N0) as (sx & mx & ex & Ex & Bmx & Hx' & Hs).
    assert (Hxy : Zpos mx * 2 ^ (ex + 1074) = Z.abs k * (Zpos my * 2 ^ (ey + 1074))).
    { rewrite Hx', Hy', Hk, Z.abs_mul, (Z.abs_eq n) by lia. ring. }
    destruct (SFdiv_whole sx mx ex my ey (Z.abs k) Bmx By Hxy ltac:(nia))
      as (c & F & HR & Hc & Hv).
    assert (HP : Prim2SF (PrimFloat.div x y) = S754_finite sx c F)
      by (now rewrite FloatAxioms.div_spec, Ex, Ey).
    split; [|split].
    + rewrite is_nan_spec, HP. reflexivity.
    + unfold place. rewrite HP. cbn [rank]. rewrite Hv, Hs.
      destruct (Z.ltb_spec a 0); cbn [cond_Zopp]; nia.
    + assumption.
Qed.

Lemma whole_of_length (n : nat) :
  Z.of_nat n <= 2 ^ 53 -> whole (JS.of_length n) (Z.of_nat n).
Proof.
  intros Hn. unfold JS.of_length.
  assert (HP : Prim2SF (of_uint63 (Uint63.of_Z (Z.of_nat n)))
               = binary_normalize prec emax (Z.of_nat n) 0 false).
  { rewrite FloatAxioms.of_uint63_spec, Uint63.of_Z_spec.
    rewrite Z.mod_small; [reflexivity|]. split; [lia|].
    change Uint63.wB with (2 ^ 63). change (2 ^ 53) with 9007199254740992 in Hn.
    change (2 ^ 63) with 9223372036854775808. lia. }
  destruct (rank_normalize (Z.of_nat n) 0 (Z.of_nat n)) as [Hnn Hr];
    [lia|lia|reflexivity|].
  split; [|split].
  - rewrite is_nan_spec, HP.
    destruct (binary_normalize prec emax (Z.of_nat n) 0 false); congruence.
  - unfold place. now rewrite HP.
  - lia.
Qed.

End Shares64.

(** ** Accumulating whole amounts that split evenly *)

Section Accounts64.
Import Binary64 Order64 Whole64 Shares64.
Implicit Types (b nb : Balances float).
Local Open Scope Z_scope.

(** An expense whose amount is an integer, and the expense document it
    stands for. *)
Definition to_binary64 (ze : Expense.t Z) : Expense.t float :=
  Expense.mk (integer (Expense.amount ze)) (Expense.paidBy ze)
             (Expense.splitBetween ze).

(** A positive whole amount, paid by a member for members, that the
    number of those involved divides. *)
Definition evenly_split (gm : list string) (ze : Expense.t Z) : Prop :=
  1 <= Expense.amount ze
  /\ In (Expense.paidBy ze) gm
  /\ (forall id, In id (Expense.splitBetween ze) -> In id gm)
  /\ (Z.of_nat (length (involvedIds gm ze)) | Expense.amount ze).

Fixpoint total_amount (zes : list (Expense.t Z)) : Z :=
  match zes with
  | [] => 0
  | ze :: zes' => Expense.amount ze + total_amount zes'
  end.

(** Whole balances between [lo] and [hi] that add up to [t], every
    initial part of the map adding up to something between [lo] and
    [hi]. *)
Definition accounts (b : Balances float) (lo hi t : Z) : Prop :=
  whole_map b
  /\ (forall k v, In (k, v) b -> lo <= zof v <= hi)
  /\ (forall i, lo <= sum_map (firstn i b) <= hi)
  /\ sum_map b = t.

Lemma In_set b k w k' v' :
  In (k', v') (set k w b) -> (k' = k /\ v' = w) \/ In (k', v') b.
Proof.
  induction b as [|[k0 v0] b IH]; cbn [set].
  - intros [[= <- <-]|[]]. now left.
  - destruct (String.eqb_spec k k0) as [->|_].
    + intros [[= <- <-]|H]; [now left|right; now right].
    + intros [H|H]; [right; now left|].
      destruct (IH H) as [?|?]; [now left|right; now right].
Qed.

Lemma sum_map_set b k v w :
  get k b = Some v -> sum_map (set k w b) = sum_map b - zof v + zof w.
Proof.
  induction b as [|[k0 v0] b IH]; cbn [get set]; [discriminate|].
  destruct (String.eqb_spec k k0) as [->|_].
  - intros [= ->]. cbn [sum_map]. lia.
  - intros H. cbn [sum_map]. rewrite IH by assumption. lia.
Qed.

Lemma sum_map_firstn_set b k v w :
  get k b = Some v ->
  forall i, sum_map (firstn i (set k w b)) = sum_map (firstn i b)
            \/ sum_map (firstn i (set k w b))
               = sum_map (firstn i b) - zof v + zof w.
Proof.
  induction b as [|[k0 v0] b IH]; cbn [get set]; [discriminate|].
  destruct (String.eqb_spec k k0) as [->|_].
  - intros [= ->] [|i]; [now left|]. right. cbn [firstn sum_map]. lia.
  - intros H [|i]; [now left|]. cbn [firstn sum_map].
    destruct (IH H i) as [E|E]; rewrite E; [left|right]; lia.
Qed.

Lemma accounts_update b lo hi t k f d lo' hi' :
  accounts b lo hi t -> In k (keys b) ->
  (forall v, whole v (zof v) -> lo <= zof v <= hi -> whole (f v) (zof v + d)) ->
  lo' <= lo -> hi <= hi' -> lo' <= lo + d -> hi + d <= hi' ->
  accounts (update_if_defined k f b) lo' hi' (t + d).
Proof.
  intros (Hw & Hb & Hp & Hs) Hk Hf L1 L2 L3 L4.
  destruct (In_keys_get b k Hk) as [v Hv]. unfold update_if_defined. rewrite Hv.
  assert (Hin : In (k, v) b) by (now apply get_Some_In).
  pose proof (Hf v (Hw _ _ Hin) (Hb _ _ Hin)) as Wf.
  pose proof (zof_whole _ _ Wf) as Zf.
  split; [|split; [|split]].
  - intros k' v' H. apply In_set in H as [[-> ->]|H]; [|eauto].
    now rewrite Zf.
  - intros k' v' H. apply In_set in H as [[-> ->]|H].
    + rewrite Zf. specialize (Hb _ _ Hin). lia.
    + specialize (Hb _ _ H). lia.
  - intros i. specialize (Hp i). specialize (Hb _ _ Hin).
    destruct (sum_map_firstn_set b k v (f v) Hv i) as [E|E]; rewrite E, ?Zf; lia.
  - rewrite (sum_map_set b k v) by assumption. rewrite Zf. lia.
Qed.

Lemma accounts_eq b lo hi t lo' t' :
  accounts b lo hi t -> lo = lo' -> t = t' -> accounts b lo' hi t'.
Proof. now intros H <- <-. Qed.

Lemma accounts_debits (share : float) (sh hi : Z) (ids : list string) :
  whole share sh -> 0 <= sh -> hi <= 2 ^ 53 ->
  forall b lo t,
    accounts b lo hi t -> (forall id, In id ids -> In id (keys b)) ->
    - 2 ^ 53 <= lo - Z.of_nat (length ids) * sh ->
    accounts
      (fold_left (fun b id => update_if_defined id (fun v => PrimFloat.sub v share) b)
                 ids b)
      (lo - Z.of_nat (length ids) * sh) hi (t - Z.of_nat (length ids) * sh).
Proof.
  intros Ws Hsh Hhi. induction ids as [|id ids IH]; intros b lo t Ha Hin Hlo.
  - cbn [fold_left length]. replace (lo - Z.of_nat 0 * sh) with lo by lia.
    replace (t - Z.of_nat 0 * sh) with t by lia. assumption.
  - cbn [fold_left]. cbn [length] in *. rewrite Nat2Z.inj_succ in *.
    replace (lo - Z.succ (Z.of_nat (length ids)) * sh)
      with ((lo - sh) - Z.of_nat (length ids) * sh) in * by lia.
    replace (t - Z.succ (Z.of_nat (length ids)) * sh)
      with ((t + - sh) - Z.of_nat (length ids) * sh) by lia.
    assert (0 <= Z.of_nat (length ids) * sh) by lia.
    apply IH.
    + apply (accounts_update b lo hi t id _ (- sh)); try lia; try assumption.
      * apply Hin. now left.
      * intros v Wv Bv. replace (zof v + - sh) with (zof v - sh) by lia.
        apply whole_sub; [assumption|assumption|lia].
    + intros id' H'. rewrite keys_update_if_defined. apply Hin. now right.
    + lia.
Qed.

(** A float expense read as the whole amount [a]: at least one, paid by
    a member for members, and divisible by the number of those involved. *)
Definition even_share (gm : list string) (e : Expense.t float) (a : Z) : Prop :=
  1 <= a
  /\ PrimFloat.eqb (Expense.amount e) (integer a) = true
  /\ In (Expense.paidBy e) gm
  /\ (forall id, In id (Expense.splitBetween e) -> In id gm)
  /\ (Z.of_nat (length (involvedIds gm e)) | a).

Definition sum_amounts (amounts : list Z) : Z := fold_right Z.add 0 amounts.

Lemma involved_on_roster gm e a id :
  even_share gm e a -> In id (involvedIds gm e) -> In id gm.
Proof.
  intros (_ & _ & _ & Hs & _). unfold involvedIds.
  destruct (Expense.splitBetween e) eqn:E; auto.
Qed.

Lemma involved_nonempty gm e a :
  even_share gm e a -> 1 <= Z.of_nat (length (involvedIds gm e)).
Proof.
  intros (_ & _ & Hp & _ & _). unfold involvedIds.
  destruct (Expense.splitBetween e); [|cbn [length]; lia].
  destruct gm; [destruct Hp|cbn [length]; lia].
Qed.

(** One expense: the payer's credit and the shares cancel. *)
Lemma accounts_process_expense gm b S e A :
  accounts b (- S) S 0 -> 0 <= S ->
  (forall k, In k (keys b) <-> In k gm) ->
  even_share gm e A -> S + A <= 2 ^ 53 ->
  accounts (process_expense gm b e) (- (S + A)) (S + A) 0.
Proof.
  intros Ha HS Hk He Hb.
  pose proof (involved_nonempty gm e A He) as Hn.
  pose proof He as (HA & EA & Hp & _ & Hdiv).
  assert (WA : whole (Expense.amount e) A) by (apply whole_eqb_integer; [lia|assumption]).
  set (n := Z.of_nat (length (involvedIds gm e))) in *.
  assert (Hsh : A = A / n * n).
  { destruct Hdiv as [q Hq]. rewrite Hq, Z.div_mul by lia. reflexivity. }
  assert (Hsh1 : 1 <= A / n) by nia.
  assert (HnA : n <= A) by nia.
  assert (Wn : whole (JS.of_length (length (involvedIds gm e))) n)
    by (apply whole_of_length; fold n; lia).
  assert (Wsh : whole (PrimFloat.div (Expense.amount e)
                         (JS.of_length (length (involvedIds gm e)))) (A / n))
    by (apply whole_div; assumption).
  unfold process_expense. cbn [add sub div of_length binary64].
  eapply accounts_eq.
  - apply (accounts_debits _ (A / n) (S + A) (involvedIds gm e) Wsh ltac:(lia) Hb
             _ (- S) (0 + A)).
    + apply (accounts_update b (- S) S 0 _ _ A); try lia; try assumption.
      * now apply Hk.
      * intros v Wv Bv. apply whole_add; [assumption|assumption|lia].
    + intros id Hid. rewrite keys_update_if_defined. apply Hk.
      eapply involved_on_roster; eassumption.
    + fold n. lia.
  - fold n. lia.
  - fold n. lia.
Qed.

Lemma sum_amounts_nonneg gm es amounts :
  List.Forall2 (even_share gm) es amounts -> 0 <= sum_amounts amounts.
Proof.
  induction 1 as [|e a es amounts He _ IH]; cbn [sum_amounts fold_right]; [lia|].
  destruct He as [Ha _]. unfold sum_amounts in IH. lia.
Qed.

Lemma accounts_fold gm es : forall amounts b S,
    accounts b (- S) S 0 -> 0 <= S ->
    (forall k, In k (keys b) <-> In k gm) ->
    List.Forall2 (even_share gm) es amounts -> S + sum_amounts amounts <= 2 ^ 53 ->
    accounts (fold_left (process_expense gm) es b)
             (- (S + sum_amounts amounts)) (S + sum_amounts amounts) 0.
Proof.
  induction es as [|e es IH]; intros amounts b S Ha HS Hk Hes Hb;
    inversion Hes as [|? a ? amounts' He Hes']; subst.
  - cbn [fold_left sum_amounts fold_right]. now rewrite Z.add_0_r.
  - cbn [fold_left]. cbn [sum_amounts fold_right] in *.
    fold (sum_amounts amounts') in *.
    assert (HA : 1 <= a) by apply He.
    pose proof (sum_amounts_nonneg _ _ _ Hes') as Ht.
    rewrite Z.add_assoc. apply IH; try assumption; try lia.
    + apply accounts_process_expense; try assumption. lia.
    + intros k. now rewrite keys_process_expense.
Qed.

Lemma accounts_init (gm : list string) : accounts (init_balances gm) 0 0 0.
Proof.
  assert (Hz : forall k v, In (k, v) (init_balances (num := float) gm) ->
                           v = PrimFloat.zero)
    by (intros k v H; exact (init_balances_zero gm k v H)).
  generalize dependent (init_balances (num := float) gm). intros b Hz.
  assert (Hs : forall i, sum_map (firstn i b) = 0).
  { induction b as [|[k v] b IH]; intros [|i]; try reflexivity.
    cbn [firstn sum_map]. rewrite IH by (intros k' v' H; apply (Hz k'); now right).
    rewrite (Hz k v) by now left. reflexivity. }
  split; [|split; [|split]].
  - intros k v H. rewrite (Hz k v H). apply whole_zero.
  - intros k v H. rewrite (Hz k v H). change (zof PrimFloat.zero) with 0. lia.
  - intros i. rewrite Hs. lia.
  - specialize (Hs (length b)). now rewrite firstn_all in Hs.
Qed.

(** The balances of whole amounts that split evenly are whole, stay
    within the total spent, and add up to zero. *)
Lemma accounts_of_even_shares gm es amounts :
  List.Forall2 (even_share gm) es amounts -> sum_amounts amounts <= 2 ^ 53 ->
  accounts (calculateNetBalances es gm)
           (- sum_amounts amounts) (sum_amounts amounts) 0.
Proof.
  intros Hes Hb. unfold calculateNetBalances.
  apply (accounts_fold gm es amounts (init_balances gm) 0).
  - apply accounts_init.
  - lia.
  - intros k. apply (In_keys_calculateNetBalances (num := float) [] gm).
  - assumption.
  - lia.
Qed.

Lemma total_amount_nonneg gm zes :
  List.Forall (evenly_split gm) zes -> 0 <= total_amount zes.
Proof.
  induction 1 as [|z zs [Hz _] _ IHz]; cbn [total_amount]; lia.
Qed.

Lemma even_share_to_binary64 gm zes :
  List.Forall (evenly_split gm) zes -> total_amount zes <= 2 ^ 53 ->
  List.Forall2 (even_share gm) (map to_binary64 zes) (map Expense.amount zes)
  /\ sum_amounts (map Expense.amount zes) = total_amount zes.
Proof.
  induction 1 as [|ze zes He Hes IH]; intros Hb.
  - split; [constructor|reflexivity].
  - cbn [total_amount] in Hb.
    pose proof (total_amount_nonneg _ _ Hes) as Ht.
    pose proof He as (HA & Hp & Hs & Hd).
    destruct IH as [IH1 IH2]; [lia|].
    split.
    + cbn [map]. constructor; [|assumption].
      split; [assumption|]. split.
      { destruct (whole_integer (Expense.amount ze)) as (Hn & _); [lia|].
        cbn [to_binary64 Expense.amount]. apply eqb_place. auto. }
      split; [assumption|]. split; assumption.
    + cbn [map sum_amounts fold_right total_amount].
      fold (sum_amounts (map Expense.amount zes)). now rewrite IH2.
Qed.

Lemma accounts_calculateNetBalances gm zes :
  List.Forall (evenly_split gm) zes -> total_amount zes <= 2 ^ 53 ->
  accounts (calculateNetBalances (map to_binary64 zes) gm)
           (- total_amount zes) (total_amount zes) 0.
Proof.
  intros Hes Hb.
  destruct (even_share_to_binary64 gm zes Hes Hb) as [H2 Hs].
  rewrite <- Hs. apply accounts_of_even_shares; [assumption|]. now rewrite Hs.
Qed.

(** The sum of whole balances is computed without rounding when every
    initial part of it stays within [2^53]. *)
Lemma total_from_whole b : forall acc za,
    whole acc za -> whole_map b ->
    (forall i, - 2 ^ 53 <= za + sum_map (firstn i b) <= 2 ^ 53) ->
    whole (fold_left (fun acc kv => PrimFloat.add acc (snd kv)) b acc)
          (za + sum_map b).
Proof.
  induction b as [|[k v] b IH]; intros acc za Wa Hw Hp.
  - cbn [fold_left sum_map]. now rewrite Z.add_0_r.
  - cbn [fold_left sum_map snd]. rewrite Z.add_assoc. apply IH.
    + apply whole_add; [assumption|apply (Hw k); now left|].
      specialize (Hp 1%nat). cbn [firstn sum_map] in Hp.
      change (firstn 0 b) with (@nil (string * float)) in Hp. cbn [sum_map] in Hp. lia.
    + intros k' v' H. apply (Hw k'). now right.
    + intros i. specialize (Hp (Datatypes.S i)). cbn [firstn sum_map] in Hp. lia.
Qed.

End Accounts64.

(** * The specification's claims about the running program *)

(** Expenses, balances and edges of the examples. *)
Definition spent (amount : float) (paidBy : string) (splitBetween : list string)
  : Expense.t float :=
  Expense.mk amount paidBy splitBetween.

(** The heap of the examples: the map [{ A: 50, B: -50 }] alone, and
    what one call of [simplifyDebts] on it leaves. *)
Definition example_heap : Heap.heap :=
  [Heap.object_of [("A", 50%float); ("B", (-50)%float)]].

Definition example_heap_after : Heap.heap :=
  [Heap.Obj [("A", Heap.Num 50); ("B", Heap.Num (-50))];
   Heap.Arr [Heap.Ref 4];
   Heap.Arr [Heap.Ref 3];
   Heap.Obj [("member", Heap.Str "A"); ("amount", Heap.Num 0)];
   Heap.Obj [("member", Heap.Str "B"); ("amount", Heap.Num 0)];
   Heap.Arr [Heap.Ref 6];
   Heap.Obj [("from", Heap.Str "B"); ("to", Heap.Str "A");
             ("amount", Heap.Num 50)]].


(** A map that sums to zero does not help where amounts are rounded:
    100 paid by A and split among a roster of seven gives six edges of
    14.29, and applying them leaves A about 0.0257 below zero. *)
Remark rounded_amounts_leave_residual :
  let nb := calculateNetBalances [spent 100 "A" []]
                                 ["A"; "B"; "C"; "D"; "E"; "F"; "G"] in
  exists edges v,
    simplifyDebts 7 nb = Some edges
    /\ get "A" (settle nb edges) = Some v
    /\ PrimFloat.ltb eps (PrimFloat.abs v) = true.
Proof. vm_compute. eexists _, _. repeat split. Qed.



(** The specification's first example on binary64: 300 paid by A for the
    roster [A, B, C] gives A: +200, B: -100, C: -100, the plan is B to A
    and C to A, 100 each, and applying it leaves every balance at zero. *)
Example settlement_example_on_binary64 :
  let nb := calculateNetBalances [spent 300 "A" []] ["A"; "B"; "C"] in
  nb = [("A", 200%float); ("B", (-100)%float); ("C", (-100)%float)]
  /\ simplifyDebts 3 nb
     = Some [Edge.mk "B" "A" 100%float; Edge.mk "C" "A" 100%float]
  /\ settle nb [Edge.mk "B" "A" 100%float; Edge.mk "C" "A" 100%float]
     = [("A", 0%float); ("B", 0%float); ("C", 0%float)].
Proof. vm_compute. repeat split. Qed.


(** On the roster the sum is still only near zero on binary64, and how
    near depends on the amounts: 1e17 paid by A and split three ways gives
    balances that sum to 8. *)
Remark balance_drift_on_binary64 :
  total (calculateNetBalances [spent 1e17 "A" ["A"; "B"; "C"]] ["A"; "B"; "C"])
  = 8%float.
Proof. vm_compute. reflexivity. Qed.

(** Nor is it enough that the shares are exact: [2^53] paid by A for B
    and then 1 paid by A for C leaves A at [2^53], and the balances sum
    to -1. *)
Remark balance_lost_beyond_2_53 :
  total (calculateNetBalances
           [spent 9007199254740992 "A" ["B"]; spent 1 "A" ["C"]] ["A"; "B"; "C"])
  = (-1)%float.
Proof. vm_compute. reflexivity. Qed.



(** C3: [simplifyDebts] is the algorithm of section 4.2: debtors below
    [-0.01] and creditors above [+0.01], debtors ascending and creditors
    descending by balance, and the greedy loop on the two heads that settles
    [min(|debtor|, creditor)], emits the rounded amount when it exceeds
    [0.01], adjusts both balances, drops a head once it is within [0.01] of
    zero and stops when a list is exhausted: for every map and every bound
    on the number of iterations the source and the specification's
    algorithm return the same thing. *)
Theorem simplifyDebts_is_greedy_matching (fuel : nat) (nb : Balances float) :
  simplifyDebts fuel nb = Spec.simplifyDebts fuel nb.
Proof. apply simplifyDebts_refines. Qed.

(** C4: one more transaction changes the balance under a roster key [k] as
    follows: the involved are [splitBetween] when it is not empty and the
    roster otherwise; the amount is added if [k] paid; then
    [amount / |involved|] is subtracted once for every time [k] is
    involved.  So a payer who is involved once ends at
    [(v + amount) - share].  On the roster [A, B], 100 paid by A for A and
    B gives A: +50, B: -50. *)
Theorem calculateNetBalances_per_transaction
    (expenses : list (Expense.t float)) (e : Expense.t float)
    (groupMembers : list string) (k : string) :
  let involved := involvedIds groupMembers e in
  let share := PrimFloat.div (Expense.amount e) (JS.of_length (length involved)) in
  involved = match Expense.splitBetween e with
             | [] => groupMembers
             | _ => Expense.splitBetween e
             end
  /\ get k (calculateNetBalances (expenses ++ [e]) groupMembers)
     = option_map
         (fun v =>
            Nat.iter (count_occ string_dec involved k)
              (fun w => PrimFloat.sub w share)
              (if String.eqb k (Expense.paidBy e)
               then PrimFloat.add v (Expense.amount e) else v))
         (get k (calculateNetBalances expenses groupMembers))
  /\ (k = Expense.paidBy e -> count_occ string_dec involved k = 1 ->
      forall v, get k (calculateNetBalances expenses groupMembers) = Some v ->
      get k (calculateNetBalances (expenses ++ [e]) groupMembers)
      = Some (PrimFloat.sub (PrimFloat.add v (Expense.amount e)) share))
  /\ calculateNetBalances [spent 100 "A" ["A"; "B"]] ["A"; "B"]
     = [("A", 50%float); ("B", (-50)%float)].
Proof.
  intros involved share.
  assert (Hget : get k (calculateNetBalances (expenses ++ [e]) groupMembers)
     = option_map
         (fun v =>
            Nat.iter (count_occ string_dec involved k)
              (fun w => PrimFloat.sub w share)
              (if String.eqb k (Expense.paidBy e)
               then PrimFloat.add v (Expense.amount e) else v))
         (get k (calculateNetBalances expenses groupMembers))).
  { rewrite calculateNetBalances_snoc.
    exact (get_process_expense groupMembers
             (calculateNetBalances expenses groupMembers) e k). }
  split; [|split; [|split]].
  - unfold involved, involvedIds. now destruct (Expense.splitBetween e).
  - exact Hget.
  - intros Hk Hone v Hv. rewrite Hget, Hv, Hone, Hk, String.eqb_refl. reflexivity.
  - vm_compute. reflexivity.
Qed.

Lemma calculateNetBalances_per_transaction_witness :
  get "A" (calculateNetBalances ([] ++ [spent 100 "A" ["A"; "B"]]) ["A"; "B"])
  = Some (PrimFloat.sub (PrimFloat.add 0 100) (PrimFloat.div 100 (JS.of_length 2))).
Proof.
  apply (calculateNetBalances_per_transaction [] (spent 100 "A" ["A"; "B"])
           ["A"; "B"] "A");
    vm_compute; reflexivity.
Defined.

(** C5, as stated, fails: an empty roster, a negative amount and a map that
    sums to 100 each get a result instead of a rejection. *)
Lemma invalid_input_is_accepted :
  ~ (forall (expenses : list (Expense.t float)) (groupMembers : list string)
            (fuel : nat),
        groupMembers = []
        \/ (exists e, In e expenses /\ PrimFloat.ltb 0 (Expense.amount e) = false) ->
        simplifyDebts fuel (calculateNetBalances expenses groupMembers) = None)
  /\ ~ (forall (nb : Balances float) (fuel : nat),
          PrimFloat.ltb eps (PrimFloat.abs (total nb)) = true ->
          simplifyDebts fuel nb = None).
Proof.
  split.
  - intros H. specialize (H [spent (-5) "A" []] [] 0%nat (or_introl eq_refl)).
    vm_compute in H. discriminate H.
  - intros H. specialize (H [("A", 100%float)] 1%nat eq_refl).
    vm_compute in H. discriminate H.
Qed.

(** C5 (as the code has it): nothing is validated and nothing rejected.
    With an empty roster [calculateNetBalances] returns the empty map for
    any transactions; a non-positive amount is accumulated like any other
    (here -5 paid by A for the roster [A, B]); and [simplifyDebts] returns
    an edge list for every map of finite balances, whether or not they sum
    near zero. *)
Theorem engine_rejects_nothing :
  (forall expenses : list (Expense.t float), calculateNetBalances expenses [] = [])
  /\ calculateNetBalances [spent (-5) "A" []] ["A"; "B"]
     = [("A", (-2.5)%float); ("B", 2.5%float)]
  /\ (forall nb : Balances float,
         all_finite nb ->
         exists edges, simplifyDebts (length nb) nb = Some edges).
Proof.
  split; [|split].
  - intros expenses.
    destruct (calculateNetBalances expenses []) as [|[k v] b] eqn:E; [reflexivity|].
    exfalso. apply (In_keys_calculateNetBalances expenses [] k).
    rewrite E. now left.
  - vm_compute. reflexivity.
  - apply returns_on_finite.
Qed.

Lemma engine_rejects_nothing_witness :
  exists edges, simplifyDebts 1 [("A", 100%float)] = Some edges.
Proof.
  refine (proj2 (proj2 engine_rejects_nothing) [("A", 100%float)] _).
  repeat constructor.
Defined.

(** C6: [simplifyDebts] is deterministic and leaves its argument alone.
    On the heap, called on a reference to an object that holds a balance
    map: if the call returns, every object and array that was there
    before is as it was, the map among them; and a second call on the
    same reference, in the heap the first one left and with at least the
    same bound on the iterations, returns too, leaves everything as it
    was again, the array of the first call included, and its array holds
    the same settlements as that of the first: those that [simplifyDebts]
    of the map gives. *)
Theorem simplifyDebts_deterministic
    (h : Heap.heap) (netBalances : nat) (nb : Balances float)
    (fuel : nat) (results1 : Heap.value) (h1 : Heap.heap) :
  h !! netBalances = Some (Heap.object_of nb) ->
  Heap.simplifyDebts fuel (Heap.Ref netBalances) h = Some (results1, h1) ->
  h1 !! netBalances = Some (Heap.object_of nb)
  /\ (forall l c, h !! l = Some c -> h1 !! l = Some c)
  /\ forall fuel2, fuel <= fuel2 ->
      exists results2 h2 edges,
        Heap.simplifyDebts fuel2 (Heap.Ref netBalances) h1 = Some (results2, h2)
        /\ h2 !! netBalances = Some (Heap.object_of nb)
        /\ (forall l c, h1 !! l = Some c -> h2 !! l = Some c)
        /\ Heap.edges_at h1 results1 = Some edges
        /\ Heap.edges_at h2 results1 = Some edges
        /\ Heap.edges_at h2 results2 = Some edges
        /\ simplifyDebts fuel nb = Some edges.
Proof.
  intros Hl Hrun.
  pose proof (simplifyDebts_on_heap fuel h netBalances nb Hl) as R1.
  rewrite Hrun in R1. destruct R1 as (T1 & edges & P1 & E1).
  pose proof (extends_lookup _ _ T1) as F1.
  pose proof (F1 _ _ Hl) as Hl1.
  split; [assumption|]. split; [assumption|]. intros fuel2 Hle.
  assert (P2 : simplifyDebts fuel2 nb = Some edges).
  { apply simplifyDebts_while in P1 as (st & W & <-).
    apply simplifyDebts_while. exists st. split; [|reflexivity].
    eapply while_more_fuel; eassumption. }
  pose proof (simplifyDebts_on_heap fuel2 h1 netBalances nb Hl1) as R2.
  destruct (Heap.simplifyDebts fuel2 (Heap.Ref netBalances) h1)
    as [[results2 h2]|]; [|congruence].
  destruct R2 as (T2 & edges2 & P2' & E2).
  assert (edges2 = edges) by congruence. subst edges2.
  pose proof (extends_lookup _ _ T2) as F2.
  exists results2, h2, edges. split; [reflexivity|].
  split; [now apply F2|]. split; [assumption|]. split; [assumption|].
  split; [now apply (edges_at_extends h1 h2)|]. split; assumption.
Qed.

Lemma simplifyDebts_deterministic_witness :
  example_heap_after !! 0 = Some (Heap.object_of [("A", 50%float); ("B", (-50)%float)])
  /\ (forall l c, example_heap !! l = Some c -> example_heap_after !! l = Some c)
  /\ forall fuel2, 1 <= fuel2 ->
      exists results2 h2 edges,
        Heap.simplifyDebts fuel2 (Heap.Ref 0) example_heap_after
        = Some (results2, h2)
        /\ h2 !! 0 = Some (Heap.object_of [("A", 50%float); ("B", (-50)%float)])
        /\ (forall l c, example_heap_after !! l = Some c -> h2 !! l = Some c)
        /\ Heap.edges_at example_heap_after (Heap.Ref 5) = Some edges
        /\ Heap.edges_at h2 (Heap.Ref 5) = Some edges
        /\ Heap.edges_at h2 results2 = Some edges
        /\ simplifyDebts 1 [("A", 50%float); ("B", (-50)%float)] = Some edges.
Proof.
  apply (simplifyDebts_deterministic example_heap 0
           [("A", 50%float); ("B", (-50)%float)] 1 (Heap.Ref 5) example_heap_after);
    vm_compute; reflexivity.
Defined.

(** C7, as stated, fails: with no expenses on the roster [A, B] every
    balance is zero, there is no debtor and no creditor, the plan is
    empty, and the number of its edges, zero, is not at most
    [0 + 0 - 1]. *)
Lemma edge_count_bound_negative :
  ~ (forall (nb : Balances float) (fuel : nat) (edges : list (Edge.t float)),
        simplifyDebts fuel nb = Some edges ->
        (Z.of_nat (length edges)
         <= Z.of_nat (length (Spec.debtors nb))
            + Z.of_nat (length (Spec.creditors nb)) - 1)%Z).
Proof.
  intros H.
  specialize (H (calculateNetBalances [] ["A"; "B"]) 0%nat [] eq_refl).
  vm_compute in H. now apply H.
Qed.

(** C7 (as the code has it): the number of edges [simplifyDebts] returns
    is at most the number of debtors plus the number of creditors minus
    one where that is not negative, and zero otherwise, whatever the map;
    and on a map of finite balances it does return. *)
Theorem simplifyDebts_edge_count (nb : Balances float) :
  (forall fuel edges,
      simplifyDebts fuel nb = Some edges ->
      (Z.of_nat (length edges)
       <= Z.max 0 (Z.of_nat (length (Spec.debtors nb))
                   + Z.of_nat (length (Spec.creditors nb)) - 1))%Z)
  /\ (all_finite nb ->
      exists edges,
        simplifyDebts (length nb) nb = Some edges
        /\ (Z.of_nat (length edges)
            <= Z.max 0 (Z.of_nat (length (Spec.debtors nb))
                        + Z.of_nat (length (Spec.creditors nb)) - 1))%Z).
Proof.
  assert (Hcount : forall fuel edges,
             simplifyDebts fuel nb = Some edges ->
             (Z.of_nat (length edges)
              <= Z.max 0 (Z.of_nat (length (Spec.debtors nb))
                          + Z.of_nat (length (Spec.creditors nb)) - 1))%Z).
  { intros fuel edges H. pose proof (returned_edge_count nb fuel edges H). lia. }
  split; [exact Hcount|].
  intros Hfin. destruct (returns_on_finite nb Hfin) as [edges H].
  exists edges. split; [assumption|]. eapply Hcount; eassumption.
Qed.

Lemma simplifyDebts_edge_count_witness :
  exists edges,
    simplifyDebts 3 [("A", 200%float); ("B", (-100)%float); ("C", (-100)%float)]
    = Some edges
    /\ (Z.of_nat (length edges) <= Z.max 0 (2 + 1 - 1))%Z.
Proof.
  refine (proj2 (simplifyDebts_edge_count
                   [("A", 200%float); ("B", (-100)%float); ("C", (-100)%float)]) _).
  repeat constructor.
Defined.

(** C8: no edge goes from a participant to the same participant: a key of
    the map is a giver or a receiver, never both.  This holds of the edges
    pushed after any number of iterations, hence of those returned. *)
Theorem simplifyDebts_no_self_edges (nb : Balances float) :
  List.NoDup (keys nb) ->
  (forall n, List.Forall no_self_edge (results (Nat.iter n step (initial nb))))
  /\ (forall fuel edges,
         simplifyDebts fuel nb = Some edges -> List.Forall no_self_edge edges).
Proof.
  intros Hnd. split.
  - intros n. now apply no_self_edges_iter.
  - intros fuel edges H. apply simplifyDebts_while in H as (st & H & <-).
    apply while_iter in H as [n ->]. now apply no_self_edges_iter.
Qed.

Lemma simplifyDebts_no_self_edges_witness :
  List.Forall no_self_edge [Edge.mk "B" "A" 50%float].
Proof.
  refine (proj2 (simplifyDebts_no_self_edges
                   [("A", 50%float); ("B", (-50)%float)] _) 1 _ _).
  - repeat constructor; simpl; intuition discriminate.
  - vm_compute. reflexivity.
Defined.

(** C9: on a map of finite balances the matching loop terminates.  In
    every iteration the amount settled is the smaller of the two
    magnitudes, the entry it belongs to becomes exactly [+0], and the
    index of that entry moves on; so the loop is over within
    [|givers| + |receivers|] iterations. *)
Theorem matching_loop_terminates (nb : Balances float) :
  all_finite nb ->
  (forall n,
      let st := Nat.iter n step (initial nb) in
      running st = true -> advances st (step st))
  /\ exists st,
      while (length (givers (initial nb)) + length (receivers (initial nb)))
            (initial nb) = Some st.
Proof.
  intros Hfin. pose proof (initial_matching_inv nb Hfin) as Hinv. split.
  - intros n st Hrun.
    apply (step_matching_inv st); [|assumption].
    unfold st. now apply iter_invariant; [intros s Hs; apply step_matching_inv|].
  - apply while_total; [assumption|].
    unfold remaining. rewrite giverIdx_initial, receiverIdx_initial. lia.
Qed.

Lemma matching_loop_terminates_witness :
  exists st,
    while (length (givers (initial [("A", 50%float); ("B", (-50)%float)]))
           + length (receivers (initial [("A", 50%float); ("B", (-50)%float)])))
          (initial [("A", 50%float); ("B", (-50)%float)]) = Some st.
Proof.
  refine (proj2 (matching_loop_terminates [("A", 50%float); ("B", (-50)%float)] _)).
  repeat constructor.
Defined.

(** Outside the data model: with [-Infinity] and [+Infinity] as balances
    the first iteration turns both into NaN, after which no test of the
    loop succeeds and no index moves: no bound on the number of iterations
    is enough. *)
Remark infinite_balances_never_settle (fuel : nat) :
  simplifyDebts fuel [("A", neg_infinity); ("B", infinity)] = None.
Proof.
  unfold simplifyDebts.
  set (st0 := initial [("A", neg_infinity); ("B", infinity)]).
  assert (Hrun0 : running st0 = true) by (vm_compute; reflexivity).
  assert (Hrun1 : running (step st0) = true) by (vm_compute; reflexivity).
  assert (Hfix : step (step st0) = step st0) by (vm_compute; reflexivity).
  assert (Hloop : forall f, while f (step st0) = None).
  { induction f as [|f IH]; rewrite while_unfold, Hrun1; [reflexivity|].
    now rewrite Hfix. }
  rewrite while_unfold, Hrun0. destruct fuel as [|fuel]; [reflexivity|].
  now rewrite Hloop.
Qed.

(** C10: the keys of the map [calculateNetBalances] returns are the
    roster, each once; a transaction whose payer and involved are all off
    the roster leaves no trace; and the credit of an off-roster payer is
    dropped: on the roster [A, B, C], 100 paid by Z for A debits A and
    credits nobody. *)
Theorem calculateNetBalances_keys_are_roster
    (expenses : list (Expense.t float)) (groupMembers : list string) :
  (forall k, In k (keys (calculateNetBalances expenses groupMembers))
             <-> In k groupMembers)
  /\ List.NoDup (keys (calculateNetBalances expenses groupMembers))
  /\ (forall e,
         ~ In (Expense.paidBy e) groupMembers ->
         (forall id, In id (involvedIds groupMembers e) -> ~ In id groupMembers) ->
         calculateNetBalances (expenses ++ [e]) groupMembers
         = calculateNetBalances expenses groupMembers)
  /\ calculateNetBalances [spent 100 "Z" ["A"]] ["A"; "B"; "C"]
     = [("A", (-100)%float); ("B", 0%float); ("C", 0%float)].
Proof.
  split; [|split; [|split]].
  - intros k. apply In_keys_calculateNetBalances.
  - apply NoDup_keys_calculateNetBalances.
  - intros e Hp Hi. rewrite calculateNetBalances_snoc.
    apply process_expense_off_roster.
    + now rewrite In_keys_calculateNetBalances.
    + intros id Hid. rewrite In_keys_calculateNetBalances. now apply Hi.
  - vm_compute. reflexivity.
Qed.

(** * Further properties of the two functions

    What follows is not stated by the specification; it is read off the
    code of [calculateNetBalances] and [simplifyDebts]
    ([server/utils/graphAlgo.js]) and of the recomputation that
    [server/routes/expenseRoutes.js] runs after every change,
    [simplifyDebts(calculateNetBalances(allExpenses, members))]. *)

Section Further.
Import Binary64 Order64 Whole64 Shares64.
Implicit Types (nb : Balances float).

(** X1: every edge of a returned plan goes from a key whose balance is
    below [-0.01] to a key whose balance is above [0.01]. *)
Theorem edges_go_from_debtors_to_creditors
    (nb : Balances float) (fuel : nat) (edges : list (Edge.t float)) :
  simplifyDebts fuel nb = Some edges ->
  List.Forall
    (fun e => (exists v, In (Edge.from e, v) nb /\ PrimFloat.ltb v neg_eps = true)
              /\ (exists w, In (Edge.to e, w) nb /\ PrimFloat.ltb eps w = true))
    edges.
Proof.
  intros H. apply returned_edges_classified in H.
  eapply List.Forall_impl; [|exact H]. cbv beta. intros e [Hf Ht]. split.
  - now apply In_members_givers_initial in Hf.
  - now apply In_members_receivers_initial in Ht.
Qed.

Lemma edges_go_from_debtors_to_creditors_witness :
  List.Forall
    (fun e => (exists v, In (Edge.from e, v)
                            [("A", 200%float); ("B", (-100)%float); ("C", (-100)%float)]
                         /\ PrimFloat.ltb v neg_eps = true)
              /\ (exists w, In (Edge.to e, w)
                              [("A", 200%float); ("B", (-100)%float); ("C", (-100)%float)]
                            /\ PrimFloat.ltb eps w = true))
    [Edge.mk "B" "A" 100%float; Edge.mk "C" "A" 100%float].
Proof.
  apply (edges_go_from_debtors_to_creditors
           [("A", 200%float); ("B", (-100)%float); ("C", (-100)%float)] 3).
  vm_compute. reflexivity.
Defined.

(** X2: in a returned plan nobody both pays and receives: the payer of an
    edge is never the payee of an edge, the same or another. *)
Theorem nobody_pays_and_receives
    (nb : Balances float) (fuel : nat) (edges : list (Edge.t float)) :
  List.NoDup (keys nb) ->
  simplifyDebts fuel nb = Some edges ->
  forall e1 e2, In e1 edges -> In e2 edges -> Edge.from e1 <> Edge.to e2.
Proof.
  intros Hnd H e1 e2 H1 H2 E. apply returned_edges_classified in H.
  rewrite List.Forall_forall in H.
  destruct (H _ H1) as [Hf _]. destruct (H _ H2) as [_ Ht].
  rewrite E in Hf. exact (initial_disjoint nb _ Hnd Hf Ht).
Qed.

Lemma nobody_pays_and_receives_witness :
  Edge.from (Edge.mk "B" "A" 100%float) <> Edge.to (Edge.mk "C" "A" 100%float).
Proof.
  apply (nobody_pays_and_receives
           [("A", 200%float); ("B", (-100)%float); ("C", (-100)%float)] 3
           [Edge.mk "B" "A" 100%float; Edge.mk "C" "A" 100%float]).
  - repeat constructor; simpl; intuition discriminate.
  - vm_compute. reflexivity.
  - now left.
  - right. now left.
Defined.

(** X3: a returned plan holds at most one edge for any pair of payer and
    payee: the loop leaves a giver or a receiver behind in every iteration,
    so it never stands at the same two again. *)
Theorem at_most_one_edge_per_pair
    (nb : Balances float) (fuel : nat) (edges : list (Edge.t float)) :
  List.NoDup (keys nb) ->
  simplifyDebts fuel nb = Some edges ->
  List.NoDup (map (fun e => (Edge.from e, Edge.to e)) edges).
Proof.
  intros Hnd H. apply simplifyDebts_while in H as (st & H & <-).
  apply (while_invariant pairing) in H.
  - destruct H as [[Hstuck|[_ (_ & _ & Hp & _)]] Hrun]; [|exact Hp].
    apply stuck_running in Hstuck. congruence.
  - apply step_pairing.
  - right. split; [apply initial_signs_kept|now apply initial_pairs_inv].
Qed.

Lemma at_most_one_edge_per_pair_witness :
  List.NoDup (map (fun e : Edge.t float => (Edge.from e, Edge.to e))
                  [Edge.mk "C" "D" 60%float; Edge.mk "C" "A" 10%float;
                   Edge.mk "B" "A" 20%float]).
Proof.
  apply (at_most_one_edge_per_pair
           [("A", 30%float); ("B", (-20)%float); ("C", (-70)%float); ("D", 60%float)]
           4).
  - repeat constructor; simpl; intuition discriminate.
  - vm_compute. reflexivity.
Defined.

(** X4: the plan is empty exactly when there is nothing to match: with no
    balance below [-0.01] or none above [0.01] the loop body never runs and
    the plan is empty for any bound, and with at least one of each the
    first iteration already emits an edge. *)
Theorem plan_is_empty_iff_nothing_to_match (nb : Balances float) :
  (Spec.debtors nb = [] \/ Spec.creditors nb = [] ->
   forall fuel, simplifyDebts fuel nb = Some [])
  /\ (forall fuel, simplifyDebts fuel nb = Some [] ->
                   Spec.debtors nb = [] \/ Spec.creditors nb = []).
Proof.
  split.
  - rewrite debtors_givers, creditors_receivers.
    intros H fuel. now apply nothing_to_match.
  - intros fuel H. rewrite debtors_givers, creditors_receivers.
    destruct (givers (initial nb)) as [|g gs] eqn:Eg; [now left|].
    destruct (receivers (initial nb)) as [|r rs] eqn:Er; [now right|].
    destruct (first_edge nb g gs r rs fuel [] Eg Er H) as [rest Hrest].
    discriminate Hrest.
Qed.

Lemma plan_is_empty_iff_nothing_to_match_witness :
  simplifyDebts 0 [("A", 0.005%float); ("B", 70%float)] = Some [].
Proof.
  apply (proj1 (plan_is_empty_iff_nothing_to_match
                  [("A", 0.005%float); ("B", 70%float)])).
  left. vm_compute. reflexivity.
Defined.

(** X5: the first edge of a plan goes from the largest debtor to the
    largest creditor: no balance in the map is below its payer's and none
    is above its payee's. *)
Theorem first_edge_joins_the_extremes
    (nb : Balances float) (fuel : nat) (e : Edge.t float)
    (edges : list (Edge.t float)) :
  simplifyDebts fuel nb = Some (e :: edges) ->
  exists v w,
    In (Edge.from e, v) nb /\ In (Edge.to e, w) nb
    /\ (forall k x, In (k, x) nb -> PrimFloat.ltb x v = false)
    /\ (forall k x, In (k, x) nb -> PrimFloat.ltb w x = false).
Proof.
  intros H.
  destruct (givers (initial nb)) as [|g gs] eqn:Eg.
  { rewrite nothing_to_match in H by (left; assumption). discriminate H. }
  destruct (receivers (initial nb)) as [|r rs] eqn:Er.
  { rewrite nothing_to_match in H by (right; assumption). discriminate H. }
  destruct (first_edge nb g gs r rs fuel _ Eg Er H) as [rest [= -> _]].
  cbn [Edge.from Edge.to].
  assert (Ig : In g (givers (initial nb))) by (rewrite Eg; now left).
  assert (Ir : In r (receivers (initial nb))) by (rewrite Er; now left).
  apply In_givers_initial in Ig as [Ig Hg].
  apply In_receivers_initial in Ir as [Ir Hr].
  apply andb_true_iff in Hr as [_ Hr]. unfold is_giver in Hg. cbn [snd] in Hg, Hr.
  cbn [ltb eps neg_eps binary64] in Hg, Hr.
  apply ltb_place in Hg as (Ng & _ & Hg). apply ltb_place in Hr as (_ & Nr & Hr).
  rewrite givers_initial in Eg. rewrite receivers_initial in Er.
  exists (Entry.amount g), (Entry.amount r). split; [assumption|]. split; [assumption|].
  split; intros k x Hx.
  - destruct (PrimFloat.ltb x (Entry.amount g)) eqn:E; [exfalso|reflexivity].
    apply ltb_place in E as (Nx & _ & E).
    destruct (is_giver (k, x)) eqn:Gx.
    + pose proof (sort_ascending_least _ g gs (numbers_givers nb) Eg
                    (Spec.entry (k, x))) as Hle.
      cbn [Spec.entry Entry.amount snd] in Hle.
      assert (place (Entry.amount g) <= place x)%Z; [|lia].
      apply Hle. apply in_map. apply List.filter_In. now split.
    + unfold is_giver in Gx. cbn [snd ltb neg_eps binary64] in Gx.
      apply ltb_false_place in Gx; [lia|assumption|reflexivity].
  - destruct (PrimFloat.ltb (Entry.amount r) x) eqn:E; [exfalso|reflexivity].
    apply ltb_place in E as (_ & Nx & E).
    destruct (is_receiver (k, x)) eqn:Rx.
    + pose proof (sort_descending_greatest _ r rs (numbers_receivers nb) Er
                    (Spec.entry (k, x))) as Hle.
      cbn [Spec.entry Entry.amount snd] in Hle.
      assert (place x <= place (Entry.amount r))%Z; [|lia].
      apply Hle. apply in_map. apply List.filter_In. now split.
    + rewrite is_receiver_creditor in Rx. cbn [snd ltb eps binary64] in Rx.
      apply ltb_false_place in Rx; [lia|reflexivity|assumption].
Qed.

Lemma first_edge_joins_the_extremes_witness :
  exists v w,
    In ("C", v) [("A", 30%float); ("B", (-20)%float); ("C", (-70)%float); ("D", 60%float)]
    /\ In ("D", w) [("A", 30%float); ("B", (-20)%float); ("C", (-70)%float); ("D", 60%float)]
    /\ (forall k x,
           In (k, x) [("A", 30%float); ("B", (-20)%float); ("C", (-70)%float); ("D", 60%float)] ->
           PrimFloat.ltb x v = false)
    /\ (forall k x,
           In (k, x) [("A", 30%float); ("B", (-20)%float); ("C", (-70)%float); ("D", 60%float)] ->
           PrimFloat.ltb w x = false).
Proof.
  apply (first_edge_joins_the_extremes
           [("A", 30%float); ("B", (-20)%float); ("C", (-70)%float); ("D", 60%float)]
           4 (Edge.mk "C" "D" 60%float)
           [Edge.mk "C" "A" 10%float; Edge.mk "B" "A" 20%float]).
  vm_compute. reflexivity.
Defined.

(** X6: ties are broken by the order of the map: of the debtors with one
    and the same balance, and of the creditors with one and the same
    balance, the loop meets first the one whose key comes first. *)
Theorem equal_balances_keep_map_order (nb : Balances float) (v : float) :
  List.filter (has_amount v) (givers (initial nb))
  = map Spec.entry
      (List.filter (fun kv => PrimFloat.ltb (snd kv) neg_eps
                              && PrimFloat.eqb (snd kv) v) nb)
  /\ List.filter (has_amount v) (receivers (initial nb))
     = map Spec.entry
         (List.filter (fun kv => PrimFloat.ltb eps (snd kv)
                                 && PrimFloat.eqb (snd kv) v) nb).
Proof.
  rewrite givers_initial, receivers_initial. split.
  - rewrite (filter_sort (fun a b => PrimFloat.ltb a b)).
    + rewrite filter_map_comm, filter_filter_andb. reflexivity.
    + intros a b. unfold ascending. apply difference_positive.
    + intros a b. cbv beta. apply ltb_not_eqb.
  - rewrite (filter_sort (fun a b => PrimFloat.ltb b a)).
    + rewrite filter_map_comm, filter_filter_andb. f_equal.
      apply List.filter_ext. intros kv. now rewrite is_receiver_creditor.
    + intros a b. unfold descending. apply difference_positive.
    + intros a b. cbv beta. apply gtb_not_eqb.
Qed.

(** X7: every edge carries at least [0.01]: an amount is emitted only
    when it is above [0.01], and rounding it to two decimals does not take
    it below.  This holds of the edges pushed after any number of
    iterations, hence of those returned. *)
Theorem emitted_amounts_at_least_eps (nb : Balances float) :
  (forall n, List.Forall (fun e => PrimFloat.leb eps (Edge.amount e) = true)
                         (results (Nat.iter n step (initial nb))))
  /\ (forall fuel edges,
         simplifyDebts fuel nb = Some edges ->
         List.Forall (fun e => PrimFloat.leb eps (Edge.amount e) = true) edges).
Proof.
  assert (H : forall n, amounts_inv (Nat.iter n step (initial nb))).
  { intros n. apply iter_invariant; [apply step_amounts_inv|].
    unfold amounts_inv. rewrite results_initial. constructor. }
  split; [exact H|].
  intros fuel edges Hs. apply simplifyDebts_while in Hs as (st & Hs & <-).
  apply while_iter in Hs as [n ->]. apply H.
Qed.

Lemma emitted_amounts_at_least_eps_witness :
  List.Forall (fun e => PrimFloat.leb eps (Edge.amount e) = true)
              [Edge.mk "B" "A" 0.01%float].
Proof.
  apply (proj2 (emitted_amounts_at_least_eps
                  [("A", 0.015%float); ("B", (-0.015)%float)]) 1).
  vm_compute. reflexivity.
Defined.

(** X8: balances within the tolerance do not influence the plan: removing
    every entry that is neither below [-0.01] nor above [0.01] (zero, a
    cent, NaN) from the map gives the same result, for every bound. *)
Theorem settled_entries_are_ignored (nb : Balances float) (fuel : nat) :
  simplifyDebts fuel nb
  = simplifyDebts fuel
      (List.filter (fun kv => PrimFloat.ltb (snd kv) neg_eps
                              || PrimFloat.ltb eps (snd kv)) nb).
Proof.
  rewrite !simplifyDebts_refines. unfold Spec.simplifyDebts, Spec.debtors, Spec.creditors.
  cbn [ltb eps neg_eps binary64].
  rewrite !filter_filter_implied; [reflexivity| |].
  - intros kv ->. apply orb_true_r.
  - intros kv ->. reflexivity.
Qed.

(** X9: a map that holds both [-Infinity] and [+Infinity] is never
    settled: the two are matched first, both become NaN, and from then on
    no test of the loop succeeds; no bound on the number of iterations is
    enough.  Finite amounts suffice to get there: on the roster [A, B],
    three expenses of 1.7e308 paid by A and split between both overflow
    A's balance to [+Infinity] and B's to [-Infinity]. *)
Theorem both_infinities_never_settle (nb : Balances float) :
  (exists k, In (k, neg_infinity) nb) ->
  (exists k, In (k, infinity) nb) ->
  forall fuel, simplifyDebts fuel nb = None.
Proof.
  intros [kg Hg] [kr Hr] fuel.
  destruct (infinite_heads nb kg kr Hg Hr) as (g & gs & r & rs & Eg & Er & Ag & Ar).
  assert (Lg : givers (initial nb) !! giverIdx (initial nb) = Some g)
    by (now rewrite giverIdx_initial, Eg).
  assert (Lr : receivers (initial nb) !! receiverIdx (initial nb) = Some r)
    by (now rewrite receiverIdx_initial, Er).
  pose proof (step_infinite _ g r Lg Lr Ag Ar) as Hstuck.
  assert (Hrun : running (initial nb) = true) by (apply running_lookup; eauto).
  unfold simplifyDebts. rewrite while_unfold, Hrun.
  destruct fuel as [|fuel]; [reflexivity|]. now rewrite stuck_forever.
Qed.

Lemma both_infinities_never_settle_witness :
  simplifyDebts 1000
    (calculateNetBalances
       [Expense.mk 1.7e308%float "A" []; Expense.mk 1.7e308%float "A" [];
        Expense.mk 1.7e308%float "A" []]
       ["A"; "B"]) = None.
Proof.
  apply (both_infinities_never_settle
           (calculateNetBalances
              [Expense.mk 1.7e308%float "A" []; Expense.mk 1.7e308%float "A" [];
               Expense.mk 1.7e308%float "A" []]
              ["A"; "B"])).
  - exists "B". vm_compute. right. left. reflexivity.
  - exists "A". vm_compute. left. reflexivity.
Defined.

(** X10: on a roster without duplicates the keys of the balance map are
    the roster, in the roster's order; this is the order [simplifyDebts]
    enumerates the entries in. *)
Theorem balances_keep_roster_order
    (expenses : list (Expense.t float)) (groupMembers : list string) :
  List.NoDup groupMembers ->
  keys (calculateNetBalances expenses groupMembers) = groupMembers.
Proof. apply keys_calculateNetBalances_NoDup. Qed.

Lemma balances_keep_roster_order_witness :
  keys (calculateNetBalances [Expense.mk 300%float "A" []] ["C"; "A"; "B"])
  = ["C"; "A"; "B"].
Proof.
  apply (balances_keep_roster_order [Expense.mk 300%float "A" []] ["C"; "A"; "B"]).
  repeat constructor; simpl; intuition discriminate.
Defined.

(** X11: with no expenses every balance is zero and the plan is empty,
    whatever the roster. *)
Theorem no_expenses_no_debts (groupMembers : list string) (fuel : nat) :
  (forall k v, In (k, v) (calculateNetBalances (num := float) [] groupMembers) ->
               v = PrimFloat.zero)
  /\ simplifyDebts fuel (calculateNetBalances (num := float) [] groupMembers)
     = Some [].
Proof.
  assert (Hz : forall k v,
             In (k, v) (calculateNetBalances (num:=float) [] groupMembers) ->
             v = PrimFloat.zero).
  { intros k v H. exact (init_balances_zero groupMembers k v H). }
  split; [exact Hz|].
  apply nothing_to_match. left. rewrite givers_initial.
  rewrite filter_none; [reflexivity|].
  intros [k v] H. apply Hz in H. subst v. reflexivity.
Qed.

(** X12: a group of one member never has debts: whatever the expenses, the
    plan for a roster of one is empty. *)
Theorem single_member_no_debts
    (expenses : list (Expense.t float)) (m : string) (fuel : nat) :
  simplifyDebts fuel (calculateNetBalances expenses [m]) = Some [].
Proof.
  pose proof (keys_calculateNetBalances_NoDup expenses [m]) as Hk.
  assert (Hnd : List.NoDup [m]) by (constructor; [intros []|constructor]).
  specialize (Hk Hnd).
  destruct (calculateNetBalances expenses [m]) as [|[k v] [|kv nb]];
    try discriminate Hk.
  apply nothing_to_match. rewrite givers_initial, receivers_initial.
  cbn [List.filter]. destruct (is_giver (k, v)) eqn:E.
  - right. now rewrite (giver_not_receiver _ E).
  - now left.
Qed.

(** X13: the plan stored for a group names members only: both ends of every
    edge computed from the group's expenses are on the roster, also when
    expenses name people who are not. *)
Theorem plan_names_only_members
    (expenses : list (Expense.t float)) (groupMembers : list string)
    (fuel : nat) (edges : list (Edge.t float)) :
  simplifyDebts fuel (calculateNetBalances expenses groupMembers) = Some edges ->
  List.Forall (fun e => In (Edge.from e) groupMembers
                        /\ In (Edge.to e) groupMembers) edges.
Proof.
  intros H. apply returned_edges_classified in H.
  eapply List.Forall_impl; [|exact H]. cbv beta. intros e [Hf Ht].
  apply In_members_givers_initial in Hf as (v & Hv & _).
  apply In_members_receivers_initial in Ht as (w & Hw & _).
  apply (in_map fst) in Hv, Hw. cbn [fst] in Hv, Hw.
  split; now apply (In_keys_calculateNetBalances expenses groupMembers).
Qed.

Lemma plan_names_only_members_witness :
  List.Forall (fun e => In (Edge.from e) ["A"; "B"] /\ In (Edge.to e) ["A"; "B"])
              [Edge.mk "A" "B" 30%float].
Proof.
  apply (plan_names_only_members
           [Expense.mk 100%float "Z" ["A"; "Y"]; Expense.mk 30%float "B" ["X"]]
           ["A"; "B"] 1).
  vm_compute. reflexivity.
Defined.

(** X14: whole-number balances are settled exactly.  For a map with
    distinct keys whose balances are integers of magnitude at most [2^53]
    that add up to zero, [simplifyDebts] returns a plan, and applying its
    edges (the payer's balance plus the amount, the payee's minus the
    amount, on binary64) leaves every balance at zero. *)
Theorem settlement_correct_on_whole_numbers (zb : list (string * Z)) :
  List.NoDup (map fst zb) ->
  (forall k z, In (k, z) zb -> (- 2 ^ 53 <= z <= 2 ^ 53)%Z) ->
  fold_right Z.add 0%Z (map snd zb) = 0%Z ->
  exists edges,
    simplifyDebts (length zb) (whole_balances zb) = Some edges
    /\ forall k v, get k (settle (whole_balances zb) edges) = Some v ->
                   PrimFloat.eqb v 0 = true.
Proof.
  intros Hnd Hb Hsum.
  destruct (whole_map_whole_balances zb Hb) as [Hw Hs].
  destruct (settles_on_whole_map (whole_balances zb)) as (edges & He & Hz).
  - now rewrite keys_whole_balances.
  - assumption.
  - now rewrite Hs.
  - exists edges. split; [|exact Hz].
    unfold whole_balances in He at 1. rewrite length_map in He. exact He.
Qed.

Lemma settlement_correct_on_whole_numbers_witness :
  exists edges,
    simplifyDebts 3 (whole_balances [("A", 200%Z); ("B", (-100)%Z); ("C", (-100)%Z)])
    = Some edges
    /\ forall k v,
        get k (settle (whole_balances [("A", 200%Z); ("B", (-100)%Z); ("C", (-100)%Z)])
                      edges) = Some v ->
        PrimFloat.eqb v 0 = true.
Proof.
  apply (settlement_correct_on_whole_numbers
           [("A", 200%Z); ("B", (-100)%Z); ("C", (-100)%Z)]).
  - repeat constructor; simpl; intuition discriminate.
  - intros k z [[= <- <-]|[[= <- <-]|[[= <- <-]|[]]]];
      change (2 ^ 53)%Z with 9007199254740992%Z; lia.
  - reflexivity.
Defined.

(** X15: whole amounts that split evenly are conserved exactly.  When
    every amount is a positive integer, paid by a member for members whose
    number divides it, and the amounts add up to at most [2^53], the
    balances [calculateNetBalances] returns add up, in binary64 and in key
    order, to exactly zero. *)
Theorem even_splits_conserve_money
    (zes : list (Expense.t Z)) (groupMembers : list string) :
  List.Forall (evenly_split groupMembers) zes ->
  (total_amount zes <= 2 ^ 53)%Z ->
  PrimFloat.eqb (total (calculateNetBalances (map to_binary64 zes) groupMembers)) 0
  = true.
Proof.
  intros Hes Hb.
  destruct (accounts_calculateNetBalances groupMembers zes Hes Hb)
    as (Hw & _ & Hp & Hs).
  apply whole_eqb_zero.
  pose proof (total_from_whole _ PrimFloat.zero 0%Z whole_zero Hw) as Ht.
  rewrite Hs in Ht. apply Ht.
  intros i. specialize (Hp i). lia.
Qed.

Lemma even_splits_conserve_money_witness :
  PrimFloat.eqb
    (total (calculateNetBalances
              (map to_binary64 [Expense.mk 300%Z "A" []; Expense.mk 100%Z "B" ["A"; "B"]])
              ["A"; "B"; "C"])) 0 = true.
Proof.
  apply (even_splits_conserve_money
           [Expense.mk 300%Z "A" []; Expense.mk 100%Z "B" ["A"; "B"]]
           ["A"; "B"; "C"]).
  - constructor; [|constructor; [|constructor]].
    + unfold evenly_split. cbn. split; [lia|]. split; [tauto|].
      split; [intros id []|]. exists 100%Z. reflexivity.
    + unfold evenly_split. cbn. split; [lia|]. split; [tauto|].
      split; [intros id; tauto|]. exists 50%Z. reflexivity.
  - cbn. change (2 ^ 53)%Z with 9007199254740992%Z. lia.
Defined.

(** X16: the recomputation settles whole amounts that split evenly.
    Under the conditions of X15 the plan computed from the balances is
    returned, and applying its edges to the balances leaves every member
    at zero. *)
Theorem even_splits_are_settled
    (zes : list (Expense.t Z)) (groupMembers : list string) :
  List.Forall (evenly_split groupMembers) zes ->
  (total_amount zes <= 2 ^ 53)%Z ->
  exists edges,
    simplifyDebts
      (length (calculateNetBalances (map to_binary64 zes) groupMembers))
      (calculateNetBalances (map to_binary64 zes) groupMembers) = Some edges
    /\ forall k v,
        get k (settle (calculateNetBalances (map to_binary64 zes) groupMembers) edges)
        = Some v ->
        PrimFloat.eqb v 0 = true.
Proof.
  intros Hes Hb.
  destruct (accounts_calculateNetBalances groupMembers zes Hes Hb)
    as (Hw & _ & _ & Hs).
  destruct (settles_on_whole_map
              (calculateNetBalances (map to_binary64 zes) groupMembers))
    as (edges & He & Hz).
  - apply NoDup_keys_calculateNetBalances.
  - assumption.
  - assumption.
  - exists edges. split; [exact He|exact Hz].
Qed.

Lemma even_splits_are_settled_witness :
  exists edges,
    simplifyDebts
      (length (calculateNetBalances
                 (map to_binary64 [Expense.mk 300%Z "A" []; Expense.mk 100%Z "B" ["A"; "B"]])
                 ["A"; "B"; "C"]))
      (calculateNetBalances
         (map to_binary64 [Expense.mk 300%Z "A" []; Expense.mk 100%Z "B" ["A"; "B"]])
         ["A"; "B"; "C"]) = Some edges
    /\ forall k v,
        get k (settle (calculateNetBalances
                         (map to_binary64
                              [Expense.mk 300%Z "A" []; Expense.mk 100%Z "B" ["A"; "B"]])
                         ["A"; "B"; "C"]) edges) = Some v ->
        PrimFloat.eqb v 0 = true.
Proof.
  apply (even_splits_are_settled
           [Expense.mk 300%Z "A" []; Expense.mk 100%Z "B" ["A"; "B"]]
           ["A"; "B"; "C"]).
  - constructor; [|constructor; [|constructor]].
    + unfold evenly_split. cbn. split; [lia|]. split; [tauto|].
      split; [intros id []|]. exists 100%Z. reflexivity.
    + unfold evenly_split. cbn. split; [lia|]. split; [tauto|].
      split; [intros id; tauto|]. exists 50%Z. reflexivity.
  - cbn. change (2 ^ 53)%Z with 9007199254740992%Z. lia.
Defined.

End Further.
